(** * Media Scanner: scan orchestration and deduplication pipeline

    A shallow embedding of the pipeline's building blocks (retry engine,
    circuit breaker, token bucket, feed normaliser, topic matcher,
    deduplicator, article repository, fetch worker, cleanup, multi-topic
    classification) together with the properties the specification states
    about them.

    Conventions.
    - A JavaScript string is a [string]; every character stands for one
      UTF-16 code unit below 256.
    - Instants and durations are milliseconds: [Z] for [Date] values, [Q]
      where the source multiplies or divides.  Numbers are exact: a
      product or a quotient is not rounded as a double of the platform
      is, so that a computed number is that of the source where the
      arithmetic of the source is exact.
    - Asynchronous code is written as explicit state passing; whatever the
      source reads from the outside world (clock, timers, database, cache,
      queues, model answer) is an argument. *)

From Stdlib Require Import ZArith QArith Qround Qminmax Lqa Bool Ascii String List Lia Permutation Sorted.
From stdpp Require Import gmap strings list fin_maps.
Import ListNotations.

Local Open Scope string_scope.
Local Open Scope list_scope.

(** ** JavaScript string primitives *)

Module Js.

Definition codeUnit (c : ascii) : nat := nat_of_ascii c.

(** White space as [String.prototype.trim] and the regular expression
    class [\s] see it, among the code units below 256. *)
Definition isSpace (c : ascii) : bool :=
  let n := codeUnit c in
  Nat.eqb n 9 || Nat.eqb n 10 || Nat.eqb n 11 || Nat.eqb n 12
  || Nat.eqb n 13 || Nat.eqb n 32 || Nat.eqb n 160.

(** [\w] of a regular expression. *)
Definition isWordChar (c : ascii) : bool :=
  let n := codeUnit c in
  (Nat.leb 48 n && Nat.leb n 57) || (Nat.leb 65 n && Nat.leb n 90)
  || (Nat.leb 97 n && Nat.leb n 122) || Nat.eqb n 95.

Definition lowerChar (c : ascii) : ascii :=
  let n := codeUnit c in
  if (Nat.leb 65 n && Nat.leb n 90)
     || (Nat.leb 192 n && Nat.leb n 222 && negb (Nat.eqb n 215))
  then ascii_of_nat (n + 32) else c.

Fixpoint toLowerCase (s : string) : string :=
  match s with
  | EmptyString => EmptyString
  | String c r => String (lowerChar c) (toLowerCase r)
  end.

Definition startsWith (s p : string) : bool := String.prefix p s.

(** [s.includes(k)] *)
Fixpoint includes (s k : string) : bool :=
  String.prefix k s ||
  match s with
  | EmptyString => false
  | String _ r => includes r k
  end.

Fixpoint trimStart (s : string) : string :=
  match s with
  | EmptyString => EmptyString
  | String c r => if isSpace c then trimStart r else s
  end.

Fixpoint trimEnd (s : string) : string :=
  match s with
  | EmptyString => EmptyString
  | String c r =>
      match trimEnd r with
      | EmptyString => if isSpace c then EmptyString else String c EmptyString
      | r' => String c r'
      end
  end.

Definition trim (s : string) : string := trimEnd (trimStart s).

(** [s.slice(0, n)] for [0 <= n] *)
Definition sliceTo (n : nat) (s : string) : string := String.substring 0 n s.

(** A JavaScript value used as a condition: the empty string is falsy,
    [undefined] is falsy. *)
Definition truthy (o : option string) : bool :=
  match o with
  | Some s => negb (String.eqb s "")
  | None => false
  end.

(** [a || b] on optional strings *)
Definition orElse (a b : option string) : option string :=
  if truthy a then a else b.

(** [s.replace(/pat/g, rep)] for a literal, non-empty pattern.  [skip]
    counts the characters of a match still to be dropped. *)
Fixpoint replaceAllFrom (pat rep : string) (skip : nat) (s : string) : string :=
  match s with
  | EmptyString => EmptyString
  | String c r =>
      match skip with
      | S k => replaceAllFrom pat rep k r
      | O =>
          if String.prefix pat s
          then rep +:+ replaceAllFrom pat rep (String.length pat - 1) r
          else String c (replaceAllFrom pat rep 0 r)
      end
  end.

Definition replaceAll (pat rep s : string) : string := replaceAllFrom pat rep 0 s.

(** [s.replace(/\s+/g, ' ')] *)
Fixpoint collapseFrom (inRun : bool) (s : string) : string :=
  match s with
  | EmptyString => EmptyString
  | String c r =>
      if isSpace c
      then (if inRun then collapseFrom true r else String " " (collapseFrom true r))
      else String c (collapseFrom false r)
  end.

Definition collapseSpaces (s : string) : string := collapseFrom false s.

(** Index of the first [>] of [s]. *)
Fixpoint indexOfGt (s : string) : option nat :=
  match s with
  | EmptyString => None
  | String c r =>
      if Ascii.eqb c ">" then Some 0%nat
      else match indexOfGt r with Some i => Some (S i) | None => None end
  end.

(** [s.replace(/<[^>]+>/g, ' ')]: at a [<], the match runs to the first
    [>] provided at least one character lies between them. *)
Fixpoint replaceTagsFrom (skip : nat) (s : string) : string :=
  match s with
  | EmptyString => EmptyString
  | String c r =>
      match skip with
      | S k => replaceTagsFrom k r
      | O =>
          if Ascii.eqb c "<"
          then match indexOfGt r with
               | Some (S i) => String " " (replaceTagsFrom (S (S i)) r)
               | _ => String c (replaceTagsFrom 0 r)
               end
          else String c (replaceTagsFrom 0 r)
      end
  end.

Definition replaceTags (s : string) : string := replaceTagsFrom 0 s.

(** Index of the first occurrence of [pat] in [s], letter case ignored. *)
Fixpoint indexOfCI (pat s : string) : option nat :=
  if String.prefix (toLowerCase pat) (toLowerCase s) then Some 0%nat
  else match s with
       | EmptyString => None
       | String _ r =>
           match indexOfCI pat r with Some i => Some (S i) | None => None end
       end.

Definition nextIsWordChar (s : string) : bool :=
  match s with
  | EmptyString => false
  | String c _ => isWordChar c
  end.

(** The case-insensitive global removal of a whole [tag] element (the
    two first replacements of [stripHtml], for script and style): an
    opening [<tag] at a word boundary matches up to and including the
    first closing [</tag>] after it, and does not match when there is
    none. *)
Fixpoint removeElementFrom (tag : string) (skip : nat) (s : string) : string :=
  match s with
  | EmptyString => EmptyString
  | String c r =>
      match skip with
      | S k => removeElementFrom tag k r
      | O =>
          let opening := "<" +:+ tag in
          let closing := "</" +:+ tag +:+ ">" in
          let n := String.length opening in
          let rest := String.substring n (String.length s - n) s in
          if String.prefix (toLowerCase opening) (toLowerCase s)
             && negb (nextIsWordChar rest)
          then match indexOfCI closing rest with
               | Some i =>
                   removeElementFrom tag (n + i + String.length closing - 1) r
               | None => String c (removeElementFrom tag 0 r)
               end
          else String c (removeElementFrom tag 0 r)
      end
  end.

Definition removeElement (tag s : string) : string := removeElementFrom tag 0 s.

Fixpoint repeatChar (c : ascii) (n : nat) : string :=
  match n with
  | O => EmptyString
  | S k => String c (repeatChar c k)
  end.

End Js.

(** ** What the platform provides

    [hashUrl] is the SHA-256 hex digest of the shared utilities, [urlHref]
    is [new URL(s).href] ([None] when the constructor throws), [dateParse]
    is [new Date(s).getTime()] ([None] for an invalid date). *)

Class Platform := {
  hashUrl : string -> string;
  urlHref : string -> option string;
  dateParse : string -> option Z;
}.

(** ** Feed items (rss-fetcher.service.ts) *)

Module RssFetcher.

Record RSSItem := {
  guid : option string;
  title : option string;
  link : option string;
  pubDate : option string;
  isoDate : option string;
  creator : option string;
  author : option string;
  content : option string;
  contentSnippet : option string;
  summary : option string;
  description : option string;
}.

End RssFetcher.

(** ** Feed normaliser and topic matcher (rss-normalizer.service.ts) *)

Module Normalizer.
Import RssFetcher.

Record NormalizedArticle := {
  sourceId : string;
  externalId : option string;
  url : string;
  urlHash : string;
  title : string;
  lede : option string;
  fullText : option string;
  author : option string;
  publishedAt : option Z;
}.

Inductive Reason :=
| missing_link
| missing_or_short_title
| invalid_url
| insufficient_content
| too_old.

Definition reasonName (r : Reason) : string :=
  match r with
  | missing_link => "missing_link"
  | missing_or_short_title => "missing_or_short_title"
  | invalid_url => "invalid_url"
  | insufficient_content => "insufficient_content"
  | too_old => "too_old"
  end.

(** The [{ article?, reason? }] object of [normalizeItem]. *)
Inductive ItemResult :=
| Article (a : NormalizedArticle)
| Skipped (r : Reason).

Definition stripHtml (html : string) : string :=
  let s := Js.removeElement "script" html in
  let s := Js.removeElement "style" s in
  let s := Js.replaceTags s in
  let s := Js.replaceAll "&nbsp;" " " s in
  let s := Js.replaceAll "&amp;" "&" s in
  let s := Js.replaceAll "&lt;" "<" s in
  let s := Js.replaceAll "&gt;" ">" s in
  let s := Js.replaceAll "&quot;" (String (ascii_of_nat 34) EmptyString) s in
  let s := Js.replaceAll "&#39;" "'" s in
  let s := Js.collapseSpaces s in
  Js.trim s.

Definition cleanText (text : string) : string :=
  Js.trim (Js.collapseSpaces (stripHtml text)).

Definition candidates (item : RSSItem) : list (option string) :=
  [contentSnippet item; summary item; description item; content item].

Fixpoint firstLede (cs : list (option string)) : option string :=
  match cs with
  | [] => None
  | c :: rest =>
      match c with
      | Some s =>
          if Nat.ltb 0 (String.length (Js.trim s))
          then let cleaned := stripHtml s in
               if Nat.leb 30 (String.length cleaned)
               then Some (Js.sliceTo 500 cleaned)
               else firstLede rest
          else firstLede rest
      | None => firstLede rest
      end
  end.

Definition extractLede (item : RSSItem) : option string :=
  firstLede (candidates item).

Definition MS_PER_DAY : Z := 86400000.

(** [cutoff.setDate(cutoff.getDate() - days)] on a calendar without
    clock changes. *)
Definition isOlderThan (now date : Z) (days : Z) : bool :=
  (date <? now - days * MS_PER_DAY)%Z.

Section WithPlatform.
Context `{Platform}.

Definition cleanUrl (u : string) : option string :=
  let cleaned := Js.trim u in
  if negb (Js.startsWith cleaned "http://")
     && negb (Js.startsWith cleaned "https://")
  then None
  else urlHref cleaned.

Definition parseDate (now : Z) (dateString : option string) : option Z :=
  if negb (Js.truthy dateString) then None
  else match dateString with
       | None => None
       | Some s =>
           match dateParse s with
           | None => None
           | Some date => if (now <? date)%Z then Some now else Some date
           end
       end.

(** One reading of the clock, [now], serves the whole item. *)
Definition normalizeItem (now : Z) (item : RSSItem) (sourceId0 sourceName : string)
  : ItemResult :=
  if negb (Js.truthy (link item)) then Skipped missing_link
  else match link item with
  | None => Skipped missing_link
  | Some l =>
  match RssFetcher.title item with
  | None => Skipped missing_or_short_title
  | Some t =>
  if negb (Js.truthy (Some t)) || Nat.ltb (String.length (Js.trim t)) 5
  then Skipped missing_or_short_title
  else
  match cleanUrl l with
  | None => Skipped invalid_url
  | Some u =>
  if negb (Js.truthy (Some u)) then Skipped invalid_url
  else
  match extractLede item with
  | None => Skipped insufficient_content
  | Some lede0 =>
  if negb (Js.truthy (Some lede0)) || Nat.ltb (String.length lede0) 30
  then Skipped insufficient_content
  else
  let published := parseDate now (Js.orElse (pubDate item) (isoDate item)) in
  if match published with
     | Some d => isOlderThan now d 7
     | None => false
     end
  then Skipped too_old
  else
    Article {| sourceId := sourceId0;
               externalId := Js.orElse (guid item) (Some u);
               url := u;
               urlHash := hashUrl u;
               title := cleanText t;
               lede := Some (cleanText lede0);
               fullText := if Js.truthy (content item)
                           then option_map cleanText (content item) else None;
               author := Js.orElse (Js.orElse (RssFetcher.author item) (creator item)) None;
               publishedAt := published |}
  end end end end.

Record NormalizationResult := {
  articles : list NormalizedArticle;
  skipped : nat;
  reasons : gmap string nat;
}.

Definition countReason (r : Reason) (m : gmap string nat) : gmap string nat :=
  <[reasonName r := (default 0 (m !! reasonName r) + 1)%nat]> m.

Fixpoint normalizeLoop (now : Z) (items : list RSSItem) (sourceId0 sourceName : string)
    (acc : NormalizationResult) : NormalizationResult :=
  match items with
  | [] => acc
  | item :: rest =>
      let acc' :=
        match normalizeItem now item sourceId0 sourceName with
        | Article a =>
            {| articles := articles acc ++ [a];
               skipped := skipped acc;
               reasons := reasons acc |}
        | Skipped r =>
            {| articles := articles acc;
               skipped := S (skipped acc);
               reasons := countReason r (reasons acc) |}
        end in
      normalizeLoop now rest sourceId0 sourceName acc'
  end.

Definition normalizeItems (now : Z) (items : list RSSItem) (sourceId0 sourceName : string)
  : NormalizationResult :=
  normalizeLoop now items sourceId0 sourceName
    {| articles := []; skipped := 0; reasons := ∅ |}.

End WithPlatform.

(** *** Topic matcher *)

Record TopicKeywords := {
  id : string;
  keywords : list string;
}.

Definition ledeOrEmpty (a : NormalizedArticle) : string :=
  match Js.orElse (lede a) (Some "") with
  | Some s => s
  | None => ""
  end.

(** The template string [`${title} ${lede || ''}`], lower-cased. *)
Definition matchText (a : NormalizedArticle) : string :=
  Js.toLowerCase (title a +:+ " " +:+ ledeOrEmpty a).

Definition quickRelevanceCheck (a : NormalizedArticle) (kws : list string) : bool :=
  let text := matchText a in
  existsb (fun keyword => Js.includes (Js.toLowerCase text) (Js.toLowerCase keyword)) kws.

Fixpoint checkAgainstTopics (a : NormalizedArticle) (topics : list TopicKeywords)
  : list string :=
  match topics with
  | [] => []
  | topic :: rest =>
      if quickRelevanceCheck a (keywords topic)
      then id topic :: checkAgainstTopics a rest
      else checkAgainstTopics a rest
  end.

End Normalizer.

(** ** The durable store (tables of the initial migration) *)

Module Store.

Inductive ArticleStatus := pending | analyzing | relevant | irrelevant | error.

Record ArticleRow := {
  row_id : nat;
  source_id : option string;
  external_id : option string;
  row_url : string;
  url_hash : string;
  row_title : string;
  lede : option string;
  full_text : option string;
  row_author : option string;
  published_at : option Z;
  status : ArticleStatus;
  created_at : Z;
}.

Record ScanLogRow := {
  log_id : nat;
  started_at : Z;
}.

(** [summary_date] is a DATE: a day number. *)
Record DailySummaryRow := {
  summary_id : nat;
  summary_date : Z;
}.

Inductive SourceType := rss | twitter | mastodon | bluesky.
Inductive SourceCategory := national | regional | social.

Record SourceRow := {
  src_id : string;
  src_name : string;
  slug : string;
  src_type : SourceType;
  category : SourceCategory;
  src_url : string;
  is_active : bool;
  fetch_interval_minutes : Z;
  last_fetched_at : option Z;
}.

(** [next_id] stands for the default of the primary keys, a value no row
    has yet. *)
Record Database := {
  sources : list SourceRow;
  articles : list ArticleRow;
  scan_logs : list ScanLogRow;
  daily_summaries : list DailySummaryRow;
  next_id : nat;
}.

Definition hashMatches (h : string) (r : ArticleRow) : bool :=
  String.eqb (url_hash r) h.

(** Number of article rows carrying the content hash [h]. *)
Definition rowsWithHash (h : string) (db : Database) : nat :=
  length (filter (fun r => hashMatches h r = true) (articles db)).

(** CONSTRAINT unique_url_hash UNIQUE (url_hash) *)
Definition unique_url_hash (db : Database) : Prop :=
  NoDup (map url_hash (articles db)).

End Store.

(** ** Article repository (article.repository.ts) *)

Module ArticleRepository.
Import Store.

Record CreateArticleInput := {
  sourceId : string;
  externalId : option string;
  url : string;
  title : string;
  lede : option string;
  fullText : option string;
  author : option string;
  publishedAt : option Z;
}.

(** What awaiting [create] gives: the first returned row, nothing when
    the statement returned no row, or the error it threw. *)
Inductive Created :=
| Row (r : ArticleRow)
| NoRow
| Threw (message : string).

Definition orNull (o : option string) : option string := Js.orElse o None.

(** The VARCHAR columns of the articles table: external_id VARCHAR(500),
    author VARCHAR(255).  The database refuses a value longer than its
    column unless the characters in excess are all spaces, which it drops. *)
Fixpoint onlySpaces (s : string) : bool :=
  match s with
  | EmptyString => true
  | String c r => Ascii.eqb c " " && onlySpaces r
  end.

Definition excess (limit : nat) (s : string) : string :=
  String.substring limit (String.length s - limit) s.

Definition tooLong (limit : nat) (o : option string) : bool :=
  match orNull o with
  | Some s => negb (onlySpaces (excess limit s))
  | None => false
  end.

Definition varchar (limit : nat) (o : option string) : option string :=
  option_map (Js.sliceTo limit) o.

Definition columnWidths (input : CreateArticleInput) : option string :=
  if tooLong 500 (externalId input)
  then Some "value too long for type character varying(500)"
  else if tooLong 255 (author input)
  then Some "value too long for type character varying(255)"
  else None.

Section Create.
Context `{Platform}.

(** The [query] helper of config/database.js hands the statement to
    the database, which may refuse a row for another reason of its own
    (a source that does not exist, a lost connection): [rejects db i]
    is the message of the error then thrown. *)
Variable rejects : Database -> CreateArticleInput -> option string.

(** INSERT INTO articles (...) VALUES (..., 'pending')
    ON CONFLICT (url_hash) DO NOTHING RETURNING * *)
Definition create (now : Z) (db : Database) (input : CreateArticleInput)
  : Database * Created :=
  let urlHash := hashUrl (url input) in
  match columnWidths input with
  | Some message => (db, Threw message)
  | None =>
      match rejects db input with
      | Some message => (db, Threw message)
      | None =>
          if existsb (hashMatches urlHash) (articles db)
          then (db, NoRow)
          else
            let r := {| row_id := next_id db;
                        source_id := Some (sourceId input);
                        external_id := varchar 500 (orNull (externalId input));
                        row_url := url input;
                        url_hash := urlHash;
                        row_title := title input;
                        Store.lede := orNull (lede input);
                        full_text := orNull (fullText input);
                        row_author := varchar 255 (orNull (author input));
                        published_at := publishedAt input;
                        status := pending;
                        created_at := now |} in
            ({| sources := sources db;
                articles := articles db ++ [r];
                scan_logs := scan_logs db;
                daily_summaries := daily_summaries db;
                next_id := S (next_id db) |}, Row r)
      end
  end.

End Create.

(** A database that refuses a row for its column widths only. *)
Definition accepts (db : Database) (input : CreateArticleInput) : option string := None.

End ArticleRepository.

(** ** Deduplicator (deduplicator.service.ts) *)

Module Deduplicator.
Import Normalizer Store.

Definition REDIS_KEY_PREFIX : string := "url_hash:".

(** The key-value cache: [up = false] makes every command fail.  Entries
    are written with a time to live of seven days, which no scan spans;
    expiry is not modelled. *)
Record Redis := {
  up : bool;
  entries : gmap string string;
}.

Inductive Cached := cached_exists | cached_new.

#[global] Instance Cached_eq_dec : EqDecision Cached.
Proof. solve_decision. Defined.

Definition classify (value : option string) : option Cached :=
  match value with
  | Some v =>
      if String.eqb v "exists" then Some cached_exists
      else if String.eqb v "new" then Some cached_new
      else None
  | None => None
  end.

Definition cacheKey (h : string) : string := REDIS_KEY_PREFIX +:+ h.

(** The [Map] filled by [batchCheckCache]; a hash maps to [None] when
    the cache has no verdict for it. *)
Definition batchCheckCache (redis : Redis) (urlHashes : list string)
  : gmap string (option Cached) :=
  if up redis
  then fold_left (fun results h => <[h := classify (entries redis !! cacheKey h)]> results)
                 urlHashes ∅
  else fold_left (fun results h => <[h := None]> results) urlHashes ∅.

Definition setex (redis : Redis) (key value : string) : Redis :=
  {| up := up redis; entries := <[key := value]> (entries redis) |}.

(** A failed write is logged and otherwise ignored. *)
Definition cacheUrlHash (redis : Redis) (urlHash0 : string) (exist : bool) : Redis :=
  if up redis
  then setex redis (cacheKey urlHash0) (if exist then "exists" else "new")
  else redis.

Definition batchSize : nat := 100.

(** The slices [urlHashes.slice(i, i + batchSize)] of the loop; [fuel]
    bounds their number. *)
Fixpoint batches (fuel : nat) (l : list string) : list (list string) :=
  match fuel with
  | O => []
  | S k =>
      match l with
      | [] => []
      | _ => firstn batchSize l :: batches k (skipn batchSize l)
      end
  end.

(** SELECT url_hash FROM articles WHERE url_hash IN (batch) *)
Definition selectHashes (db : Database) (batch : list string) : list string :=
  map url_hash
    (filter (fun r => existsb (String.eqb (url_hash r)) batch = true) (articles db)).

Definition batchCheckDatabase (db : Database) (urlHashes : list string) : gset string :=
  fold_left (fun existing batch => existing ∪ list_to_set (selectHashes db batch))
            (batches (length urlHashes) urlHashes) ∅.

Record DeduplicationResult := {
  newArticles : list NormalizedArticle;
  duplicates : nat;
  cacheHits : nat;
  dbChecks : nat;
}.

(** State of the first loop of [filterDuplicates]. *)
Record CachePass := {
  p_new : list NormalizedArticle;
  p_duplicates : nat;
  p_cacheHits : nat;
  needsDbCheck : list NormalizedArticle;
}.

Definition cacheStep (cacheResults : gmap string (option Cached))
    (acc : CachePass) (article : NormalizedArticle) : CachePass :=
  match cacheResults !! urlHash article with
  | Some (Some cached_exists) =>
      {| p_new := p_new acc;
         p_duplicates := S (p_duplicates acc);
         p_cacheHits := S (p_cacheHits acc);
         needsDbCheck := needsDbCheck acc |}
  | Some (Some cached_new) =>
      {| p_new := p_new acc ++ [article];
         p_duplicates := p_duplicates acc;
         p_cacheHits := S (p_cacheHits acc);
         needsDbCheck := needsDbCheck acc |}
  | _ =>
      {| p_new := p_new acc;
         p_duplicates := p_duplicates acc;
         p_cacheHits := p_cacheHits acc;
         needsDbCheck := needsDbCheck acc ++ [article] |}
  end.

(** State of the second loop: the cache, the new articles, the count of
    duplicates. *)
Definition dbStep (dbResults : gset string)
    (acc : Redis * list NormalizedArticle * nat) (article : NormalizedArticle)
  : Redis * list NormalizedArticle * nat :=
  let '(redis, fresh, dups) := acc in
  if decide (urlHash article ∈ dbResults)
  then (cacheUrlHash redis (urlHash article) true, fresh, S dups)
  else (cacheUrlHash redis (urlHash article) false, fresh ++ [article], dups).

(** The store answers every probe: a failed query, which makes the
    source rethrow, is not modelled. *)
Definition filterDuplicates (redis : Redis) (db : Database)
    (arts : list NormalizedArticle) : Redis * DeduplicationResult :=
  let urlHashes := map urlHash arts in
  let cacheResults := batchCheckCache redis urlHashes in
  let pass :=
    fold_left (cacheStep cacheResults) arts
      {| p_new := []; p_duplicates := 0; p_cacheHits := 0; needsDbCheck := [] |} in
  if Nat.ltb 0 (length (needsDbCheck pass))
  then
    let dbResults := batchCheckDatabase db (map urlHash (needsDbCheck pass)) in
    let '(redis', fresh, dups) :=
      fold_left (dbStep dbResults) (needsDbCheck pass)
                (redis, p_new pass, p_duplicates pass) in
    (redis', {| newArticles := fresh;
                duplicates := dups;
                cacheHits := p_cacheHits pass;
                dbChecks := length (needsDbCheck pass) |})
  else
    (redis, {| newArticles := p_new pass;
               duplicates := p_duplicates pass;
               cacheHits := p_cacheHits pass;
               dbChecks := 0 |}).

Section WithPlatform.
Context `{Platform}.

(** The pipeline of [markBatchAsStored]; [None] when executing it
    throws. *)
Definition markBatchAsStored (redis : Redis) (urls : list string) : option Redis :=
  if Nat.eqb (length urls) 0 then Some redis
  else if up redis
  then Some (fold_left (fun r u => setex r (cacheKey (hashUrl u)) "exists") urls redis)
  else None.

End WithPlatform.

End Deduplicator.

(** ** Payload of a classification job (jobs/queues.ts) *)

Module Queues.

Record AiAnalysisJobData := {
  articleId : nat;
  title : string;
  lede : string;
  sourceName : string;
  url : string;
  topicIds : list string;
}.

End Queues.

(** ** Fetch worker (rss-scan.worker.ts) *)

Module RssScanWorker.
Import Normalizer Store Deduplicator.

Inductive ScanStatus := running | completed | failed | partial.

Record RssScanResult := {
  fetched : nat;
  normalized : nat;
  r_newArticles : nat;
  r_duplicates : nat;
  r_queued : nat;
  r_errors : list string;
  scanLog : ScanStatus;
}.

(** What the insert loop of step 4 updates. *)
Record InsertState := {
  db : Database;
  aiQueue : list Queues.AiAnalysisJobData;
  insertedArticles : list nat;
  queued : nat;
  errors : list string;
}.

Definition toInput (article : NormalizedArticle) : ArticleRepository.CreateArticleInput :=
  {| ArticleRepository.sourceId := sourceId article;
     ArticleRepository.externalId := externalId article;
     ArticleRepository.url := url article;
     ArticleRepository.title := Normalizer.title article;
     ArticleRepository.lede := Normalizer.lede article;
     ArticleRepository.fullText := fullText article;
     ArticleRepository.author := Normalizer.author article;
     ArticleRepository.publishedAt := publishedAt article |}.

Section Worker.
Context `{Platform}.
Variable rejects : Database -> ArticleRepository.CreateArticleInput -> option string.

(** [addAiAnalysisJob] hands the job to the classification queue, which
    may refuse it (the queue's store is down): [refuses job] is the
    message of the error then thrown. *)
Variable refuses : Queues.AiAnalysisJobData -> option string.

(** The [catch] of the loop: the message is recorded unless it contains
    "duplicate key". *)
Definition caught (article : NormalizedArticle) (errorMsg : string)
    (errors0 : list string) : list string :=
  if negb (Js.includes errorMsg "duplicate key")
  then errors0 ++ ["Insert error for " +:+ url article +:+ ": " +:+ errorMsg]
  else errors0.

(** One turn of [for (const article of dedupeResult.newArticles)]. *)
Definition insertStep (now : Z) (topicsForMatching : list TopicKeywords)
    (sourceName : string) (st : InsertState) (article : NormalizedArticle)
  : InsertState :=
  match ArticleRepository.create rejects now (db st) (toInput article) with
  | (db', ArticleRepository.Row created) =>
      let matchedTopicIds := checkAgainstTopics article topicsForMatching in
      if Nat.ltb 0 (length matchedTopicIds)
      then
        let job := {| Queues.articleId := row_id created;
                      Queues.title := Normalizer.title article;
                      Queues.lede := ledeOrEmpty article;
                      Queues.sourceName := sourceName;
                      Queues.url := url article;
                      Queues.topicIds := matchedTopicIds |} in
        match refuses job with
        | None =>
            {| db := db';
               aiQueue := aiQueue st ++ [job];
               insertedArticles := insertedArticles st ++ [row_id created];
               queued := S (queued st);
               errors := errors st |}
        | Some errorMsg =>
            {| db := db';
               aiQueue := aiQueue st;
               insertedArticles := insertedArticles st ++ [row_id created];
               queued := queued st;
               errors := caught article errorMsg (errors st) |}
        end
      else {| db := db';
              aiQueue := aiQueue st;
              insertedArticles := insertedArticles st ++ [row_id created];
              queued := queued st;
              errors := errors st |}
  | (db', ArticleRepository.NoRow) =>
      {| db := db';
         aiQueue := aiQueue st;
         insertedArticles := insertedArticles st;
         queued := queued st;
         errors := errors st |}
  | (db', ArticleRepository.Threw errorMsg) =>
      {| db := db';
         aiQueue := aiQueue st;
         insertedArticles := insertedArticles st;
         queued := queued st;
         errors := caught article errorMsg (errors st) |}
  end.

Definition insertLoop (now : Z) (topicsForMatching : list TopicKeywords)
    (sourceName : string) (st : InsertState) (arts : list NormalizedArticle)
  : InsertState :=
  fold_left (insertStep now topicsForMatching sourceName) arts st.

(** The world a fetch job runs in. *)
Record World := {
  w_redis : Redis;
  w_db : Database;
  w_aiQueue : list Queues.AiAnalysisJobData;
}.

(** [processRssScan] from the result of [fetchFeed] on: the error of a
    failed fetch, or the items of the feed.  [None] when the job
    throws.  The writes to the sources and scan_logs tables are left
    out but for the final status of the scan log. *)
Definition processRssScan (now : Z) (fetchResult : string + list RssFetcher.RSSItem)
    (sourceId0 sourceName : string) (topicsForMatching : list TopicKeywords)
    (w : World) : option (World * RssScanResult) :=
  match fetchResult with
  | inl fetchError =>
      Some (w, {| fetched := 0; normalized := 0; r_newArticles := 0;
                  r_duplicates := 0; r_queued := 0;
                  r_errors := ["Fetch failed: " +:+ fetchError];
                  scanLog := failed |})
  | inr items =>
      let normalizeResult := normalizeItems now items sourceId0 sourceName in
      let '(redis1, dedupeResult) :=
        filterDuplicates (w_redis w) (w_db w) (Normalizer.articles normalizeResult) in
      let st := insertLoop now topicsForMatching sourceName
                  {| db := w_db w; aiQueue := w_aiQueue w;
                     insertedArticles := []; queued := 0; errors := [] |}
                  (newArticles dedupeResult) in
      match markBatchAsStored redis1 (map url (newArticles dedupeResult)) with
      | None => None
      | Some redis2 =>
          Some ({| w_redis := redis2; w_db := db st; w_aiQueue := aiQueue st |},
                {| fetched := length items;
                   normalized := length (Normalizer.articles normalizeResult);
                   r_newArticles := length (newArticles dedupeResult);
                   r_duplicates := duplicates dedupeResult;
                   r_queued := queued st;
                   r_errors := errors st;
                   scanLog := if Nat.ltb 0 (length (errors st))
                              then partial else completed |})
      end
  end.

End Worker.

End RssScanWorker.

(** ** Scan orchestrator (scan-orchestrator.worker.ts) *)

Module Orchestrator.
Import Store.

Record RssScanJobData := {
  sourceId : string;
  feedUrl : string;
  sourceName : string;
}.

Record QueuedScan := {
  jobName : string;
  data : RssScanJobData;
  priority : option Z;
}.

Inductive ScanType := full | incremental | cleanup.

Record OrchestratorResult := {
  type : ScanType;
  sourcesProcessed : nat;
  jobsQueued : nat;
  errors : list string;
}.

Definition MS_PER_DAY : Z := 86400000.

Fixpoint insertBy {A} (le : A -> A -> bool) (x : A) (l : list A) : list A :=
  match l with
  | [] => [x]
  | y :: r => if le x y then x :: y :: r else y :: insertBy le x r
  end.

(** ORDER BY, as a stable sort. *)
Definition orderBy {A} (le : A -> A -> bool) (l : list A) : list A :=
  fold_right (insertBy le) [] l.

Definition isRss (s : SourceRow) : bool :=
  match src_type s with rss => true | _ => false end.

Definition scanJob (prioritized : bool) (s : SourceRow) : QueuedScan :=
  {| jobName := "scan-" +:+ slug s;
     data := {| sourceId := src_id s; feedUrl := src_url s; sourceName := src_name s |};
     priority := if prioritized
                 then Some (match category s with national => 1 | _ => 2 end)%Z
                 else None |}.

(** SELECT * FROM sources WHERE type = 'rss' AND is_active = true
    ORDER BY fetch_interval_minutes *)
Definition findActiveRssSources (db : Database) : list SourceRow :=
  orderBy (fun a b => (fetch_interval_minutes a <=? fetch_interval_minutes b)%Z)
          (filter (fun s => isRss s && is_active s = true) (sources db)).

(** [queues.rssScan.add] hands a job to the fetch queue, which may refuse
    it (the queue's store is down): [addFails job] is the message of the
    error then thrown. *)
Section Queueing.
Variable addFails : QueuedScan -> option string.

(** One turn of [for (const source of sources)]: the queue, the count of
    jobs queued and the errors. *)
Definition queueStep (acc : list QueuedScan * nat * list string) (source : SourceRow)
  : list QueuedScan * nat * list string :=
  let '(rssScan, jobsQueued0, errors0) := acc in
  match addFails (scanJob true source) with
  | None => (rssScan ++ [scanJob true source], S jobsQueued0, errors0)
  | Some errorMsg =>
      (rssScan, jobsQueued0,
       errors0 ++ ["Failed to queue " +:+ src_name source +:+ ": " +:+ errorMsg])
  end.

Definition queueAll (rssScan : list QueuedScan) (srcs : list SourceRow)
  : list QueuedScan * (nat * nat * list string) :=
  let '(q, jobsQueued0, errors0) := fold_left queueStep srcs (rssScan, 0%nat, []) in
  (q, (length srcs, jobsQueued0, errors0)).

Definition runFullScan (db : Database) (rssScan : list QueuedScan)
  : list QueuedScan * (nat * nat * list string) :=
  queueAll rssScan (findActiveRssSources db).

Definition isDue (now : Z) (s : SourceRow) : bool :=
  match last_fetched_at s with
  | None => true
  | Some t => (t <? now - fetch_interval_minutes s * 60000)%Z
  end.

Definition fetchedBefore (a b : SourceRow) : bool :=
  match last_fetched_at a, last_fetched_at b with
  | None, _ => true
  | Some _, None => false
  | Some x, Some y => (x <=? y)%Z
  end.

(** [None] when the job throws: the requested source does not exist, or
    the queue refuses its job. *)
Definition runIncrementalScan (now : Z) (specificSourceId : option string)
    (db : Database) (rssScan : list QueuedScan)
  : option (list QueuedScan * (nat * nat * list string)) :=
  if Js.truthy specificSourceId
  then match specificSourceId with
       | None => None
       | Some sid =>
           match filter (fun s => String.eqb (src_id s) sid = true) (sources db) with
           | [] => None
           | s :: _ =>
               match addFails (scanJob false s) with
               | None => Some (rssScan ++ [scanJob false s], (1, 1, []))%nat
               | Some _ => None
               end
           end
       end
  else
    let srcs := firstn 20 (orderBy fetchedBefore
                  (filter (fun s => isRss s && is_active s && isDue now s = true)
                          (sources db))) in
    Some (queueAll rssScan srcs).

Definition purgeableArticle (now : Z) (r : ArticleRow) : bool :=
  match status r with
  | irrelevant | error => (created_at r <? now - 90 * MS_PER_DAY)%Z
  | _ => false
  end.

Definition purgeableLog (now : Z) (l : ScanLogRow) : bool :=
  (started_at l <? now - 30 * MS_PER_DAY)%Z.

(** CURRENT_DATE is the day number of [now]. *)
Definition purgeableSummary (now : Z) (d : DailySummaryRow) : bool :=
  (summary_date d <? now / MS_PER_DAY - 90)%Z.

Definition kept {A} (doomed : A -> bool) (l : list A) : list A :=
  filter (fun x => doomed x = false) l.

Definition rowCount {A} (doomed : A -> bool) (l : list A) : nat :=
  length (filter (fun x => doomed x = true) l).

Definition runCleanup (now : Z) (db : Database) : Database * nat :=
  let totalDeleted := 0%nat in
  let totalDeleted := (totalDeleted + rowCount (purgeableArticle now) (articles db))%nat in
  let totalDeleted := (totalDeleted + rowCount (purgeableLog now) (scan_logs db))%nat in
  let totalDeleted := (totalDeleted + rowCount (purgeableSummary now) (daily_summaries db))%nat in
  ({| sources := sources db;
      articles := kept (purgeableArticle now) (articles db);
      scan_logs := kept (purgeableLog now) (scan_logs db);
      daily_summaries := kept (purgeableSummary now) (daily_summaries db);
      next_id := next_id db |}, totalDeleted).

(** The job of the orchestration queue; the fetch queue [rssScan] is the
    only queue it writes to. *)
Definition processScanOrchestrator (now : Z) (ty : ScanType)
    (sourceId0 : option string) (db : Database) (rssScan : list QueuedScan)
  : option (Database * list QueuedScan * OrchestratorResult) :=
  match ty with
  | full =>
      let '(q, (processed, queued, errs)) := runFullScan db rssScan in
      Some (db, q, {| type := ty; sourcesProcessed := processed;
                      jobsQueued := queued; errors := errs |})
  | incremental =>
      match runIncrementalScan now sourceId0 db rssScan with
      | None => None
      | Some (q, (processed, queued, errs)) =>
          Some (db, q, {| type := ty; sourcesProcessed := processed;
                          jobsQueued := queued; errors := errs |})
      end
  | cleanup =>
      let '(db', itemsDeleted) := runCleanup now db in
      Some (db', rssScan, {| type := ty; sourcesProcessed := itemsDeleted;
                             jobsQueued := 0; errors := [] |})
  end.

End Queueing.

End Orchestrator.

(** ** Retry engine and circuit breaker (utils/retry.ts) *)

Module Retry.

Record JsError := {
  name : string;
  message : string;
}.

Record RetryOptions := {
  maxAttempts : nat;
  initialDelayMs : Q;
  maxDelayMs : Q;
  backoffMultiplier : Q;
  retryableErrors : option (list string);
}.

Definition DEFAULT_RETRY_OPTIONS : RetryOptions :=
  {| maxAttempts := 3;
     initialDelayMs := 1000;
     maxDelayMs := 30000;
     backoffMultiplier := 2;
     retryableErrors := None |}.

Definition defaultPatterns : list string :=
  ["timeout"; "econnreset"; "econnrefused"; "etimedout"; "socket hang up";
   "network"; "rate_limit"; "rate limit"; "429"; "503"; "502"; "overloaded";
   "temporarily unavailable"].

Definition isRetryableError (e : JsError) (retryablePatterns : option (list string))
  : bool :=
  let msg := Js.toLowerCase (message e) in
  let nm := Js.toLowerCase (name e) in
  let patterns := match retryablePatterns with
                  | Some ps => ps
                  | None => defaultPatterns
                  end in
  existsb (fun pattern => Js.includes msg (Js.toLowerCase pattern)
                          || Js.includes nm (Js.toLowerCase pattern)) patterns.

Inductive Outcome (T : Type) :=
| Resolved (value : T)
| Rejected (e : JsError).
Arguments Resolved {T} value.
Arguments Rejected {T} e.

(** What a run of [withRetry] did: how it settled, how many times it
    called the operation, and the delays it slept, in order. *)
Record Run (T : Type) := {
  settled : Outcome T;
  calls : nat;
  sleeps : list Q;
}.
Arguments settled {T} r.
Arguments calls {T} r.
Arguments sleeps {T} r.

Section WithRetry.
Context {T : Type}.

(** The operation is given by the outcome of its k-th call.
    [remaining] counts the turns the loop has left:
    [maxAttempts - attempt + 1]. *)
Fixpoint attempts (opts : RetryOptions) (operation : nat -> Outcome T)
    (remaining attempt : nat) (delay : Q) (lastError : JsError)
    (made : nat) (slept : list Q) : Run T :=
  match remaining with
  | O => {| settled := Rejected lastError; calls := made; sleeps := slept |}
  | S k =>
      match operation attempt with
      | Resolved v =>
          {| settled := Resolved v; calls := S made; sleeps := slept |}
      | Rejected e =>
          let isRetryable := isRetryableError e (retryableErrors opts) in
          if negb isRetryable || Nat.eqb attempt (maxAttempts opts)
          then {| settled := Rejected e; calls := S made; sleeps := slept |}
          else attempts opts operation k (S attempt)
                 (Qmin (delay * backoffMultiplier opts) (maxDelayMs opts))
                 e (S made) (slept ++ [delay])
      end
  end.

(** [opts] is the policy after the defaults have been merged in. *)
Definition withRetry (operation : nat -> Outcome T) (opts : RetryOptions) : Run T :=
  attempts opts operation (maxAttempts opts) 1 (initialDelayMs opts)
    {| name := "Error"; message := "No attempts made" |} 0 [].

End WithRetry.

(** The delays of exponential backoff, as the policy describes them: the
    first is the initial delay, each next one is the previous one times
    the multiplier, capped at the maximum. *)
Fixpoint backoff (opts : RetryOptions) (delay : Q) (n : nat) : list Q :=
  match n with
  | O => []
  | S k => delay :: backoff opts (Qmin (delay * backoffMultiplier opts) (maxDelayMs opts)) k
  end.

End Retry.

Module CircuitBreaker.
Import Retry.

Inductive State := closed | open | half_open.

Record Breaker := {
  failures : Z;
  lastFailure : option Z;
  state : State;
  threshold : Z;
  resetTimeoutMs : Z;
}.

Definition new (threshold0 resetTimeoutMs0 : Z) : Breaker :=
  {| failures := 0; lastFailure := None; state := closed;
     threshold := threshold0; resetTimeoutMs := resetTimeoutMs0 |}.

Definition setState (b : Breaker) (s : State) : Breaker :=
  {| failures := failures b; lastFailure := lastFailure b; state := s;
     threshold := threshold b; resetTimeoutMs := resetTimeoutMs b |}.

Definition recordFailure (now : Z) (b : Breaker) : Breaker :=
  let f := (failures b + 1)%Z in
  {| failures := f;
     lastFailure := Some now;
     state := if (threshold b <=? f)%Z then open else state b;
     threshold := threshold b;
     resetTimeoutMs := resetTimeoutMs b |}.

Definition reset (b : Breaker) : Breaker :=
  {| failures := 0; lastFailure := None; state := closed;
     threshold := threshold b; resetTimeoutMs := resetTimeoutMs b |}.

(** [this.lastFailure || 0] *)
Definition lastFailureOrZero (b : Breaker) : Z :=
  match lastFailure b with
  | Some t => t
  | None => 0
  end.

Section Execute.
Context {T : Type}.

(** The try block, entered with the state [b]: the operation, called
    at [now], settles at the instant it returns with its outcome. *)
Definition attempt (b : Breaker) (now : Z) (operation : Z -> Outcome T * Z)
  : Breaker * Outcome T :=
  match operation now with
  | (Resolved v, _) =>
      (match state b with half_open => reset b | _ => b end, Resolved v)
  | (Rejected e, settledAt) => (recordFailure settledAt b, Rejected e)
  end.

Definition execute (b : Breaker) (now : Z) (operation : Z -> Outcome T * Z)
  : Breaker * Outcome T :=
  match state b with
  | open =>
      if (resetTimeoutMs b <? now - lastFailureOrZero b)%Z
      then attempt (setState b half_open) now operation
      else (b, Rejected {| name := "Error"; message := "Circuit breaker is open" |})
  | _ => attempt b now operation
  end.

End Execute.

(** A breaker driven through a sequence of calls, each given by the
    instant it starts and the operation it wraps. *)
Fixpoint run {T} (b : Breaker) (callsAt : list (Z * (Z -> Outcome T * Z))) : Breaker :=
  match callsAt with
  | [] => b
  | (now, operation) :: rest => run (fst (execute b now operation)) rest
  end.

End CircuitBreaker.

(** ** Token bucket (utils/rate-limiter.ts) *)

Module RateLimiter.

Record Limiter := {
  tokens : Z;
  maxTokens : Z;
  interval : Q;
  lastRefill : Q;
}.

Definition new (tokensPerInterval : Z) (interval0 : Q) (now : Q) : Limiter :=
  {| tokens := tokensPerInterval; maxTokens := tokensPerInterval;
     interval := interval0; lastRefill := now |}.

Definition refillTokens (now : Q) (l : Limiter) : Limiter :=
  let elapsed := (now - lastRefill l)%Q in
  let tokensToAdd := Qfloor ((elapsed / interval l) * inject_Z (maxTokens l)) in
  if (0 <? tokensToAdd)%Z
  then {| tokens := Z.min (maxTokens l) (tokens l + tokensToAdd);
          maxTokens := maxTokens l; interval := interval l; lastRefill := now |}
  else l.

Definition takeToken (l : Limiter) : Limiter :=
  {| tokens := (tokens l - 1)%Z; maxTokens := maxTokens l;
     interval := interval l; lastRefill := lastRefill l |}.

(** How a call of [waitForToken] leaves its synchronous part: resolved,
    or asleep until the given instant. *)
Inductive Pending := resolved | asleepUntil (wake : Q).

(** [waitForToken] up to its [await]. *)
Definition waitForToken_begin (now : Q) (l : Limiter) : Limiter * Pending :=
  let l := refillTokens now l in
  if (0 <? tokens l)%Z
  then (takeToken l, resolved)
  else
    let tokensNeeded := 1%Q in
    let timePerToken := (interval l / inject_Z (maxTokens l))%Q in
    let waitTime := (timePerToken * tokensNeeded)%Q in
    (l, asleepUntil (now + waitTime)).

(** [waitForToken] after its [await], run at the instant [now] at which
    the timer fires. *)
Definition waitForToken_end (now : Q) (l : Limiter) : Limiter :=
  takeToken (refillTokens now l).

(** [n] calls made at the same instant [now], none of them awaited
    before the next is made: every call runs to its [await] in turn. *)
Fixpoint beginAll (now : Q) (n : nat) (l : Limiter) : Limiter * list Pending :=
  match n with
  | O => (l, [])
  | S k =>
      let '(l1, p) := waitForToken_begin now l in
      let '(l2, ps) := beginAll now k l1 in
      (l2, p :: ps)
  end.

(** The sleepers then resume in the order in which they went to sleep,
    each when its timer fires: all timers were set at the same instant
    for the same delay.  The result is, call by call, the instant at
    which its promise resolves. *)
Fixpoint endAll (now : Q) (ps : list Pending) (l : Limiter) : Limiter * list Q :=
  match ps with
  | [] => (l, [])
  | resolved :: rest =>
      let '(l', ts) := endAll now rest l in (l', now :: ts)
  | asleepUntil wake :: rest =>
      let l1 := waitForToken_end wake l in
      let '(l', ts) := endAll now rest l1 in (l', wake :: ts)
  end.

Definition rapidCalls (now : Q) (n : nat) (l : Limiter) : Limiter * list Q :=
  let '(l1, ps) := beginAll now n l in
  endAll now ps l1.

(** The earliest instant the specification allows the N-th of N rapid
    calls to resolve at: ((N - C) / C) * I after the first call. *)
Definition specifiedEarliest (now : Q) (n : nat) (l : Limiter) : Q :=
  (now + ((inject_Z (Z.of_nat n) - inject_Z (maxTokens l)) / inject_Z (maxTokens l))
         * interval l)%Q.

End RateLimiter.

(** ** Multi-topic classification (relevance-analyzer.service.ts) *)

Module RelevanceAnalyzer.

#[local] Unset Elimination Schemes.

(** A value produced by [JSON.parse]; numbers are finite. *)
Inductive Json :=
| JNull
| JBool (b : bool)
| JNum (q : Q)
| JStr (s : string)
| JArr (items : list Json)
| JObj (fields : list (string * Json)).

#[local] Set Elimination Schemes.

(** A JavaScript number: [None] is NaN. *)
Definition Number := option Q.

Record Topic := {
  id : string;
  name : string;
  aiPrompt : string;
}.

Record ArticleForAnalysis := {
  a_id : string;
  title : string;
  lede : string;
  source : string;
  url : string;
}.

(** The objects the service returns.  A field copied from the answer of
    the model holds whatever value the answer had there ([None] is
    [undefined]). *)
Record TopicRelevanceResult := {
  topicId : option Json;
  topicName : option Json;
  relevanceScore : Number;
  reasoning : Json;
  potentialAngle : Json;
}.


Definition insufficientLede (t : Topic) : TopicRelevanceResult :=
  {| topicId := Some (JStr (id t)); topicName := Some (JStr (name t));
     relevanceScore := Some (1 # 10);
     reasoning := JStr "Article sans chapeau suffisant pour analyse";
     potentialAngle := JStr "" |}.


Definition analysisError (t : Topic) : TopicRelevanceResult :=
  {| topicId := Some (JStr (id t)); topicName := Some (JStr (name t));
     relevanceScore := Some 0%Q;
     reasoning := JStr "Erreur lors de l'analyse";
     potentialAngle := JStr "" |}.

Definition jsTruthy (v : option Json) : bool :=
  match v with
  | None | Some JNull | Some (JBool false) => false
  | Some (JNum q) => negb (Qeq_bool q 0)
  | Some (JStr s) => negb (String.eqb s "")
  | Some _ => true
  end.

(** [v || d] *)
Definition orDefault (v : option Json) (d : Json) : Json :=
  match v with
  | Some x => if jsTruthy v then x else d
  | None => d
  end.

Fixpoint lookupField (k : string) (fields : list (string * Json)) : option Json :=
  match fields with
  | [] => None
  | (k', v) :: rest =>
      (* a later duplicate of a key overrides an earlier one *)
      match lookupField k rest with
      | Some v' => Some v'
      | None => if String.eqb k' k then Some v else None
      end
  end.

(** [r.k]: [None] when reading the property throws (r is null),
    [Some None] when it is undefined. *)
Definition getProperty (r : Json) (k : string) : option (option Json) :=
  match r with
  | JNull => None
  | JObj fields => Some (lookupField k fields)
  | _ => Some None
  end.

Section Analyze.
(** ToNumber on the values that are neither numbers nor booleans
    (strings, arrays, objects). *)
Variable toNumberOther : Json -> Number.

Definition toNumber (v : Json) : Number :=
  match v with
  | JNum q => Some q
  | JBool true => Some 1%Q
  | JBool false | JNull => Some 0%Q
  | other => toNumberOther other
  end.

(** Math.max(0, Math.min(1, x)) *)
Definition clamp (x : Number) : Number :=
  match x with
  | None => None
  | Some q => Some (Qmax 0 (Qmin 1 q))
  end.







End Analyze.

End RelevanceAnalyzer.

(** ** Token bucket, the methods that do not wait (utils/rate-limiter.ts) *)

Module RateLimiterSync.
Import RateLimiter.

Definition tryConsume (now : Q) (l : Limiter) : bool * Limiter :=
  let l := refillTokens now l in
  if (0 <? tokens l)%Z
  then (true, takeToken l)
  else (false, l).

Definition getAvailableTokens (now : Q) (l : Limiter) : Z * Limiter :=
  let l := refillTokens now l in
  (tokens l, l).

Definition getWaitTime (now : Q) (l : Limiter) : Q * Limiter :=
  let l := refillTokens now l in
  if (0 <? tokens l)%Z
  then (0%Q, l)
  else
    let timePerToken := (interval l / inject_Z (maxTokens l))%Q in
    (timePerToken, l).

End RateLimiterSync.

(** ** Sliding window limiter (utils/rate-limiter.ts)

    One caller at a time: nothing else touches the limiter while a call
    sleeps.  [Date.now()] is constant between two [await]s. *)

Module SlidingWindowRateLimiter.

Record Window := {
  requests : list Z;
  maxRequests : Z;
  windowMs : Z;
}.

Definition new (maxRequests0 windowMs0 : Z) : Window :=
  {| requests := []; maxRequests := maxRequests0; windowMs := windowMs0 |}.

Definition cleanOldRequests (now : Z) (l : Window) : Window :=
  let cutoff := (now - windowMs l)%Z in
  {| requests := filter (fun t => (cutoff < t)%Z) (requests l);
     maxRequests := maxRequests l; windowMs := windowMs l |}.

Definition push (now : Z) (l : Window) : Window :=
  {| requests := requests l ++ [now];
     maxRequests := maxRequests l; windowMs := windowMs l |}.

Section Timers.

(** [wakeAfter now ms] is the instant at which [sleep(ms)], started at
    [now], resumes. *)
Variable wakeAfter : Z -> Z -> Z.

(** The [while] loop of [waitForSlot]; [None] when [fuel] iterations do
    not end it.  With no request on record, [requests[0]] is [undefined]
    and the wait time is NaN: the loop goes round without sleeping. *)
Fixpoint waitLoop (fuel : nat) (now : Z) (l : Window) : option (Z * Window) :=
  if (maxRequests l <=? Z.of_nat (length (requests l)))%Z
  then
    match fuel with
    | O => None
    | S k =>
        match requests l with
        | [] => waitLoop k now (cleanOldRequests now l)
        | oldestRequest :: _ =>
            let waitTime := (oldestRequest + windowMs l - now + 100)%Z in
            let now' := if (0 <? waitTime)%Z then wakeAfter now waitTime else now in
            waitLoop k now' (cleanOldRequests now' l)
        end
    end
  else Some (now, l).

(** The instant at which the call made at [now] resolves, and the
    limiter it leaves. *)
Definition waitForSlot (fuel : nat) (now : Z) (l : Window) : option (Z * Window) :=
  match waitLoop fuel now (cleanOldRequests now l) with
  | Some (t, l') => Some (t, push t l')
  | None => None
  end.

End Timers.

Definition getRequestCount (now : Z) (l : Window) : nat * Window :=
  let l := cleanOldRequests now l in
  (length (requests l), l).

End SlidingWindowRateLimiter.

(** ** Deduplicator, the single-URL methods (deduplicator.service.ts) *)

Module DeduplicatorSingle.
Import Store Deduplicator.

(** [redis.get(key)]; [None] when the command fails. *)
Definition get (redis : Redis) (key : string) : option (option string) :=
  if up redis then Some (entries redis !! key) else None.

(** [redis.del(key)]; [None] when the command fails. *)
Definition del (redis : Redis) (key : string) : option Redis :=
  if up redis
  then Some {| up := up redis; entries := delete key (entries redis) |}
  else None.

(** [Some true] for a hash cached as existing, [Some false] for one cached
    as new, [None] ([null]) otherwise and when the cache fails. *)
Definition checkCache (redis : Redis) (urlHash0 : string) : option bool :=
  match get redis (cacheKey urlHash0) with
  | Some value =>
      match value with
      | Some v =>
          if String.eqb v "exists" then Some true
          else if String.eqb v "new" then Some false
          else None
      | None => None
      end
  | None => None
  end.

(** SELECT url_hash FROM articles WHERE url_hash = $1 LIMIT 1; the store
    answers. *)
Definition checkDatabase (db : Database) (urlHash0 : string) : bool :=
  let rows := firstn 1 (filter (fun r => hashMatches urlHash0 r = true) (articles db)) in
  Nat.ltb 0 (length rows).

Section WithPlatform.
Context `{Platform}.

Definition isDuplicate (redis : Redis) (db : Database) (url0 : string) : bool * Redis :=
  let urlHash0 := hashUrl url0 in
  match checkCache redis urlHash0 with
  | Some cached => (cached, redis)
  | None =>
      let exist := checkDatabase db urlHash0 in
      let redis := cacheUrlHash redis urlHash0 exist in
      (exist, redis)
  end.

Definition markAsStored (redis : Redis) (url0 : string) : Redis :=
  cacheUrlHash redis (hashUrl url0) true.

(** [None] when deleting the key throws. *)
Definition clearCache (redis : Redis) (url0 : string) : option Redis :=
  del redis (cacheKey (hashUrl url0)).

End WithPlatform.

(** [redis.keys('url_hash:*')], counted; 0 when the command fails. *)
Definition getCacheStats (redis : Redis) : nat :=
  if up redis
  then length (filter (fun k => Js.startsWith k REDIS_KEY_PREFIX = true)
                      (map fst (map_to_list (entries redis))))
  else 0%nat.

End DeduplicatorSingle.

(** ** String utilities of the shared package (beside [hashUrl]) *)

Module TextUtils.

(** [s.slice(0, end)] for an integer [end]: a negative [end] counts from
    the end of [s]. *)
Definition sliceToZ (e : Z) (s : string) : string :=
  if (e <? 0)%Z
  then Js.sliceTo (Z.to_nat (Z.max (Z.of_nat (String.length s) + e) 0)) s
  else Js.sliceTo (Z.to_nat e) s.

Definition truncate (text : string) (maxLength : Z) : string :=
  if (Z.of_nat (String.length text) <=? maxLength)%Z then text
  else sliceToZ (maxLength - 3) text +:+ "...".

(** [s.replace(/<[^>]*>/g, '')]: at a [<], the match runs to the first
    [>] after it. *)
Fixpoint removeTagsFrom (skip : nat) (s : string) : string :=
  match s with
  | EmptyString => EmptyString
  | String c r =>
      match skip with
      | S k => removeTagsFrom k r
      | O =>
          if Ascii.eqb c "<"
          then match Js.indexOfGt r with
               | Some i => removeTagsFrom (S i) r
               | None => String c (removeTagsFrom 0 r)
               end
          else String c (removeTagsFrom 0 r)
      end
  end.

Definition removeTags (s : string) : string := removeTagsFrom 0 s.

(** [maxLength] defaults to 500. *)
Definition extractLede (html : string) (maxLength : option Z) : string :=
  let maxLength := match maxLength with Some m => m | None => 500%Z end in
  let text := removeTags html in
  let normalized := Js.trim (Js.collapseSpaces text) in
  truncate normalized maxLength.

(** [a-z0-9] *)
Definition isSlugChar (c : ascii) : bool :=
  let n := Js.codeUnit c in
  (Nat.leb 48 n && Nat.leb n 57) || (Nat.leb 97 n && Nat.leb n 122).

(** [normalize('NFD')] followed by the removal of the combining marks
    U+0300 to U+036F: among the code units below 256 the letters with a
    canonical decomposition are the accented Latin letters, each of which
    is left as its base letter. *)
Definition unaccentChar (c : ascii) : ascii :=
  let n := Js.codeUnit c in
  let within a b := Nat.leb a n && Nat.leb n b in
  if within 192 197 then "A"
  else if Nat.eqb n 199 then "C"
  else if within 200 203 then "E"
  else if within 204 207 then "I"
  else if Nat.eqb n 209 then "N"
  else if within 210 214 then "O"
  else if within 217 220 then "U"
  else if Nat.eqb n 221 then "Y"
  else if within 224 229 then "a"
  else if Nat.eqb n 231 then "c"
  else if within 232 235 then "e"
  else if within 236 239 then "i"
  else if Nat.eqb n 241 then "n"
  else if within 242 246 then "o"
  else if within 249 252 then "u"
  else if Nat.eqb n 253 || Nat.eqb n 255 then "y"
  else c.

Fixpoint unaccent (s : string) : string :=
  match s with
  | EmptyString => EmptyString
  | String c r => String (unaccentChar c) (unaccent r)
  end.

(** [s.replace(/[^a-z0-9]+/g, '-')] *)
Fixpoint dashRunsFrom (inRun : bool) (s : string) : string :=
  match s with
  | EmptyString => EmptyString
  | String c r =>
      if isSlugChar c
      then String c (dashRunsFrom false r)
      else if inRun then dashRunsFrom true r else String "-" (dashRunsFrom true r)
  end.

Definition dashRuns (s : string) : string := dashRunsFrom false s.

Definition isDash (c : ascii) : bool := Ascii.eqb c "-".

Fixpoint dropLeadingDashes (s : string) : string :=
  match s with
  | EmptyString => EmptyString
  | String c r => if isDash c then dropLeadingDashes r else s
  end.

Fixpoint dropTrailingDashes (s : string) : string :=
  match s with
  | EmptyString => EmptyString
  | String c r =>
      match dropTrailingDashes r with
      | EmptyString => if isDash c then EmptyString else String c EmptyString
      | r' => String c r'
      end
  end.

(** [s.replace(/^-+|-+$/g, '')] *)
Definition stripDashes (s : string) : string :=
  dropTrailingDashes (dropLeadingDashes s).

Definition slugify (text : string) : string :=
  stripDashes (dashRuns (unaccent (Js.toLowerCase text))).

Definition countCharacters (text : string) : nat := String.length text.

Definition isValidTwitterLength (text : string) : bool :=
  Nat.leb (countCharacters text) 280.

Definition isValidMastodonLength (text : string) : bool :=
  Nat.leb (countCharacters text) 500.

Definition isValidBlueskyLength (text : string) : bool :=
  Nat.leb (countCharacters text) 300.

(** [\wÀ-ÿ]: a word character or a code unit from 192 to 255. *)
Definition isTagChar (c : ascii) : bool :=
  Js.isWordChar c || Nat.leb 192 (Js.codeUnit c).

(** The longest prefix of [s] made of tag characters. *)
Fixpoint tagRun (s : string) : string :=
  match s with
  | EmptyString => EmptyString
  | String c r => if isTagChar c then String c (tagRun r) else EmptyString
  end.

(** [text.match(/#[\wÀ-ÿ]+/g)], an empty list standing for [null]. *)
Fixpoint hashtagsFrom (skip : nat) (s : string) : list string :=
  match s with
  | EmptyString => []
  | String c r =>
      match skip with
      | S k => hashtagsFrom k r
      | O =>
          if Ascii.eqb c "#" && Nat.ltb 0 (String.length (tagRun r))
          then String c (tagRun r) :: hashtagsFrom (String.length (tagRun r)) r
          else hashtagsFrom 0 r
      end
  end.

(** [[...new Set(matches)]]: the first occurrence of each element, in
    order. *)
Fixpoint uniqueFrom (seen : list string) (l : list string) : list string :=
  match l with
  | [] => []
  | x :: rest =>
      if existsb (String.eqb x) seen then uniqueFrom seen rest
      else x :: uniqueFrom (x :: seen) rest
  end.

Definition extractHashtags (text : string) : list string :=
  uniqueFrom [] (hashtagsFrom 0 text).

(** [text.replace(/#[\wÀ-ÿ]+/g, '')] *)
Fixpoint dropHashtagsFrom (skip : nat) (s : string) : string :=
  match s with
  | EmptyString => EmptyString
  | String c r =>
      match skip with
      | S k => dropHashtagsFrom k r
      | O =>
          if Ascii.eqb c "#" && Nat.ltb 0 (String.length (tagRun r))
          then dropHashtagsFrom (String.length (tagRun r)) r
          else String c (dropHashtagsFrom 0 r)
      end
  end.

Definition removeHashtags (text : string) : string :=
  Js.trim (Js.collapseSpaces (dropHashtagsFrom 0 text)).

End TextUtils.

(** ** Post generator, the normalisation of the model's answer
    (post-generator.service.ts) *)

Module PostGenerator.
Import RelevanceAnalyzer.

(** [x?.k] for a key [k] that is no built-in property: [undefined] when
    [x] is [undefined], [null] or no object. *)
Definition optionalProperty (x : option Json) (k : string) : option Json :=
  match x with
  | Some (JObj fields) => lookupField k fields
  | _ => None
  end.

Record PlatformPost := {
  content : Json;
  hashtags : list string;
}.

Record GeneratePostsResult := {
  twitter : PlatformPost;
  mastodon : PlatformPost;
  bluesky : Json;
  tone : Json;
  qualityScore : Number;
}.

Section Normalize.

(** ToNumber on strings, arrays and objects, and the string an array is
    turned into when it is concatenated with a string. *)
Variable toNumberOther : Json -> Number.
Variable arrayToString : list Json -> string.

(** [v > limit] for a value [v] of the answer. *)
Definition exceeds (v : Json) (limit : nat) : bool :=
  match toNumber toNumberOther v with
  | Some q => negb (Qle_bool q (inject_Z (Z.of_nat limit)))
  | None => false
  end.

(** [if (c.length > limit) c = c.slice(0, keep) + '...'] on whatever
    value [c] holds: strings and arrays have a length and a slice; an
    object has the length it was given, if any, and no slice to call;
    numbers and booleans have no length and fail the test.  [None] when
    the statement throws. *)
Definition fit (limit keep : nat) (c : Json) : option Json :=
  match c with
  | JStr s =>
      if Nat.ltb limit (String.length s)
      then Some (JStr (Js.sliceTo keep s +:+ "..."))
      else Some c
  | JArr items =>
      if Nat.ltb limit (length items)
      then Some (JStr (arrayToString (firstn keep items) +:+ "..."))
      else Some c
  | JObj fields =>
      match lookupField "length" fields with
      | Some len => if exceeds len limit then None else Some c
      | None => Some c
      end
  | JNull => None
  | JNum _ | JBool _ => Some c
  end.

Definition withHashSign (tag : string) : string :=
  if Js.startsWith tag "#" then tag else "#" +:+ tag.

(** [tags.map(...)]; [None] when the callback throws, as it does on a
    tag that is no string. *)
Fixpoint mapTags (tags : list Json) : option (list string) :=
  match tags with
  | [] => Some []
  | JStr tag :: rest =>
      match mapTags rest with
      | Some mapped => Some (withHashSign tag :: mapped)
      | None => None
      end
  | _ :: _ => None
  end.

Definition cleanHashtags (tags : option Json) : option (list string) :=
  match tags with
  | Some (JArr items) =>
      match mapTags items with
      | Some mapped =>
          Some (firstn 5
                  (List.filter (fun tag => Nat.ltb 1 (String.length tag)
                                           && Nat.leb (String.length tag) 30)
                               mapped))
      | None => None
      end
  | _ => Some []
  end.

(** [None] when the function throws. *)
Definition normalizePostResult (raw : Json) (articleUrl : string)
  : option GeneratePostsResult :=
  match getProperty raw "twitter", getProperty raw "mastodon",
        getProperty raw "bluesky", getProperty raw "tone",
        getProperty raw "quality_score" with
  | Some rawTwitter, Some rawMastodon, Some rawBluesky, Some rawTone, Some rawQuality =>
      let twitterContent := orDefault (optionalProperty rawTwitter "content") (JStr "") in
      let mastodonContent := orDefault (optionalProperty rawMastodon "content") (JStr "") in
      let blueskyContent := orDefault (optionalProperty rawBluesky "content") (JStr "") in
      match fit 280 277 twitterContent, fit 500 497 mastodonContent,
            fit 300 297 blueskyContent with
      | Some twitterContent, Some mastodonContent, Some blueskyContent =>
          match cleanHashtags (optionalProperty rawTwitter "hashtags") with
          | Some twitterTags =>
              match cleanHashtags (optionalProperty rawMastodon "hashtags") with
              | Some mastodonTags =>
                  Some {| twitter := {| content := twitterContent;
                                        hashtags := twitterTags |};
                          mastodon := {| content := mastodonContent;
                                         hashtags := mastodonTags |};
                          bluesky := blueskyContent;
                          tone := orDefault rawTone (JStr "ironic");
                          qualityScore :=
                            clamp (toNumber toNumberOther
                                     (orDefault rawQuality (JNum (1 # 2)))) |}
              | None => None
              end
          | None => None
          end
      | _, _, _ => None
      end
  | _, _, _, _, _ => None
  end.

End Normalize.

End PostGenerator.

(** ** Single-topic classification (relevance-analyzer.service.ts) *)

Module RelevanceAnalyzerSingle.
Import RelevanceAnalyzer.

Record RelevanceResult := {
  relevanceScore : Number;
  reasoning : Json;
  keywords : list Json;
  categories : list Json;
  potentialAngle : Json;
}.

(** The two counters of the service. *)
Record Counters := {
  analysisCount : nat;
  relevantCount : nat;
}.

(** [x >= y] on numbers; a comparison with NaN is false. *)
Definition atLeast (x : Number) (y : Q) : bool :=
  match x with
  | Some q => Qle_bool y q
  | None => false
  end.

(** [Array.isArray(v) ? v.slice(0, n) : []] *)
Definition arrayPrefix (n : nat) (v : option Json) : list Json :=
  match v with
  | Some (JArr items) => firstn n items
  | _ => []
  end.

Definition insufficientLede : RelevanceResult :=
  {| relevanceScore := Some (1 # 10);
     reasoning := JStr "Article sans chapeau suffisant pour analyse";
     keywords := []; categories := [];
     potentialAngle := JStr "" |}.

Definition analysisError : RelevanceResult :=
  {| relevanceScore := Some 0%Q;
     reasoning := JStr "Erreur lors de l'analyse";
     keywords := []; categories := [];
     potentialAngle := JStr "" |}.

Section Analyze.
Variable toNumberOther : Json -> Number.

(** [None] when reading a property of [raw] throws. *)
Definition normalizeResult (raw : Json) : option RelevanceResult :=
  match getProperty raw "relevance_score", getProperty raw "reasoning",
        getProperty raw "keywords", getProperty raw "categories",
        getProperty raw "potential_angle" with
  | Some score, Some why, Some kws, Some cats, Some angle =>
      Some {| relevanceScore :=
                clamp (toNumber toNumberOther (orDefault score (JNum 0)));
              reasoning := orDefault why (JStr "");
              keywords := arrayPrefix 10 kws;
              categories := arrayPrefix 5 cats;
              potentialAngle := orDefault angle (JStr "") |}
  | _, _, _, _, _ => None
  end.

(** [chat] is what awaiting [claudeService.chatJson] gives, [None] when
    it throws; it is consulted only when the lede is long enough. *)
Definition analyzeArticle (st : Counters) (article : ArticleForAnalysis)
    (chat : option Json) : Counters * RelevanceResult :=
  let st := {| analysisCount := S (analysisCount st);
               relevantCount := relevantCount st |} in
  if String.eqb (lede article) "" || Nat.ltb (String.length (lede article)) 50
  then (st, insufficientLede)
  else
    match chat with
    | Some result =>
        match normalizeResult result with
        | Some normalizedResult =>
            let st :=
              if atLeast (relevanceScore normalizedResult) (1 # 2)
              then {| analysisCount := analysisCount st;
                      relevantCount := S (relevantCount st) |}
              else st in
            (st, normalizedResult)
        | None => (st, analysisError)
        end
    | None => (st, analysisError)
    end.

(** [analyzeBatch] without a progress callback: [chats i] is the answer
    of the model for the article of index [i].  The result is the [Map]
    from article identifiers to verdicts. *)
Fixpoint analyzeBatchFrom (i : nat) (st : Counters) (articles : list ArticleForAnalysis)
    (chats : nat -> option Json) (results : gmap string RelevanceResult)
  : Counters * gmap string RelevanceResult :=
  match articles with
  | [] => (st, results)
  | article :: rest =>
      let '(st, result) := analyzeArticle st article (chats i) in
      analyzeBatchFrom (S i) st rest chats (<[a_id article := result]> results)
  end.

Definition analyzeBatch (st : Counters) (articles : list ArticleForAnalysis)
    (chats : nat -> option Json) : Counters * gmap string RelevanceResult :=
  analyzeBatchFrom 0 st articles chats ∅.

End Analyze.

End RelevanceAnalyzerSingle.

(** ** Classification worker, from the results to the decision
    (ai-analysis.worker.ts, article.repository.ts) *)

Module AiAnalysisWorker.
Import RelevanceAnalyzer.

Definition POST_GENERATION_THRESHOLD : Q := 6 # 10.

(** [x > y] on numbers; a comparison with NaN is false. *)
Definition greater (x y : Number) : bool :=
  match x, y with
  | Some a, Some b => negb (Qle_bool a b)
  | _, _ => false
  end.

(** The callback of the [reduce] that picks the best result. *)
Definition keepBest (best current : TopicRelevanceResult) : TopicRelevanceResult :=
  if greater (relevanceScore current) (relevanceScore best) then current else best.

(** [topicResults.reduce(keepBest, topicResults[0])]; [None] for no
    result at all, where [bestResult] is [undefined] and reading its score
    throws. *)
Definition bestResult (topicResults : list TopicRelevanceResult)
  : option TopicRelevanceResult :=
  match topicResults with
  | [] => None
  | first :: _ => Some (fold_left keepBest topicResults first)
  end.

Definition highRelevanceResults (topicResults : list TopicRelevanceResult)
  : list TopicRelevanceResult :=
  List.filter
    (fun r => RelevanceAnalyzerSingle.atLeast (relevanceScore r) POST_GENERATION_THRESHOLD)
    topicResults.

(** The status [ArticleRepository.updateAnalysis] gives an article. *)
Definition analysisStatus (score : Number) : Store.ArticleStatus :=
  if RelevanceAnalyzerSingle.atLeast score (1 # 2)
  then Store.relevant else Store.irrelevant.

(** What the worker does with the results of the multi-topic analysis,
    every statement of the store succeeding: the result it records on the
    article, the status the article gets, and whether a post generation
    job is added. *)
Record Decision := {
  best : TopicRelevanceResult;
  status : Store.ArticleStatus;
  queuedForPostGeneration : bool;
}.

Definition decide (topicResults : list TopicRelevanceResult) : option Decision :=
  match bestResult topicResults with
  | Some bestResult0 =>
      Some {| best := bestResult0;
              status := analysisStatus (relevanceScore bestResult0);
              queuedForPostGeneration :=
                Nat.ltb 0 (length (highRelevanceResults topicResults)) |}
  | None => None
  end.

End AiAnalysisWorker.

(** ** Feed fetcher (rss-fetcher.service.ts)

    The parser is given by the outcome of its k-th call, as the operation
    of [withRetry] is.  One caller is in flight at a time: a call that has
    to wait for a token resumes when its timer fires, before any other
    call touches the limiter; when a timer fires is for the platform to
    say.  The item field [categories], which the normaliser of items
    never reads, is left out of [RSSItem]. *)

Module RssFetcherService.

Record RSSFeed := {
  title : option string;
  description : option string;
  link : option string;
  items : list RssFetcher.RSSItem;
  lastBuildDate : option string;
}.

Record FetchResult := {
  success : bool;
  feed : option RSSFeed;
  itemCount : nat;
  error : option string;
  duration : Q;
}.

Record Service := {
  rateLimiters : gmap string RateLimiter.Limiter;
  fetchCount : nat;
  errorCount : nat;
}.

Definition normalizeItem (item : RssFetcher.RSSItem) : RssFetcher.RSSItem :=
  {| RssFetcher.guid := Js.orElse (RssFetcher.guid item) (RssFetcher.link item);
     RssFetcher.title := option_map Js.trim (RssFetcher.title item);
     RssFetcher.link := option_map Js.trim (RssFetcher.link item);
     RssFetcher.pubDate := Js.orElse (RssFetcher.pubDate item) (RssFetcher.isoDate item);
     RssFetcher.isoDate := RssFetcher.isoDate item;
     RssFetcher.creator := Js.orElse (RssFetcher.creator item) (RssFetcher.author item);
     RssFetcher.author := Js.orElse (RssFetcher.author item) (RssFetcher.creator item);
     RssFetcher.content :=
       Js.orElse (Js.orElse (RssFetcher.contentSnippet item) (RssFetcher.content item))
                 (RssFetcher.description item);
     RssFetcher.contentSnippet := RssFetcher.contentSnippet item;
     RssFetcher.summary :=
       Js.orElse (Js.orElse (RssFetcher.summary item) (RssFetcher.contentSnippet item))
                 (RssFetcher.description item);
     RssFetcher.description := RssFetcher.description item |}.

(** The limiter of a source, created full at the first use. *)
Definition getRateLimiter (now : Q) (sourceSlug : string) (st : Service)
  : Service * RateLimiter.Limiter :=
  match rateLimiters st !! sourceSlug with
  | Some l => (st, l)
  | None =>
      let l := RateLimiter.new 10 60000 now in
      ({| rateLimiters := <[sourceSlug := l]> (rateLimiters st);
          fetchCount := fetchCount st; errorCount := errorCount st |}, l)
  end.

Section Timers.

(** [firesAt due] is the instant at which the callback of a timer runs
    that [setTimeout] was asked to run at the instant [due]. *)
Variable firesAt : Q -> Q.

(** The limiter after the caller's [waitForToken] has resolved, and the
    instant at which it did. *)
Definition waitForToken (now : Q) (l : RateLimiter.Limiter) : RateLimiter.Limiter * Q :=
  match RateLimiter.waitForToken_begin now l with
  | (l1, RateLimiter.resolved) => (l1, now)
  | (l1, RateLimiter.asleepUntil due) =>
      (RateLimiter.waitForToken_end (firesAt due) l1, firesAt due)
  end.

Definition waitForRateLimit (now : Q) (sourceSlug : string) (st : Service) : Service * Q :=
  let '(st1, limiter) := getRateLimiter now sourceSlug st in
  let '(limiter1, resumed) := waitForToken now limiter in
  ({| rateLimiters := <[sourceSlug := limiter1]> (rateLimiters st1);
      fetchCount := fetchCount st1; errorCount := errorCount st1 |}, resumed).

Definition fetchOptions : Retry.RetryOptions :=
  {| Retry.maxAttempts := 3;
     Retry.initialDelayMs := 2000;
     Retry.maxDelayMs := 15000;
     Retry.backoffMultiplier := 2;
     Retry.retryableErrors :=
       Some ["ECONNRESET"; "ETIMEDOUT"; "ENOTFOUND"; "socket hang up"; "503"; "502"] |}.

(** What a call of [fetchFeed] did besides returning: the instant at
    which it began to fetch, and the run of the retry engine. *)
Record Trace := {
  fetchingFrom : Q;
  run : Retry.Run RSSFeed;
}.

(** [now] is the clock when the call is made, [finished] the clock when
    the retry engine has settled. *)
Definition fetchFeed (now finished : Q) (parseURL : nat -> Retry.Outcome RSSFeed)
    (sourceSlug : option string) (st : Service) : Service * FetchResult * Trace :=
  let startTime := now in
  let st := {| rateLimiters := rateLimiters st;
               fetchCount := S (fetchCount st); errorCount := errorCount st |} in
  let '(st, resumed) :=
    match sourceSlug with
    | Some slug => if Js.truthy sourceSlug then waitForRateLimit now slug st else (st, now)
    | None => (st, now)
    end in
  let r := Retry.withRetry parseURL fetchOptions in
  let tr := {| fetchingFrom := resumed; run := r |} in
  match Retry.settled r with
  | Retry.Resolved parsed =>
      (st,
       {| success := true;
          feed := Some {| title := title parsed;
                          description := description parsed;
                          link := link parsed;
                          lastBuildDate := lastBuildDate parsed;
                          items := map normalizeItem (items parsed) |};
          itemCount := length (items parsed);
          error := None;
          duration := finished - startTime |},
       tr)
  | Retry.Rejected e =>
      ({| rateLimiters := rateLimiters st;
          fetchCount := fetchCount st; errorCount := S (errorCount st) |},
       {| success := false;
          feed := None;
          itemCount := 0;
          error := Some (Retry.message e);
          duration := finished - startTime |},
       tr)
  end.

(** [testFeed]: the answer about a feed URL, fetched without a slug. *)
Record TestResult := {
  valid : bool;
  testTitle : option string;
  testItemCount : option nat;
  testError : option string;
}.

Definition testFeed (now finished : Q) (parseURL : nat -> Retry.Outcome RSSFeed)
    (st : Service) : Service * TestResult :=
  let '(st1, result, _) := fetchFeed now finished parseURL None st in
  match success result, feed result with
  | true, Some f =>
      (st1, {| valid := true; testTitle := title f;
               testItemCount := Some (itemCount result); testError := None |})
  | _, _ =>
      (st1, {| valid := false; testTitle := None;
               testItemCount := None; testError := error result |})
  end.

End Timers.

End RssFetcherService.

(** * Vocabulary of the properties *)

(** ** Topic matcher *)

(** A keyword matches a text when, letter case set aside, it occurs in
    it: the keyword in lower case is a piece of the text in lower case. *)
Definition matchesKeyword (text keyword : string) : Prop :=
  exists before after,
    Js.toLowerCase text = before +:+ Js.toLowerCase keyword +:+ after.

(** The lede of a candidate, empty when it has none. *)
Definition ledeText (a : Normalizer.NormalizedArticle) : string :=
  match Normalizer.lede a with
  | Some l => l
  | None => ""
  end.

(** The text a candidate is matched on: its title, a space, its lede. *)
Definition titleAndLede (a : Normalizer.NormalizedArticle) : string :=
  Normalizer.title a +:+ " " +:+ ledeText a.

(** The title and the lede put end to end, with nothing in between. *)
Definition titleThenLede (a : Normalizer.NormalizedArticle) : string :=
  Normalizer.title a +:+ ledeText a.

(** The job the fetch worker adds to the classification queue for a stored
    article. *)
Definition analysisJob (created : Store.ArticleRow) (sourceName : string)
    (a : Normalizer.NormalizedArticle) (matched : list string)
  : Queues.AiAnalysisJobData :=
  {| Queues.articleId := Store.row_id created;
     Queues.title := Normalizer.title a;
     Queues.lede := ledeText a;
     Queues.sourceName := sourceName;
     Queues.url := Normalizer.url a;
     Queues.topicIds := matched |}.

(** A value does not fit a column of [limit] characters: it has a
    character other than a space beyond them. *)
Definition overflows (limit : nat) (o : option string) : Prop :=
  exists s i c, o = Some s /\ String.get i s = Some c /\ (limit <= i)%nat /\ c <> " "%char.

(** The values of a candidate fit the columns of the articles table:
    external_id VARCHAR(500) and author VARCHAR(255). *)
Definition valuesFit (input : ArticleRepository.CreateArticleInput) : Prop :=
  ~ overflows 500 (ArticleRepository.externalId input)
  /\ ~ overflows 255 (ArticleRepository.author input).

(** The entry the insert loop of the fetch worker adds to the errors of
    the scan for an article. *)
Definition insertError (a : Normalizer.NormalizedArticle) (message : string) : string :=
  "Insert error for " +:+ Normalizer.url a +:+ ": " +:+ message.

(** ** Feed normaliser *)

(** The rules of [normalizeItem], each as the code tests it. *)
Definition hasLink (item : RssFetcher.RSSItem) : bool :=
  Js.truthy (RssFetcher.link item).

Definition titleTooShort (item : RssFetcher.RSSItem) : bool :=
  match RssFetcher.title item with
  | Some t => negb (Js.truthy (Some t)) || Nat.ltb (String.length (Js.trim t)) 5
  | None => true
  end.

Definition canonicalUrl `{Platform} (item : RssFetcher.RSSItem) : option string :=
  match RssFetcher.link item with
  | Some l =>
      match Normalizer.cleanUrl l with
      | Some u => if Js.truthy (Some u) then Some u else None
      | None => None
      end
  | None => None
  end.

Definition publishedOf `{Platform} (now : Z) (item : RssFetcher.RSSItem) : option Z :=
  Normalizer.parseDate now (Js.orElse (RssFetcher.pubDate item) (RssFetcher.isoDate item)).

Definition stale `{Platform} (now : Z) (item : RssFetcher.RSSItem) : bool :=
  match publishedOf now item with
  | Some d => Normalizer.isOlderThan now d 7
  | None => false
  end.

(** The candidates an item gives: one, or none when a rule rejects it. *)
Definition candidatesOf `{Platform} (now : Z) (sourceId sourceName : string)
    (item : RssFetcher.RSSItem) : list Normalizer.NormalizedArticle :=
  match Normalizer.normalizeItem now item sourceId sourceName with
  | Normalizer.Article a => [a]
  | Normalizer.Skipped _ => []
  end.

(** ** Deduplicator and store *)

(** What the cache says of a content hash. *)
Definition verdict (redis : Deduplicator.Redis) (h : string) : option Deduplicator.Cached :=
  if Deduplicator.up redis
  then Deduplicator.classify (Deduplicator.entries redis !! Deduplicator.cacheKey h)
  else None.

Definition cachedAs (redis : Deduplicator.Redis) (v : option Deduplicator.Cached)
    (a : Normalizer.NormalizedArticle) : Prop :=
  verdict redis (Normalizer.urlHash a) = v.

#[global] Instance cachedAs_dec redis v a : Decision (cachedAs redis v a).
Proof. unfold cachedAs. apply _. Defined.

(** Some row of the articles table carries the content hash [h]. *)
Definition stored (db : Store.Database) (h : string) : Prop :=
  existsb (Store.hashMatches h) (Store.articles db) = true.

#[global] Instance stored_dec db h : Decision (stored db h).
Proof. unfold stored. apply _. Defined.

(** The articles the store probe confirms as new: the cache has no verdict
    for them and no row carries their hash. *)
Definition storeNew (redis : Deduplicator.Redis) (db : Store.Database)
    (a : Normalizer.NormalizedArticle) : Prop :=
  cachedAs redis None a /\ ~ stored db (Normalizer.urlHash a).

#[global] Instance storeNew_dec redis db a : Decision (storeNew redis db a).
Proof. unfold storeNew, stored. apply _. Defined.

(** The articles the store probe finds to be duplicates. *)
Definition storeDuplicate (redis : Deduplicator.Redis) (db : Store.Database)
    (a : Normalizer.NormalizedArticle) : Prop :=
  cachedAs redis None a /\ stored db (Normalizer.urlHash a).

#[global] Instance storeDuplicate_dec redis db a : Decision (storeDuplicate redis db a).
Proof. unfold storeDuplicate, stored. apply _. Defined.

(** ** Retry engine *)

Definition retryable (opts : Retry.RetryOptions) (e : Retry.JsError) : bool :=
  Retry.isRetryableError e (Retry.retryableErrors opts).

(** A policy in whole milliseconds: its two delays and its multiplier are
    whole numbers, which with the products the loop can form lie between
    0 and 2^53, where the numbers of the platform are exact. *)
Definition exactInteger (x : Z) : Prop := (0 <= x <= 9007199254740992)%Z.

Definition wholeNumbers (opts : Retry.RetryOptions) : Prop :=
  exists a b m : Z,
    Retry.initialDelayMs opts = inject_Z a
    /\ Retry.maxDelayMs opts = inject_Z b
    /\ Retry.backoffMultiplier opts = inject_Z m
    /\ exactInteger a /\ exactInteger b /\ exactInteger m
    /\ exactInteger (a * m) /\ exactInteger (b * m).

(** Delays that back off: each delay after the first is the one before
    it times the multiplier, or the maximum delay if that is less. *)
Definition backsOff (opts : Retry.RetryOptions) (delays : list Q) : Prop :=
  forall i d d',
    nth_error delays i = Some d -> nth_error delays (S i) = Some d' ->
    d' = Qmin (d * Retry.backoffMultiplier opts) (Retry.maxDelayMs opts).

(** The k-th call fails with an error the policy retries. *)
Definition failsRetryably {T : Type} (opts : Retry.RetryOptions)
    (operation : nat -> Retry.Outcome T) (k : nat) : Prop :=
  exists e, operation k = Retry.Rejected e /\ retryable opts e = true.

(** The k-th call ends the run: it succeeds, or fails with an error the
    policy does not retry, or is the last call the policy allows. *)
Definition endsRun {T : Type} (opts : Retry.RetryOptions)
    (operation : nat -> Retry.Outcome T) (k : nat) : Prop :=
  match operation k with
  | Retry.Resolved _ => True
  | Retry.Rejected e => retryable opts e = false \/ k = Retry.maxAttempts opts
  end.

(** ** Circuit breaker *)




(** ** Cleanup *)

Definition DAY : Z := Orchestrator.MS_PER_DAY.

(** ** Multi-topic classification *)



(** ** Token bucket *)

(** The instant at which a call that found no token at [now] wakes up:
    one token period later. *)
Definition wakeUp (now : Q) (l : RateLimiter.Limiter) : Q :=
  (now + RateLimiter.interval l / inject_Z (RateLimiter.maxTokens l) * 1)%Q.

(** ** Token bucket, polled *)

(** [tryConsume] called at each of the instants [times] in turn: the
    answers, and the bucket left. *)
Fixpoint tryConsumeAt (times : list Q) (l : RateLimiter.Limiter)
  : list bool * RateLimiter.Limiter :=
  match times with
  | [] => ([], l)
  | now :: rest =>
      let '(ok, l1) := RateLimiterSync.tryConsume now l in
      let '(oks, l2) := tryConsumeAt rest l1 in
      (ok :: oks, l2)
  end.

(** Number of calls that got a token. *)
Definition granted (oks : list bool) : Z := Z.of_nat (count_occ bool_dec oks true).

(** The bucket holds between zero and [maxTokens] tokens. *)
Definition withinCapacity (l : RateLimiter.Limiter) : Prop :=
  (0 <= RateLimiter.tokens l <= RateLimiter.maxTokens l)%Z.

(** Tokens in hand, less the tokens that the time from [t0] up to the
    last refill was worth. *)
Definition credit (t0 : Q) (l : RateLimiter.Limiter) : Q :=
  (inject_Z (RateLimiter.tokens l)
   - (RateLimiter.lastRefill l - t0) / RateLimiter.interval l
     * inject_Z (RateLimiter.maxTokens l))%Q.

(** ** Sliding window *)

(** A timer never fires early. *)
Definition neverEarly (wakeAfter : Z -> Z -> Z) : Prop :=
  forall now ms, (0 < ms)%Z -> (now + ms <= wakeAfter now ms)%Z.

(** The requests on record that are still inside the window at [t]. *)
Definition insideWindow (t : Z) (l : SlidingWindowRateLimiter.Window) : list Z :=
  filter (fun r => (t - SlidingWindowRateLimiter.windowMs l < r)%Z)
         (SlidingWindowRateLimiter.requests l).

(** ** Deduplicator, batch after batch *)

(** The articles of a list that carry the content hash [h]. *)
Definition withHash (h : string) (arts : list Normalizer.NormalizedArticle)
  : list Normalizer.NormalizedArticle :=
  filter (fun a => Normalizer.urlHash a = h) arts.

(** ** Cleaned text *)

(** White space of [s] is tidy from a position on: every white-space
    character is a plain space and is followed by a character that is not
    white space.  [prev] tells that the character before was white space,
    or that there was none. *)
Fixpoint spacedFrom (prev : bool) (s : string) : bool :=
  match s with
  | EmptyString => negb prev
  | String c r =>
      if Js.isSpace c
      then Ascii.eqb c " " && negb prev && spacedFrom true r
      else spacedFrom false r
  end.

(** [s] neither starts nor ends with white space, and its only white
    space is single plain spaces between other characters. *)
Definition tidy (s : string) : bool :=
  match s with
  | EmptyString => true
  | _ => spacedFrom true s
  end.

(** As [spacedFrom], except that [s] may end with one plain space. *)
Fixpoint looseFrom (prev : bool) (s : string) : bool :=
  match s with
  | EmptyString => true
  | String c r =>
      if Js.isSpace c
      then Ascii.eqb c " " && negb prev && looseFrom true r
      else looseFrom false r
  end.

(** ** Skipped items *)

(** The counts of a [reasons] record, added up. *)
Definition totalCount (reasons : gmap string nat) : nat :=
  map_fold (fun _ n total => (n + total)%nat) 0%nat reasons.

(** ** Slugs and hashtags *)

(** From a position on, [s] is made of the characters a to z and 0 to 9
    and of single dashes, each followed by another character.  [prev]
    tells that the character before was a dash, or that there was none. *)
Fixpoint dashedFrom (prev : bool) (s : string) : bool :=
  match s with
  | EmptyString => negb prev
  | String c r =>
      if TextUtils.isSlugChar c then dashedFrom false r
      else TextUtils.isDash c && negb prev && dashedFrom true r
  end.

(** A slug: empty, or characters a to z and 0 to 9 in groups joined by
    single dashes. *)
Definition isSlug (s : string) : bool :=
  match s with
  | EmptyString => true
  | _ => dashedFrom true s
  end.

(** As [dashedFrom], except that [s] may end with one dash. *)
Fixpoint looseDashedFrom (prev : bool) (s : string) : bool :=
  match s with
  | EmptyString => true
  | String c r =>
      if TextUtils.isSlugChar c then looseDashedFrom false r
      else TextUtils.isDash c && negb prev && looseDashedFrom true r
  end.

(** A hashtag: a [#] followed by at least one tag character and nothing
    else. *)
Definition isHashtag (t : string) : bool :=
  match t with
  | String c r =>
      Ascii.eqb c "#" && Nat.ltb 0 (String.length r)
      && String.eqb (TextUtils.tagRun r) r
  | EmptyString => false
  end.

(** A tag character of the hashtag pattern: a letter, a digit, an
    underscore, or a code unit from 192 to 255. *)
Definition tagCharacter (c : ascii) : Prop :=
  let n := nat_of_ascii c in
  (48 <= n <= 57 \/ 65 <= n <= 90 \/ 97 <= n <= 122 \/ n = 95 \/ 192 <= n)%nat.

(** [t] is a hashtag of [text]: a [#] of the text and all the tag
    characters that follow it, of which there is one at least. *)
Definition hashtagOf (text t : string) : Prop :=
  exists before run after,
    text = before +:+ "#" +:+ run +:+ after
    /\ t = "#" +:+ run
    /\ run <> ""
    /\ (forall c, In c (list_ascii_of_string run) -> tagCharacter c)
    /\ match after with
       | EmptyString => True
       | String c _ => ~ tagCharacter c
       end.

(** The characters the scanner skips belong to the hashtag it has just
    read. *)
Fixpoint startsWithTags (k : nat) (s : string) : Prop :=
  match k with
  | O => True
  | S k' =>
      match s with
      | EmptyString => False
      | String c r => tagCharacter c /\ startsWithTags k' r
      end
  end.

(** No [#] of [s] is followed by a tag character.  [prevHash] tells that
    the character before was a [#]. *)
Fixpoint hashFree (prevHash : bool) (s : string) : bool :=
  match s with
  | EmptyString => true
  | String c r =>
      negb (prevHash && TextUtils.isTagChar c) && hashFree (Ascii.eqb c "#") r
  end.

(** [s] does not start with a tag character. *)
Definition headNotTag (s : string) : bool :=
  match s with
  | EmptyString => true
  | String c _ => negb (TextUtils.isTagChar c)
  end.

(** [s.slice(n)] *)
Fixpoint dropChars (n : nat) (s : string) : string :=
  match n, s with
  | S k, String _ r => dropChars k r
  | _, _ => s
  end.

(** ** Generated posts *)

(** The content the model's answer gives for a platform, [''] when it
    gives none. *)
Definition answeredContent (raw : RelevanceAnalyzer.Json) (platform : string)
  : RelevanceAnalyzer.Json :=
  match RelevanceAnalyzer.getProperty raw platform with
  | Some section =>
      RelevanceAnalyzer.orDefault (PostGenerator.optionalProperty section "content")
                                  (RelevanceAnalyzer.JStr "")
  | None => RelevanceAnalyzer.JStr ""
  end.

(** A cleaned hashtag: it starts with [#] and has from 2 to 30
    characters. *)
Definition cleanTag (tag : string) : Prop :=
  Js.startsWith tag "#" = true /\ (2 <= String.length tag <= 30)%nat.

(** [content] is a string cut to fit [limit]: [original] itself when it
    fits, else its first [limit - 3] characters and three dots. *)
Definition cutToFit (limit : nat) (original : string) (content : RelevanceAnalyzer.Json)
  : Prop :=
  exists s, content = RelevanceAnalyzer.JStr s
    /\ (String.length s <= limit)%nat
    /\ ((String.length original <= limit)%nat -> s = original)
    /\ ((limit < String.length original)%nat ->
        s = Js.sliceTo (limit - 3) original +:+ "...").

(** ** Classification worker *)

(** The score of a result is a number, not NaN. *)
Definition scored (r : RelevanceAnalyzer.TopicRelevanceResult) : Prop :=
  RelevanceAnalyzer.relevanceScore r <> None.


(** The score of [r] is a number strictly below that of [best]. *)
Definition scoresBelow (r best : RelevanceAnalyzer.TopicRelevanceResult) : Prop :=
  exists x y, RelevanceAnalyzer.relevanceScore r = Some x
              /\ RelevanceAnalyzer.relevanceScore best = Some y /\ (x < y)%Q.

(** The score of [r] is a number at most that of [best]. *)
Definition scoresAtMost (r best : RelevanceAnalyzer.TopicRelevanceResult) : Prop :=
  exists x y, RelevanceAnalyzer.relevanceScore r = Some x
              /\ RelevanceAnalyzer.relevanceScore best = Some y /\ (x <= y)%Q.

(** ** Incremental scan *)

#[global] Instance SourceType_eq_dec : EqDecision Store.SourceType.
Proof. solve_decision. Defined.

#[global] Instance SourceCategory_eq_dec : EqDecision Store.SourceCategory.
Proof. solve_decision. Defined.

(** The sources an incremental scan considers: active feeds never
    fetched, or last fetched more than their fetch interval (in minutes)
    before [now] (in milliseconds). *)
Definition dueNow (now : Z) (s : Store.SourceRow) : Prop :=
  Store.src_type s = Store.rss
  /\ Store.is_active s = true
  /\ forall t, Store.last_fetched_at s = Some t ->
               (t + Store.fetch_interval_minutes s * 60000 < now)%Z.

#[global] Instance dueNow_dec now s : Decision (dueNow now s).
Proof.
  unfold dueNow. destruct (Store.last_fetched_at s) as [t|].
  - destruct (decide (Store.src_type s = Store.rss)) as [Hr|Hr]; [|right; tauto].
    destruct (decide (Store.is_active s = true)) as [Ha|Ha]; [|right; tauto].
    destruct (decide (t + Store.fetch_interval_minutes s * 60000 < now)%Z) as [Hd|Hd].
    + left. repeat split; try assumption. now intros ? [= <-].
    + right. intros (_ & _ & H). apply Hd, H. reflexivity.
  - destruct (decide (Store.src_type s = Store.rss)) as [Hr|Hr]; [|right; tauto].
    destruct (decide (Store.is_active s = true)) as [Ha|Ha]; [|right; tauto].
    left. repeat split; try assumption. discriminate.
Defined.

(** [a] was last fetched no later than [b], a source never fetched
    counting as the earliest. *)
Definition waitedLonger (a b : Store.SourceRow) : Prop :=
  match Store.last_fetched_at a, Store.last_fetched_at b with
  | None, _ => True
  | Some _, None => False
  | Some x, Some y => (x <= y)%Z
  end.

(** The job of a scheduled scan of a source: named after its slug, of
    priority 1 for a national source and 2 for any other. *)
Definition scheduledJob (s : Store.SourceRow) : Orchestrator.QueuedScan :=
  {| Orchestrator.jobName := "scan-" +:+ Store.slug s;
     Orchestrator.data :=
       {| Orchestrator.sourceId := Store.src_id s;
          Orchestrator.feedUrl := Store.src_url s;
          Orchestrator.sourceName := Store.src_name s |};
     Orchestrator.priority :=
       Some (if decide (Store.category s = Store.national) then 1 else 2)%Z |}.

(** The selected sources whose job the queue takes, and the error
    entries of those it refuses, both in the order of selection. *)
Definition taken (addFails : Orchestrator.QueuedScan -> option string)
    (l : list Store.SourceRow) : list Store.SourceRow :=
  filter (fun s => addFails (scheduledJob s) = None) l.

Definition queueErrors (addFails : Orchestrator.QueuedScan -> option string)
    (l : list Store.SourceRow) : list string :=
  omap (fun s => match addFails (scheduledJob s) with
                 | Some message =>
                     Some ("Failed to queue " +:+ Store.src_name s +:+ ": " +:+ message)
                 | None => None
                 end) l.

(** ** Feed fetcher *)

(** A per-source bucket in good order at the instant [t]: ten tokens per
    minute, between none and ten in hand, last refilled no later than
    [t]. *)
Definition perSource (t : Q) (l : RateLimiter.Limiter) : Prop :=
  RateLimiter.maxTokens l = 10%Z
  /\ RateLimiter.interval l = 60000%Q
  /\ withinCapacity l
  /\ (RateLimiter.lastRefill l <= t)%Q.

Definition limitersInOrder (t : Q) (st : RssFetcherService.Service) : Prop :=
  forall slug l, RssFetcherService.rateLimiters st !! slug = Some l -> perSource t l.

(** [fetchFeed] once it has counted the fetch. *)
Definition counted (st : RssFetcherService.Service) : RssFetcherService.Service :=
  {| RssFetcherService.rateLimiters := RssFetcherService.rateLimiters st;
     RssFetcherService.fetchCount := S (RssFetcherService.fetchCount st);
     RssFetcherService.errorCount := RssFetcherService.errorCount st |}.

(** The state and the instant after the rate limiting step of
    [fetchFeed]. *)
Definition limited (firesAt : Q -> Q) (now : Q) (sourceSlug : option string)
    (st : RssFetcherService.Service) : RssFetcherService.Service * Q :=
  match sourceSlug with
  | Some slug =>
      if Js.truthy sourceSlug
      then RssFetcherService.waitForRateLimit firesAt now slug st else (st, now)
  | None => (st, now)
  end.

(** A timer never runs its callback before the instant it was set for. *)
Definition firesNoEarlier (firesAt : Q -> Q) : Prop :=
  forall due, (due <= firesAt due)%Q.

(** The caller resumes at [t] after one wait: [t] is the instant at which
    a timer fires that was set for 6000 ms after [now]. *)
Definition afterOneWait (firesAt : Q -> Q) (now t : Q) : Prop :=
  exists due, (due == now + 6000)%Q /\ t = firesAt due.

(** The bucket [waitForRateLimit] works on: that of the source, or a
    full one made for it. *)
Definition bucketOf (now : Q) (slug : string) (st : RssFetcherService.Service)
  : RateLimiter.Limiter :=
  match RssFetcherService.rateLimiters st !! slug with
  | Some l => l
  | None => RateLimiter.new 10 60000 now
  end.

(** The bucket of [slug] is drained at [now]: it holds no token and was
    last refilled less than 6000 ms before. *)
Definition drained (now : Q) (slug : string) (st : RssFetcherService.Service) : Prop :=
  exists l, RssFetcherService.rateLimiters st !! slug = Some l
            /\ RateLimiter.tokens l = 0%Z
            /\ (now - RateLimiter.lastRefill l < 6000)%Q.

(** * Sample data *)

(** A platform to run the definitions on: the digest is replaced by a
    tagged copy of the URL, every URL parses to itself, no date parses. *)
Definition samplePlatform : Platform :=
  {| hashUrl := fun u => "sha256:" +:+ u;
     urlHref := fun u => Some u;
     dateParse := fun _ => None |}.

Definition sampleArticle : Normalizer.NormalizedArticle :=
  {| Normalizer.sourceId := "src-1";
     Normalizer.externalId := Some "guid-1";
     Normalizer.url := "https://example.org/a";
     Normalizer.urlHash := "sha256:https://example.org/a";
     Normalizer.title := "New Tax form";
     Normalizer.lede := Some "The prefecture now asks for a third copy of the form.";
     Normalizer.fullText := None;
     Normalizer.author := None;
     Normalizer.publishedAt := None |}.

Definition topicA : Normalizer.TopicKeywords :=
  {| Normalizer.id := "A"; Normalizer.keywords := ["zebra"; "TAX FORM"] |}.

Definition topicB : Normalizer.TopicKeywords :=
  {| Normalizer.id := "B"; Normalizer.keywords := ["giraffe"] |}.

(** A topic whose keyword occurs in the lede of the sample article and
    not in its title. *)
Definition topicPrefecture : Normalizer.TopicKeywords :=
  {| Normalizer.id := "P"; Normalizer.keywords := ["PREFECTURE"] |}.

(** A topic whose keyword is the end of the title of the sample article
    followed at once by the start of its lede. *)
Definition topicStraddling : Normalizer.TopicKeywords :=
  {| Normalizer.id := "S"; Normalizer.keywords := ["formthe"] |}.

Definition emptyDatabase : Store.Database :=
  {| Store.sources := []; Store.articles := []; Store.scan_logs := [];
     Store.daily_summaries := []; Store.next_id := 1 |}.

Definition freshInsertState : RssScanWorker.InsertState :=
  {| RssScanWorker.db := emptyDatabase; RssScanWorker.aiQueue := [];
     RssScanWorker.insertedArticles := []; RssScanWorker.queued := 0;
     RssScanWorker.errors := [] |}.

Definition articleA : Normalizer.NormalizedArticle :=
  {| Normalizer.sourceId := "src-1"; Normalizer.externalId := None;
     Normalizer.url := "https://example.org/a"; Normalizer.urlHash := "hash-a";
     Normalizer.title := "First article"; Normalizer.lede := None;
     Normalizer.fullText := None; Normalizer.author := None;
     Normalizer.publishedAt := None |}.

Definition articleB : Normalizer.NormalizedArticle :=
  {| Normalizer.sourceId := "src-1"; Normalizer.externalId := None;
     Normalizer.url := "https://example.org/b"; Normalizer.urlHash := "hash-b";
     Normalizer.title := "Second article"; Normalizer.lede := None;
     Normalizer.fullText := None; Normalizer.author := None;
     Normalizer.publishedAt := None |}.

(** A cache that holds the transient mark for the second article only. *)
Definition cacheKnowsB : Deduplicator.Redis :=
  {| Deduplicator.up := true;
     Deduplicator.entries := {[ "url_hash:hash-b" := "new" ]} |}.

(** The store after the sample article has been inserted once. *)
Definition storedOnce : Store.Database :=
  Eval vm_compute in
    fst (@ArticleRepository.create samplePlatform ArticleRepository.accepts 0%Z
           emptyDatabase (RssScanWorker.toInput sampleArticle)).

(** The sample article again, its author 256 characters long. *)
Definition sampleArticleLongAuthor : Normalizer.NormalizedArticle :=
  {| Normalizer.sourceId := "src-1";
     Normalizer.externalId := Some "guid-1";
     Normalizer.url := "https://example.org/a";
     Normalizer.urlHash := "sha256:https://example.org/a";
     Normalizer.title := "New Tax form";
     Normalizer.lede := Some "The prefecture now asks for a third copy of the form.";
     Normalizer.fullText := None;
     Normalizer.author := Some (Js.repeatChar "a" 256);
     Normalizer.publishedAt := None |}.

(** The insert loop about to start on the store that holds the sample
    article. *)
Definition storedOnceState : RssScanWorker.InsertState :=
  {| RssScanWorker.db := storedOnce; RssScanWorker.aiQueue := [];
     RssScanWorker.insertedArticles := []; RssScanWorker.queued := 0;
     RssScanWorker.errors := [] |}.

(** A classification queue that takes every job, and one that is down. *)
Definition queueUp (job : Queues.AiAnalysisJobData) : option string := None.

Definition queueDown (job : Queues.AiAnalysisJobData) : option string :=
  Some "Connection is closed.".

(** A feed item whose author field is 256 characters long, one more than
    the author column of the articles table takes. *)
Definition longAuthorItem : RssFetcher.RSSItem :=
  {| RssFetcher.guid := Some "guid-7";
     RssFetcher.title := Some "Council approves the new budget";
     RssFetcher.link := Some "https://example.org/budget";
     RssFetcher.pubDate := None;
     RssFetcher.isoDate := None;
     RssFetcher.creator := None;
     RssFetcher.author := Some (Js.repeatChar "a" 256);
     RssFetcher.content := None;
     RssFetcher.contentSnippet :=
       Some "The council approved the new budget on Monday after a long debate.";
     RssFetcher.summary := None;
     RssFetcher.description := None |}.

Definition emptyWorld : RssScanWorker.World :=
  {| RssScanWorker.w_redis := {| Deduplicator.up := true; Deduplicator.entries := ∅ |};
     RssScanWorker.w_db := emptyDatabase;
     RssScanWorker.w_aiQueue := [] |}.

(** A scan of a feed made of the item above, at instant 0, with no active
    topic, against the column widths of the schema. *)
Definition scanLongAuthor (w : RssScanWorker.World)
  : option (RssScanWorker.World * RssScanWorker.RssScanResult) :=
  @RssScanWorker.processRssScan samplePlatform ArticleRepository.accepts queueUp
    0%Z (inr [longAuthorItem]) "src-1" "Le Journal" [] w.

(** A feed item whose title is two visible characters inside markup. *)
Definition markupTitleItem : RssFetcher.RSSItem :=
  {| RssFetcher.guid := None;
     RssFetcher.title := Some "<b>Hi</b>";
     RssFetcher.link := Some "https://example.org/a";
     RssFetcher.pubDate := None;
     RssFetcher.isoDate := None;
     RssFetcher.creator := None;
     RssFetcher.author := None;
     RssFetcher.content := None;
     RssFetcher.contentSnippet :=
       Some "The council approved the new budget on Monday after a long debate.";
     RssFetcher.summary := None;
     RssFetcher.description := None |}.

Definition timeoutError : Retry.JsError :=
  {| Retry.name := "Error"; Retry.message := "Request Timeout after 30000ms" |}.

(** An operation that times out every time it is called. *)
Definition timesOut (k : nat) : Retry.Outcome string := Retry.Rejected timeoutError.

(** A policy whose initial delay is longer than its maximum delay. *)
Definition hastyPolicy : Retry.RetryOptions :=
  {| Retry.maxAttempts := 3;
     Retry.initialDelayMs := 50000;
     Retry.maxDelayMs := 30000;
     Retry.backoffMultiplier := 2;
     Retry.retryableErrors := None |}.

(** An operation that times out twice and then answers. *)
Definition flaky (k : nat) : Retry.Outcome string :=
  if Nat.ltb k 3 then Retry.Rejected timeoutError else Retry.Resolved "feed".






(** An article still pending classification, created at instant 0. *)
Definition oldPendingArticle : Store.ArticleRow :=
  {| Store.row_id := 1; Store.source_id := Some "src-1"; Store.external_id := None;
     Store.row_url := "https://example.org/a"; Store.url_hash := "hash-a";
     Store.row_title := "First article"; Store.lede := None; Store.full_text := None;
     Store.row_author := None; Store.published_at := None;
     Store.status := Store.pending; Store.created_at := 0 |}.

Definition oldPendingDatabase : Store.Database :=
  {| Store.sources := []; Store.articles := [oldPendingArticle]; Store.scan_logs := [];
     Store.daily_summaries := []; Store.next_id := 2 |}.






(** ToNumber answering NaN on every string, array and object. *)
Definition nanOnOther (v : RelevanceAnalyzer.Json) : RelevanceAnalyzer.Number := None.

(** A limiter of capacity 1 per second, created at instant 0. *)
Definition onePerSecond : RateLimiter.Limiter := RateLimiter.new 1 1000 0.

(** The limiter the feed fetcher keeps per source: 10 requests a minute. *)
Definition perSourceLimiter : RateLimiter.Limiter := RateLimiter.new 10 60000 0.

(** A timer that fires exactly on time. *)
Definition exactTimer (now ms : Z) : Z := (now + ms)%Z.

(** Two requests per second, both slots taken at 0 and 400 ms. *)
Definition fullWindow : SlidingWindowRateLimiter.Window :=
  {| SlidingWindowRateLimiter.requests := [0; 400]%Z;
     SlidingWindowRateLimiter.maxRequests := 2;
     SlidingWindowRateLimiter.windowMs := 1000 |}.

(** A cache that is up and empty, and one that is down. *)
Definition emptyCache : Deduplicator.Redis :=
  {| Deduplicator.up := true; Deduplicator.entries := ∅ |}.

Definition cacheDown : Deduplicator.Redis :=
  {| Deduplicator.up := false; Deduplicator.entries := ∅ |}.

(** An answer of the model whose post for the first platform is 300
    characters long and whose hashtags come without the sign. *)
Definition longPostAnswer : RelevanceAnalyzer.Json :=
  RelevanceAnalyzer.JObj
    [("twitter", RelevanceAnalyzer.JObj
        [("content", RelevanceAnalyzer.JStr (Js.repeatChar "a" 300));
         ("hashtags", RelevanceAnalyzer.JArr
            [RelevanceAnalyzer.JStr "impots"; RelevanceAnalyzer.JStr "#cerfa";
             RelevanceAnalyzer.JStr ""])]);
     ("mastodon", RelevanceAnalyzer.JObj [("content", RelevanceAnalyzer.JStr "Short post.")]);
     ("bluesky", RelevanceAnalyzer.JNull);
     ("quality_score", RelevanceAnalyzer.JNum 0)].

(** The string an array of strings is turned into is not needed for the
    samples. *)
Definition noArrayToString (items : list RelevanceAnalyzer.Json) : string := "".

(** Results of a multi-topic analysis: two topics at 0.4 and 0.7, and
    the same two after a result whose score is NaN. *)
Definition resultAt (topic : string) (score : RelevanceAnalyzer.Number)
  : RelevanceAnalyzer.TopicRelevanceResult :=
  {| RelevanceAnalyzer.topicId := Some (RelevanceAnalyzer.JStr topic);
     RelevanceAnalyzer.topicName := Some (RelevanceAnalyzer.JStr topic);
     RelevanceAnalyzer.relevanceScore := score;
     RelevanceAnalyzer.reasoning := RelevanceAnalyzer.JStr "";
     RelevanceAnalyzer.potentialAngle := RelevanceAnalyzer.JStr "" |}.

Definition twoScores : list RelevanceAnalyzer.TopicRelevanceResult :=
  [resultAt "t1" (Some (4 # 10)); resultAt "t2" (Some (7 # 10))].


(** ** Feed fetcher *)

Definition oneItemFeed : RssFetcherService.RSSFeed :=
  {| RssFetcherService.title := Some "Le Journal";
     RssFetcherService.description := None;
     RssFetcherService.link := Some "https://example.org";
     RssFetcherService.items := [markupTitleItem];
     RssFetcherService.lastBuildDate := None |}.

(** A service whose bucket for one source has no token left at instant 0. *)
Definition drainedService : RssFetcherService.Service :=
  {| RssFetcherService.rateLimiters :=
       {[ "lemonde" := {| RateLimiter.tokens := 0; RateLimiter.maxTokens := 10;
                          RateLimiter.interval := 60000; RateLimiter.lastRefill := 0 |} ]};
     RssFetcherService.fetchCount := 10;
     RssFetcherService.errorCount := 0 |}.

(** A timer that fires four milliseconds late. *)
Definition lateTimer (due : Q) : Q := (due + 4)%Q.

(** A server that answers 503 once, then serves the feed. *)
Definition busyOnce (k : nat) : Retry.Outcome RssFetcherService.RSSFeed :=
  if Nat.eqb k 1
  then Retry.Rejected {| Retry.name := "Error"; Retry.message := "Status code 503" |}
  else Retry.Resolved oneItemFeed.

(** * Lemmas and theorems *)

(** ** Strings *)

Lemma lowerChar_idem (c : ascii) : Js.lowerChar (Js.lowerChar c) = Js.lowerChar c.
Proof.
  destruct c as [[] [] [] [] [] [] [] []]; reflexivity.
Qed.

Lemma toLowerCase_idem (s : string) : Js.toLowerCase (Js.toLowerCase s) = Js.toLowerCase s.
Proof.
  induction s as [|c r IH]; simpl; [reflexivity|].
  now rewrite lowerChar_idem, IH.
Qed.

Lemma prefix_app (k s : string) :
  String.prefix k s = true <-> exists post, s = k +:+ post.
Proof.
  revert s. induction k as [|c k IH]; intros s.
  - simpl. split; [intros _; exists s; reflexivity | intros _; destruct s; reflexivity].
  - destruct s as [|d s]; simpl.
    + split; [discriminate | intros [post Hp]; discriminate].
    + destruct (ascii_dec c d) as [->|Hne].
      * rewrite IH. split; intros [post Hp]; exists post.
        -- now rewrite Hp.
        -- now inversion Hp.
      * split; [discriminate|]. intros [post Hp]. inversion Hp. congruence.
Qed.

(** [includes] is the substring test. *)
Lemma includes_substring (s k : string) :
  Js.includes s k = true <-> exists pre post, s = pre +:+ k +:+ post.
Proof.
  induction s as [|c r IH].
  - unfold Js.includes. rewrite orb_false_r. rewrite prefix_app. split.
    + intros [post Hp]. exists EmptyString, post. exact Hp.
    + intros [pre [post Hp]]. destruct pre; simpl in Hp; [|discriminate].
      exists post. exact Hp.
  - change (Js.includes (String c r) k) with (String.prefix k (String c r) || Js.includes r k).
    rewrite orb_true_iff, IH, prefix_app. split.
    + intros [[post Hp] | [pre [post Hp]]].
      * exists EmptyString, post. exact Hp.
      * exists (String c pre), post. simpl. now rewrite Hp.
    + intros [pre [post Hp]]. destruct pre as [|d pre]; simpl in Hp.
      * left. now exists post.
      * right. inversion Hp. now exists pre, post.
Qed.

(** ** Topic matcher *)

(** [lede || ''] is the lede, or the empty string for none. *)
Lemma ledeOrEmpty_ledeText a : Normalizer.ledeOrEmpty a = ledeText a.
Proof.
  unfold Normalizer.ledeOrEmpty, ledeText, Js.orElse, Js.truthy.
  destruct (Normalizer.lede a) as [l|]; [|reflexivity].
  destruct (String.eqb l "") eqn:E; [|reflexivity].
  apply String.eqb_eq in E. now subst l.
Qed.

Lemma quickRelevanceCheck_spec a kws :
  Normalizer.quickRelevanceCheck a kws = true <->
  exists k, In k kws /\ matchesKeyword (titleAndLede a) k.
Proof.
  unfold Normalizer.quickRelevanceCheck, Normalizer.matchText, matchesKeyword, titleAndLede.
  rewrite ledeOrEmpty_ledeText, existsb_exists.
  setoid_rewrite toLowerCase_idem. setoid_rewrite includes_substring. reflexivity.
Qed.

Lemma checkAgainstTopics_In a topics tid :
  In tid (Normalizer.checkAgainstTopics a topics) <->
  exists topic, In topic topics /\ Normalizer.id topic = tid /\
                Normalizer.quickRelevanceCheck a (Normalizer.keywords topic) = true.
Proof.
  induction topics as [|t rest IH]; simpl.
  - split; [tauto | intros [? [[] _]]].
  - destruct (Normalizer.quickRelevanceCheck a (Normalizer.keywords t)) eqn:E; simpl; rewrite IH.
    + split.
      * intros [<- | [topic [Hin H]]]; [exists t; auto | exists topic; auto].
      * intros [topic [[<- | Hin] [Hid Hq]]]; [left; exact Hid | right; exists topic; auto].
    + split.
      * intros [topic [Hin H]]. exists topic; auto.
      * intros [topic [[<- | Hin] [Hid Hq]]]; [congruence | exists topic; auto].
Qed.

Lemma checkAgainstTopics_filter a topics :
  Normalizer.checkAgainstTopics a topics =
  map Normalizer.id
      (List.filter (fun t => Normalizer.quickRelevanceCheck a (Normalizer.keywords t)) topics).
Proof.
  induction topics as [|t rest IH]; simpl; [reflexivity|].
  destruct (Normalizer.quickRelevanceCheck a (Normalizer.keywords t)); simpl; now rewrite IH.
Qed.

(** C6, as stated, fails twice.  The sample article is newly stored and a
    topic matches it, yet no classification job is added when the queue
    refuses the job: the error is recorded instead.  And a keyword that
    straddles the end of the title and the start of the lede occurs in the
    two put end to end, yet matches no topic, because the text matched on
    has a space between them. *)
Lemma job_lost_when_queue_refuses :
  (exists created,
     snd (@ArticleRepository.create samplePlatform ArticleRepository.accepts 0%Z
            emptyDatabase (RssScanWorker.toInput sampleArticle))
       = ArticleRepository.Row created)
  /\ Normalizer.checkAgainstTopics sampleArticle [topicA] = ["A"]
  /\ RssScanWorker.aiQueue
       (@RssScanWorker.insertStep samplePlatform ArticleRepository.accepts queueDown
          0%Z [topicA] "Le Journal" freshInsertState sampleArticle) = []
  /\ RssScanWorker.errors
       (@RssScanWorker.insertStep samplePlatform ArticleRepository.accepts queueDown
          0%Z [topicA] "Le Journal" freshInsertState sampleArticle)
     = ["Insert error for https://example.org/a: Connection is closed."]
  /\ matchesKeyword (titleThenLede sampleArticle) "formthe"
  /\ Normalizer.checkAgainstTopics sampleArticle [topicStraddling] = [].
Proof.
  split; [eexists; vm_compute; reflexivity|].
  split; [vm_compute; reflexivity|].
  split; [vm_compute; reflexivity|].
  split; [vm_compute; reflexivity|].
  split; [|vm_compute; reflexivity].
  exists "new tax ", " prefecture now asks for a third copy of the form.".
  vm_compute. reflexivity.
Qed.

(** C6, amended.  [checkAgainstTopics] returns exactly the identifiers of
    the topics one of whose keywords occurs, letter case set aside, in the
    text made of the candidate's title, a space and its lede; as a set the
    result does not depend on the order of the topics; and for a newly
    stored article the fetch worker hands a classification job to the
    queue exactly when the result is not empty: the job is added and
    counted when the queue takes it; when the queue refuses it no job is
    added, the article stays stored and the error is recorded, unless its
    message contains "duplicate key". *)
Theorem checkAgainstTopics_matches_and_gates_analysis
    `{Platform} (a : Normalizer.NormalizedArticle) (topics : list Normalizer.TopicKeywords) :
  (forall tid,
      In tid (Normalizer.checkAgainstTopics a topics) <->
      exists topic, In topic topics /\ Normalizer.id topic = tid /\
        exists k, In k (Normalizer.keywords topic) /\ matchesKeyword (titleAndLede a) k)
  /\ (forall topics', Permutation topics topics' ->
        forall tid, In tid (Normalizer.checkAgainstTopics a topics) <->
                    In tid (Normalizer.checkAgainstTopics a topics'))
  /\ (forall rejects refuses now sourceName st db' created,
        ArticleRepository.create rejects now (RssScanWorker.db st) (RssScanWorker.toInput a)
          = (db', ArticleRepository.Row created) ->
        let st' := RssScanWorker.insertStep rejects refuses now topics sourceName st a in
        let matched := Normalizer.checkAgainstTopics a topics in
        let job := analysisJob created sourceName a matched in
        RssScanWorker.db st' = db'
        /\ (matched <> [] -> refuses job = None ->
             RssScanWorker.aiQueue st' = RssScanWorker.aiQueue st ++ [job]
             /\ RssScanWorker.queued st' = S (RssScanWorker.queued st)
             /\ RssScanWorker.errors st' = RssScanWorker.errors st)
        /\ (matched <> [] -> forall message, refuses job = Some message ->
             RssScanWorker.aiQueue st' = RssScanWorker.aiQueue st
             /\ RssScanWorker.queued st' = RssScanWorker.queued st
             /\ RssScanWorker.errors st' =
                  if Js.includes message "duplicate key"
                  then RssScanWorker.errors st
                  else RssScanWorker.errors st ++ [insertError a message])
        /\ (matched = [] ->
             RssScanWorker.aiQueue st' = RssScanWorker.aiQueue st
             /\ RssScanWorker.queued st' = RssScanWorker.queued st
             /\ RssScanWorker.errors st' = RssScanWorker.errors st)).
Proof.
  assert (Hin : forall ts tid,
      In tid (Normalizer.checkAgainstTopics a ts) <->
      exists topic, In topic ts /\ Normalizer.id topic = tid /\
        exists k, In k (Normalizer.keywords topic) /\ matchesKeyword (titleAndLede a) k).
  { intros ts tid. rewrite checkAgainstTopics_In.
    split; intros [topic [Ht [Hid Hq]]]; exists topic; repeat split; auto;
      now apply quickRelevanceCheck_spec. }
  split; [apply Hin|]. split.
  - intros topics' Hperm tid. rewrite !Hin.
    split; intros [topic [Ht Hrest]]; exists topic; split; auto.
    + eapply Permutation_in; eauto.
    + eapply Permutation_in; [apply Permutation_sym|]; eauto.
  - intros rejects refuses now sourceName st db' created Hcreate st' matched job.
    subst st'. unfold RssScanWorker.insertStep. rewrite Hcreate.
    rewrite ledeOrEmpty_ledeText. fold matched. cbv zeta.
    change {| Queues.articleId := Store.row_id created;
              Queues.title := Normalizer.title a;
              Queues.lede := ledeText a;
              Queues.sourceName := sourceName;
              Queues.url := Normalizer.url a;
              Queues.topicIds := matched |} with job.
    destruct matched as [|m ms] eqn:Em; cbn [length Nat.ltb Nat.leb].
    + repeat split; congruence.
    + destruct (refuses job) as [message|] eqn:Er;
        cbn [RssScanWorker.db RssScanWorker.aiQueue RssScanWorker.queued
             RssScanWorker.errors].
      * split; [reflexivity|]. split; [discriminate|]. split; [|discriminate].
        intros _ message' [= <-]. split; [reflexivity|]. split; [reflexivity|].
        unfold RssScanWorker.caught, insertError.
        destruct (Js.includes message "duplicate key"); reflexivity.
      * split; [reflexivity|]. split; [|split; discriminate].
        intros _ _. repeat split.
Qed.

(** On the sample article, which only the lede makes a match of the
    prefecture topic: the topic is found wherever it stands in the list,
    and storing the article queues one job. *)
Lemma checkAgainstTopics_matches_and_gates_analysis_witness :
  In "P" (Normalizer.checkAgainstTopics sampleArticle [topicB; topicPrefecture])
  /\ In "P" (Normalizer.checkAgainstTopics sampleArticle [topicPrefecture; topicB])
  /\ length (RssScanWorker.aiQueue
       (@RssScanWorker.insertStep samplePlatform ArticleRepository.accepts queueUp
          0%Z [topicB; topicPrefecture] "Le Journal" freshInsertState sampleArticle)) = 1.
Proof.
  pose proof (@checkAgainstTopics_matches_and_gates_analysis samplePlatform
                sampleArticle [topicB; topicPrefecture]) as [Hspec [Hperm Hgate]].
  assert (Hfound : In "P" (Normalizer.checkAgainstTopics sampleArticle
                             [topicB; topicPrefecture])).
  { apply Hspec. exists topicPrefecture. split; [right; now left|].
    split; [reflexivity|]. exists "PREFECTURE". split; [now left|].
    exists "new tax form the ", " now asks for a third copy of the form.".
    vm_compute. reflexivity. }
  split; [exact Hfound|]. split.
  - apply (Hperm [topicPrefecture; topicB]); [apply perm_swap | exact Hfound].
  - edestruct (Hgate ArticleRepository.accepts queueUp 0%Z "Le Journal" freshInsertState)
      as (_ & Hyes & _); [vm_compute; reflexivity|].
    destruct Hyes as [Hq _]; [vm_compute; discriminate | reflexivity |].
    rewrite Hq. reflexivity.
Defined.

(** ** Deduplicator *)

Section DeduplicatorFacts.
Import Normalizer Store Deduplicator.

Lemma fold_insert_lookup {V} (f : string -> V) (l : list string) (m : gmap string V) h :
  fold_left (fun results k => <[k := f k]> results) l m !! h =
  if decide (h ∈ l) then Some (f h) else m !! h.
Proof.
  revert m. induction l as [|k l IH]; intros m; simpl.
  - destruct (decide (h ∈ [])) as [Hin|]; [inversion Hin | reflexivity].
  - rewrite IH. destruct (decide (h ∈ l)) as [Hin|Hnin].
    + rewrite decide_True; [reflexivity | now right].
    + destruct (decide (k = h)) as [->|Hne].
      * rewrite lookup_insert_eq. rewrite decide_True; [reflexivity | now left].
      * rewrite lookup_insert_ne by exact Hne.
        rewrite decide_False; [reflexivity|].
        intros Hin. apply elem_of_cons in Hin. destruct Hin; congruence.
Qed.

Lemma batchCheckCache_lookup redis hashes h :
  h ∈ hashes -> batchCheckCache redis hashes !! h = Some (verdict redis h).
Proof.
  intros Hin. unfold batchCheckCache, verdict.
  destruct (up redis).
  - rewrite (fold_insert_lookup (fun k => classify (entries redis !! cacheKey k))).
    now rewrite decide_True.
  - rewrite (fold_insert_lookup (fun _ => None)). now rewrite decide_True.
Qed.

(** The first loop sorts the batch by the verdict of the cache. *)
Lemma cachePass_spec redis cr (arts : list NormalizedArticle) acc :
  (forall a, a ∈ arts -> cr !! urlHash a = Some (verdict redis (urlHash a))) ->
  let pass := fold_left (cacheStep cr) arts acc in
  p_new pass = p_new acc ++ filter (cachedAs redis (Some cached_new)) arts
  /\ needsDbCheck pass = needsDbCheck acc ++ filter (cachedAs redis None) arts
  /\ p_duplicates pass =
       (p_duplicates acc + length (filter (cachedAs redis (Some cached_exists)) arts))%nat
  /\ p_cacheHits pass =
       (p_cacheHits acc + length (filter (cachedAs redis (Some cached_exists)) arts)
        + length (filter (cachedAs redis (Some cached_new)) arts))%nat.
Proof.
  revert acc. induction arts as [|a arts IH]; intros acc Hcr; simpl.
  - rewrite !app_nil_r. repeat split; lia.
  - assert (Ha : cr !! urlHash a = Some (verdict redis (urlHash a)))
      by (apply Hcr; now left).
    assert (Hrest : forall b, b ∈ arts -> cr !! urlHash b = Some (verdict redis (urlHash b)))
      by (intros b Hb; apply Hcr; now right).
    specialize (IH (cacheStep cr acc a) Hrest). simpl in IH.
    destruct IH as (IH1 & IH2 & IH3 & IH4).
    rewrite IH1, IH2, IH3, IH4. clear IH1 IH2 IH3 IH4.
    unfold cacheStep. rewrite Ha.
    rewrite !filter_cons.
    destruct (verdict redis (urlHash a)) as [[]|] eqn:E; simpl;
      repeat match goal with
             | |- context [decide (cachedAs redis ?v a)] =>
                 let Hd := fresh "Hd" in
                 destruct (decide (cachedAs redis v a)) as [Hd|Hd];
                 unfold cachedAs in Hd; rewrite E in Hd; try congruence
             end;
      simpl; rewrite <- ?app_assoc; simpl; repeat split; lia.
Qed.

Lemma cacheUrlHash_up redis h e : up (cacheUrlHash redis h e) = up redis.
Proof. unfold cacheUrlHash. destruct (up redis) eqn:E; simpl; auto. Qed.

(** The second loop sorts the rest by the answer of the store. *)
Lemma dbPass_spec (dbr : gset string) (l : list NormalizedArticle) redis fresh dups :
  let '(_, fresh', dups') := fold_left (dbStep dbr) l (redis, fresh, dups) in
  fresh' = fresh ++ filter (fun a => urlHash a ∉ dbr) l
  /\ dups' = (dups + length (filter (fun a => urlHash a ∈ dbr) l))%nat.
Proof.
  revert redis fresh dups. induction l as [|a l IH]; intros redis fresh dups.
  - simpl. rewrite app_nil_r. split; [reflexivity | lia].
  - change (fold_left (dbStep dbr) (a :: l) (redis, fresh, dups))
      with (fold_left (dbStep dbr) l (dbStep dbr (redis, fresh, dups) a)).
    assert (Hs : dbStep dbr (redis, fresh, dups) a =
                 if decide (urlHash a ∈ dbr)
                 then (cacheUrlHash redis (urlHash a) true, fresh, S dups)
                 else (cacheUrlHash redis (urlHash a) false, fresh ++ [a], dups))
      by reflexivity.
    rewrite Hs. clear Hs. rewrite !filter_cons.
    destruct (decide (urlHash a ∈ dbr)) as [Hin|Hnin].
    + rewrite decide_False by (intros Hn; now apply Hn).
      specialize (IH (cacheUrlHash redis (urlHash a) true) fresh (S dups)).
      destruct (fold_left (dbStep dbr) l _) as [[r f] d].
      destruct IH as [-> ->]. simpl. split; [reflexivity | lia].
    + rewrite decide_True by exact Hnin.
      specialize (IH (cacheUrlHash redis (urlHash a) false) (fresh ++ [a]) dups).
      destruct (fold_left (dbStep dbr) l _) as [[r f] d].
      destruct IH as [-> ->]. rewrite <- app_assoc. simpl. split; [reflexivity | lia].
Qed.

Lemma batches_concat fuel (l : list string) :
  (length l <= fuel)%nat -> concat (batches fuel l) = l.
Proof.
  revert l. induction fuel as [|k IH]; intros l Hlen.
  - destruct l; [reflexivity | simpl in Hlen; lia].
  - destruct l as [|x l]; [reflexivity|].
    change (batches (S k) (x :: l))
      with (firstn batchSize (x :: l) :: batches k (skipn batchSize (x :: l))).
    rewrite concat_cons, IH.
    + apply firstn_skipn.
    + rewrite length_skipn. unfold batchSize. cbn [length] in *. lia.
Qed.

Lemma fold_union_elem (sel : list string -> list string) (bs : list (list string))
    (acc : gset string) h :
  h ∈ fold_left (fun existing batch => existing ∪ list_to_set (sel batch)) bs acc <->
  h ∈ acc \/ exists b, b ∈ bs /\ h ∈ sel b.
Proof.
  revert acc. induction bs as [|b bs IH]; intros acc; simpl.
  - split; [auto | intros [|[b [Hb _]]]; [auto | inversion Hb]].
  - rewrite IH, elem_of_union, elem_of_list_to_set. split.
    + intros [[Ha | Hb] | [b' [Hb' Hs]]]; [auto | right; exists b | right; exists b'];
        split; auto; [now left | now right].
    + intros [Ha | [b' [Hb' Hs]]]; [auto|].
      apply elem_of_cons in Hb'. destruct Hb' as [-> | Hb']; [auto|].
      right. exists b'. auto.
Qed.

Lemma stored_row db h :
  stored db h <-> exists r, r ∈ articles db /\ url_hash r = h.
Proof.
  unfold stored, hashMatches. rewrite existsb_exists.
  split; intros [r [Hr Hh]]; exists r.
  - split; [now apply list_elem_of_In | now apply String.eqb_eq].
  - split; [now apply list_elem_of_In | now apply String.eqb_eq].
Qed.

Lemma selectHashes_elem db batch h :
  h ∈ selectHashes db batch <-> stored db h /\ h ∈ batch.
Proof.
  rewrite stored_row.
  unfold selectHashes. rewrite list_elem_of_In, in_map_iff. split.
  - intros [r [Hh Hr]]. apply (proj2 (list_elem_of_In _ _)) in Hr.
    apply list_elem_of_filter in Hr.
    destruct Hr as [Hex Hr]. apply existsb_exists in Hex.
    destruct Hex as [b [Hb Heq]]. apply String.eqb_eq in Heq. subst h.
    split; [exists r; auto|]. rewrite Heq. now apply list_elem_of_In.
  - intros [[r [Hr Hh]] Hb]. exists r. split; [exact Hh|].
    apply list_elem_of_In, list_elem_of_filter. split; [|exact Hr].
    apply existsb_exists. exists h. split; [now apply list_elem_of_In|].
    apply String.eqb_eq. exact Hh.
Qed.

(** The store probe finds the hashes of the batch that some row carries. *)
Lemma batchCheckDatabase_elem db hashes h :
  h ∈ batchCheckDatabase db hashes <-> stored db h /\ h ∈ hashes.
Proof.
  unfold batchCheckDatabase. rewrite fold_union_elem.
  setoid_rewrite selectHashes_elem.
  pose proof (batches_concat (length hashes) hashes (Nat.le_refl _)) as Hc.
  split.
  - intros [Hempty | [b [Hb [Hs Hin]]]]; [now apply not_elem_of_empty in Hempty|].
    split; [exact Hs|]. rewrite <- Hc. apply list_elem_of_In, in_concat.
    exists b. split; now apply list_elem_of_In.
  - intros [Hs Hin]. right. rewrite <- Hc in Hin.
    apply list_elem_of_In, in_concat in Hin. destruct Hin as [b [Hb Hin]].
    exists b. repeat split; auto; now apply list_elem_of_In.
Qed.

End DeduplicatorFacts.

Section DeduplicatorClaims.
Import Normalizer Store Deduplicator.

Lemma filter_ext_elem {A} (P1 P2 : A -> Prop)
    `{!forall x, Decision (P1 x), !forall x, Decision (P2 x)} (l : list A) :
  (forall x, x ∈ l -> P1 x <-> P2 x) -> filter P1 l = filter P2 l.
Proof.
  induction l as [|a l IH]; intros Hiff; [reflexivity|].
  assert (Ha : P1 a <-> P2 a) by (apply Hiff; now left).
  assert (Hl : filter P1 l = filter P2 l)
    by (apply IH; intros x Hx; apply Hiff; now right).
  destruct (decide (P1 a)) as [H1|H1].
  - rewrite !filter_cons_True by tauto. now rewrite Hl.
  - rewrite !filter_cons_False by tauto. exact Hl.
Qed.

Lemma filter_complement_length {A} (P : A -> Prop) `{!forall x, Decision (P x)}
    (l : list A) :
  (length (filter P l) + length (filter (fun x => ~ P x) l) = length l)%nat.
Proof.
  induction l as [|a l IH]; [reflexivity|].
  rewrite !filter_cons. destruct (decide (P a)) as [H1|H1].
  - rewrite decide_False by tauto. simpl. lia.
  - rewrite decide_True by exact H1. simpl. lia.
Qed.

Lemma verdict_partition_length redis (arts : list NormalizedArticle) :
  (length (filter (cachedAs redis (Some cached_exists)) arts)
   + length (filter (cachedAs redis (Some cached_new)) arts)
   + length (filter (cachedAs redis None) arts) = length arts)%nat.
Proof.
  induction arts as [|a arts IH]; [reflexivity|].
  rewrite !filter_cons.
  destruct (verdict redis (urlHash a)) as [[]|] eqn:E;
    repeat match goal with
           | |- context [decide (cachedAs redis ?v a)] =>
               let Hd := fresh "Hd" in
               destruct (decide (cachedAs redis v a)) as [Hd|Hd];
               unfold cachedAs in Hd; rewrite E in Hd; try congruence
           end; simpl; lia.
Qed.

(** What [filterDuplicates] returns, in terms of its input. *)
Lemma filterDuplicates_spec redis db (arts : list NormalizedArticle) :
  let r := snd (filterDuplicates redis db arts) in
  newArticles r =
    filter (cachedAs redis (Some cached_new)) arts ++ filter (storeNew redis db) arts
  /\ duplicates r =
       (length (filter (cachedAs redis (Some cached_exists)) arts)
        + length (filter (storeDuplicate redis db) arts))%nat
  /\ cacheHits r =
       (length (filter (cachedAs redis (Some cached_exists)) arts)
        + length (filter (cachedAs redis (Some cached_new)) arts))%nat
  /\ dbChecks r = length (filter (cachedAs redis None) arts).
Proof.
  unfold filterDuplicates.
  pose proof (cachePass_spec redis (batchCheckCache redis (map urlHash arts)) arts
                {| p_new := []; p_duplicates := 0; p_cacheHits := 0; needsDbCheck := [] |})
    as Hpass.
  simpl in Hpass.
  destruct Hpass as (Hn & Hd & Hdup & Hhit).
  { intros a Ha. apply batchCheckCache_lookup.
    apply list_elem_of_In, in_map, list_elem_of_In, Ha. }
  set (pass := fold_left _ arts _) in *.
  set (needs := filter (cachedAs redis None) arts) in *.
  assert (Hnew : filter (fun a => urlHash a ∉ batchCheckDatabase db (map urlHash needs)) needs
                 = filter (storeNew redis db) arts).
  { unfold needs. rewrite list_filter_filter. apply filter_ext_elem.
    intros x Hx. unfold storeNew. rewrite batchCheckDatabase_elem. split.
    - intros [Hnin Hc]. split; [exact Hc|]. intros Hs. apply Hnin. split; [exact Hs|].
      apply list_elem_of_In, in_map, list_elem_of_In, list_elem_of_filter. auto.
    - intros [Hc Hns]. split; [|exact Hc]. intros [Hs _]. auto. }
  assert (Hold : filter (fun a => urlHash a ∈ batchCheckDatabase db (map urlHash needs)) needs
                 = filter (storeDuplicate redis db) arts).
  { unfold needs. rewrite list_filter_filter. apply filter_ext_elem.
    intros x Hx. unfold storeDuplicate. rewrite batchCheckDatabase_elem. split.
    - intros [[Hs _] Hc]. auto.
    - intros [Hc Hs]. split; [|exact Hc]. split; [exact Hs|].
      apply list_elem_of_In, in_map, list_elem_of_In, list_elem_of_filter. auto. }
  rewrite Hd. destruct (Nat.ltb 0 (length needs)) eqn:Hlen.
  - pose proof (dbPass_spec (batchCheckDatabase db (map urlHash needs)) needs
                  redis (p_new pass) (p_duplicates pass)) as Hdb.
    destruct (fold_left _ needs _) as [[redis' fresh] dups].
    destruct Hdb as [-> ->]. simpl.
    rewrite Hnew, Hold, Hn, Hdup, Hhit. repeat split; lia.
  - apply Nat.ltb_ge in Hlen.
    assert (Hnil : needs = []) by (destruct needs; [reflexivity | simpl in Hlen; lia]).
    rewrite Hnil in Hnew, Hold. rewrite !filter_nil in *.
    simpl. rewrite <- Hnew, <- Hold, Hn, Hdup, Hhit, Hnil, app_nil_r. simpl.
    repeat split; lia.
Qed.

End DeduplicatorClaims.

(** C10, as stated, fails on the order: with the second article of a batch
    marked new in the cache and the first one unknown to cache and store,
    the new articles come out second first, which is no subsequence of the
    batch. *)
Lemma filterDuplicates_output_not_in_input_order :
  Deduplicator.newArticles
    (snd (Deduplicator.filterDuplicates cacheKnowsB emptyDatabase [articleA; articleB]))
    = [articleB; articleA]
  /\ ~ [articleB; articleA] `sublist_of` [articleA; articleB].
Proof.
  split; [vm_compute; reflexivity|].
  intros Hs. inversion Hs as [| |x l1 l2 Hs1]; subst.
  inversion Hs1 as [|x l1 l2 Hs2|x l1 l2 Hs2]; subst.
  - inversion Hs2.
  - inversion Hs2.
Qed.

(** C10, amended. [filterDuplicates] classifies every article of the batch
    exactly once: the new articles and the duplicates add up to the batch,
    and so do the cache hits and the store checks; the new articles are the
    cache-confirmed new ones, in the order of the batch, followed by the
    store-confirmed new ones, in the order of the batch, each of the two
    runs being an order-preserving subsequence of the batch. *)
Theorem filterDuplicates_partitions_batch
    (redis : Deduplicator.Redis) (db : Store.Database)
    (arts : list Normalizer.NormalizedArticle) :
  let r := snd (Deduplicator.filterDuplicates redis db arts) in
  let fromCache := filter (cachedAs redis (Some Deduplicator.cached_new)) arts in
  let fromStore := filter (storeNew redis db) arts in
  (length (Deduplicator.newArticles r) + Deduplicator.duplicates r = length arts)%nat
  /\ (Deduplicator.cacheHits r + Deduplicator.dbChecks r = length arts)%nat
  /\ Deduplicator.newArticles r = fromCache ++ fromStore
  /\ fromCache `sublist_of` arts
  /\ fromStore `sublist_of` arts.
Proof.
  intros r fromCache fromStore.
  destruct (filterDuplicates_spec redis db arts) as (Hn & Hd & Hh & Hc).
  fold r in Hn, Hd, Hh, Hc.
  pose proof (verdict_partition_length redis arts) as Hp.
  assert (Hsplit : (length (filter (storeNew redis db) arts)
                    + length (filter (storeDuplicate redis db) arts)
                    = length (filter (cachedAs redis None) arts))%nat).
  { rewrite <- (filter_complement_length (fun a => ~ stored db (Normalizer.urlHash a))
                  (filter (cachedAs redis None) arts)).
    rewrite !list_filter_filter. f_equal; f_equal; apply list_filter_iff; intros x;
      unfold storeNew, storeDuplicate; [tauto|].
    split; [intros [? ?]; split; auto; tauto|].
    intros [Hnn ?]. split; auto. destruct (decide (stored db (Normalizer.urlHash x))); tauto. }
  repeat split.
  - rewrite Hn, Hd, length_app. lia.
  - rewrite Hh, Hc. lia.
  - exact Hn.
  - apply sublist_filter.
  - apply sublist_filter.
Qed.

(** ** Article repository and fetch worker *)

Section RepositoryFacts.
Import Store.
Context `{Platform}.
Variable rejects : Database -> ArticleRepository.CreateArticleInput -> option string.

Lemma stored_hashes db h : stored db h <-> h ∈ map url_hash (articles db).
Proof.
  rewrite stored_row, list_elem_of_In, in_map_iff.
  split; intros [r [H1 H2]]; exists r; split; auto; now apply list_elem_of_In.
Qed.

Lemma rowsWithHash_count (rows : list ArticleRow) h :
  NoDup (map url_hash rows) ->
  length (filter (fun r => hashMatches h r = true) rows) =
  if decide (h ∈ map url_hash rows) then 1%nat else 0%nat.
Proof.
  induction rows as [|r rows IH]; intros Hnd; [reflexivity|].
  simpl map in *. apply NoDup_cons in Hnd. destruct Hnd as [Hr Hnd].
  rewrite filter_cons.
  destruct (decide (hashMatches h r = true)) as [Hm|Hm];
    cbn [length]; rewrite (IH Hnd); unfold hashMatches in Hm.
  - apply String.eqb_eq in Hm. subst h.
    rewrite (decide_False (P := _ ∈ map url_hash rows)) by exact Hr.
    rewrite decide_True by (now left). reflexivity.
  - apply not_true_is_false, String.eqb_neq in Hm.
    destruct (decide (h ∈ map url_hash rows)) as [Hin|Hnin].
    + rewrite decide_True by (now right). reflexivity.
    + rewrite decide_False; [reflexivity|].
      intros Hin. apply elem_of_cons in Hin. destruct Hin; auto.
Qed.

(** Under the unique constraint a content hash has at most one row. *)
Lemma unique_at_most_one db h : unique_url_hash db -> (rowsWithHash h db <= 1)%nat.
Proof.
  intros Hu. unfold rowsWithHash. rewrite rowsWithHash_count by exact Hu.
  case_decide; lia.
Qed.

Lemma unique_stored_one db h : unique_url_hash db -> stored db h -> rowsWithHash h db = 1%nat.
Proof.
  intros Hu Hs. unfold rowsWithHash.
  rewrite rowsWithHash_count by exact Hu.
  rewrite decide_True; [reflexivity|]. now apply stored_hashes.
Qed.

(** [create] keeps the unique constraint. *)
Lemma create_keeps_unique now db input :
  unique_url_hash db -> unique_url_hash (fst (ArticleRepository.create rejects now db input)).
Proof.
  intros Hu. unfold ArticleRepository.create.
  destruct (ArticleRepository.columnWidths input); [exact Hu|].
  destruct (rejects db input); [exact Hu|].
  destruct (existsb _ (articles db)) eqn:E; [exact Hu|].
  unfold unique_url_hash. simpl. rewrite map_app. simpl.
  apply NoDup_app. repeat split.
  - exact Hu.
  - intros h Hin Hin'. apply list_elem_of_singleton in Hin'. subst h.
    apply stored_hashes in Hin. unfold stored in Hin. congruence.
  - apply NoDup_singleton.
Qed.

(** On a stored hash [create] leaves the store alone. *)
Lemma create_stored_noop now db input :
  stored db (hashUrl (ArticleRepository.url input)) ->
  fst (ArticleRepository.create rejects now db input) = db.
Proof.
  intros Hs. unfold ArticleRepository.create.
  destruct (ArticleRepository.columnWidths input); [reflexivity|].
  destruct (rejects db input); [reflexivity|].
  unfold stored in Hs. now rewrite Hs.
Qed.

Lemma create_threw_keeps_db now db input db' msg :
  ArticleRepository.create rejects now db input = (db', ArticleRepository.Threw msg) ->
  db' = db.
Proof.
  unfold ArticleRepository.create.
  destruct (ArticleRepository.columnWidths input); [congruence|].
  destruct (rejects db input); [congruence|].
  destruct (existsb _ (articles db)); congruence.
Qed.

Lemma create_norow_keeps_db now db input db' :
  ArticleRepository.create rejects now db input = (db', ArticleRepository.NoRow) ->
  db' = db.
Proof.
  unfold ArticleRepository.create.
  destruct (ArticleRepository.columnWidths input); [congruence|].
  destruct (rejects db input); [congruence|].
  destruct (existsb _ (articles db)); congruence.
Qed.

(** Two inserts of the same URL, one after the other, on a store that
    does not have its hash: the first stores a row, the second finds it
    and changes nothing. *)
Lemma first_insert_stores_second_is_noop now now' db first second :
  unique_url_hash db ->
  ~ stored db (hashUrl (ArticleRepository.url first)) ->
  ArticleRepository.url second = ArticleRepository.url first ->
  ArticleRepository.columnWidths first = None ->
  rejects db first = None ->
  let db1 := fst (ArticleRepository.create rejects now db first) in
  (exists r, snd (ArticleRepository.create rejects now db first) = ArticleRepository.Row r)
  /\ fst (ArticleRepository.create rejects now' db1 second) = db1
  /\ rowsWithHash (hashUrl (ArticleRepository.url first)) db1 = 1%nat.
Proof.
  intros Hu Hns Hurl Hw Hr db1.
  assert (Hs1 : stored db1 (hashUrl (ArticleRepository.url first))).
  { subst db1. unfold ArticleRepository.create. rewrite Hw, Hr.
    destruct (existsb _ (articles db)) eqn:E; [exact E|].
    unfold stored. simpl. rewrite existsb_app. simpl.
    unfold hashMatches at 2. simpl. rewrite String.eqb_refl. now rewrite orb_true_r. }
  split; [|split].
  - unfold ArticleRepository.create. rewrite Hw, Hr.
    destruct (existsb _ (articles db)) eqn:E; [contradiction|]. now eexists.
  - apply create_stored_noop. now rewrite Hurl.
  - apply unique_stored_one; [apply create_keeps_unique, Hu | exact Hs1].
Qed.

End RepositoryFacts.

Lemma onlySpaces_spec (t : string) :
  ArticleRepository.onlySpaces t = false <->
  exists j c, String.get j t = Some c /\ c <> " "%char.
Proof.
  induction t as [|d t IH]; cbn [ArticleRepository.onlySpaces].
  - split; [discriminate|]. intros (j & c & Hj & _). destruct j; discriminate.
  - rewrite andb_false_iff, IH. split.
    + intros [Hd|(j & c & Hj & Hc)].
      * exists 0%nat, d. split; [reflexivity|]. intros ->. discriminate.
      * exists (S j), c. auto.
    + intros (j & c & Hj & Hc). destruct j as [|j].
      * left. injection Hj as ->. apply Ascii.eqb_neq. exact Hc.
      * right. exists j, c. auto.
Qed.

Lemma get_some_lt (s : string) (i : nat) (c : ascii) :
  String.get i s = Some c -> (i < String.length s)%nat.
Proof.
  revert i. induction s as [|d s IH]; intros i; [destruct i; discriminate|].
  destruct i as [|i]; cbn [String.get String.length]; [lia|].
  intros Hi. apply IH in Hi. lia.
Qed.

Lemma excess_get (limit : nat) (s : string) :
  (exists j c, String.get j (ArticleRepository.excess limit s) = Some c /\ c <> " "%char)
  <-> exists i c, String.get i s = Some c /\ (limit <= i)%nat /\ c <> " "%char.
Proof.
  unfold ArticleRepository.excess. split.
  - intros (j & c & Hj & Hc).
    destruct (Nat.lt_ge_cases j (String.length s - limit)) as [Hlt|Hge].
    + rewrite substring_correct1 in Hj by exact Hlt.
      exists (j + limit)%nat, c. repeat split; auto. lia.
    + rewrite substring_correct2 in Hj by exact Hge. discriminate.
  - intros (i & c & Hi & Hl & Hc). pose proof (get_some_lt _ _ _ Hi) as Hlen.
    exists (i - limit)%nat, c. split; [|exact Hc].
    rewrite substring_correct1 by lia. replace (i - limit + limit)%nat with i by lia.
    exact Hi.
Qed.

Lemma tooLong_overflows (limit : nat) (o : option string) :
  ArticleRepository.tooLong limit o = true <-> overflows limit o.
Proof.
  unfold ArticleRepository.tooLong, ArticleRepository.orNull, Js.orElse, Js.truthy, overflows.
  destruct o as [s|].
  - destruct (String.eqb s "") eqn:E; cbn [negb].
    + apply String.eqb_eq in E. subst s. split; [discriminate|].
      intros (s' & i & c & Heq & Hi & _). injection Heq as <-. destruct i; discriminate.
    + rewrite negb_true_iff, onlySpaces_spec, excess_get. split.
      * intros (i & c & H). exists s, i, c. tauto.
      * intros (s' & i & c & Heq & H). injection Heq as <-. exists i, c. exact H.
  - split; [discriminate|]. intros (s & i & c & Hs & _). discriminate.
Qed.

Lemma columnWidths_valuesFit (input : ArticleRepository.CreateArticleInput) :
  ArticleRepository.columnWidths input = None <-> valuesFit input.
Proof.
  unfold ArticleRepository.columnWidths, valuesFit.
  rewrite <- !tooLong_overflows.
  destruct (ArticleRepository.tooLong 500 _), (ArticleRepository.tooLong 255 _);
    intuition congruence.
Qed.

(** What [create] answers on a stored hash: the error of the database
    when it refuses the values, no row otherwise. *)
Lemma create_stored_answer `{Platform}
    (rejects : Store.Database -> ArticleRepository.CreateArticleInput -> option string)
    (now : Z) (db : Store.Database) (input : ArticleRepository.CreateArticleInput) :
  stored db (hashUrl (ArticleRepository.url input)) ->
  ArticleRepository.create rejects now db input =
  (db, match ArticleRepository.columnWidths input with
       | Some message => ArticleRepository.Threw message
       | None =>
           match rejects db input with
           | Some message => ArticleRepository.Threw message
           | None => ArticleRepository.NoRow
           end
       end).
Proof.
  intros Hs. unfold ArticleRepository.create.
  destruct (ArticleRepository.columnWidths input); [reflexivity|].
  destruct (rejects db input); [reflexivity|].
  unfold stored in Hs. now rewrite Hs.
Qed.

(** C1, as stated, fails: the hash of the sample article is stored, yet a
    second insert of it that carries an author of 256 characters is an
    error, which the fetch worker adds to the errors of the scan. *)
Lemma create_on_stored_hash_can_throw :
  stored storedOnce
    (@hashUrl samplePlatform
       (ArticleRepository.url (RssScanWorker.toInput sampleArticleLongAuthor)))
  /\ @ArticleRepository.create samplePlatform ArticleRepository.accepts 5%Z storedOnce
       (RssScanWorker.toInput sampleArticleLongAuthor)
     = (storedOnce,
        ArticleRepository.Threw "value too long for type character varying(255)")
  /\ RssScanWorker.errors
       (@RssScanWorker.insertStep samplePlatform ArticleRepository.accepts queueUp 5%Z []
          "Le Journal" storedOnceState sampleArticleLongAuthor)
     = ["Insert error for https://example.org/a: value too long for type character varying(255)"].
Proof.
  split; [reflexivity|].
  split; vm_compute; reflexivity.
Qed.

(** C1, amended.  When the content hash of a candidate is already in the
    articles table, [ArticleRepository.create] leaves the store as it is:
    it still holds exactly one row for that hash and at most one for any
    hash, and the insert never returns a row.  It returns no row when the
    values fit their columns and the database has no other reason to
    refuse them; it throws when a value does not fit its column, and
    throws the database's error when the database refuses the values for
    another reason.  In the insert loop of the fetch worker the insert
    that returned no row changes nothing, and the insert that threw
    changes the error list only: the error is added to it unless its
    message contains "duplicate key". *)
Theorem create_on_stored_hash_is_noop
    `{Platform} (rejects : Store.Database -> ArticleRepository.CreateArticleInput -> option string)
    (now : Z) (db : Store.Database) (input : ArticleRepository.CreateArticleInput) :
  Store.unique_url_hash db ->
  stored db (hashUrl (ArticleRepository.url input)) ->
  let after := ArticleRepository.create rejects now db input in
  fst after = db
  /\ Store.rowsWithHash (hashUrl (ArticleRepository.url input)) (fst after) = 1%nat
  /\ (forall h, (Store.rowsWithHash h (fst after) <= 1)%nat)
  /\ (forall r, snd after <> ArticleRepository.Row r)
  /\ (valuesFit input -> rejects db input = None -> snd after = ArticleRepository.NoRow)
  /\ (~ valuesFit input -> exists message, snd after = ArticleRepository.Threw message)
  /\ (forall message, valuesFit input -> rejects db input = Some message ->
        snd after = ArticleRepository.Threw message)
  /\ (forall refuses topics sourceName st article,
        RssScanWorker.db st = db -> RssScanWorker.toInput article = input ->
        let st' := RssScanWorker.insertStep rejects refuses now topics sourceName st article in
        (snd after = ArticleRepository.NoRow -> st' = st)
        /\ (forall message, snd after = ArticleRepository.Threw message ->
              RssScanWorker.db st' = db
              /\ RssScanWorker.aiQueue st' = RssScanWorker.aiQueue st
              /\ RssScanWorker.insertedArticles st' = RssScanWorker.insertedArticles st
              /\ RssScanWorker.queued st' = RssScanWorker.queued st
              /\ RssScanWorker.errors st' =
                   if Js.includes message "duplicate key"
                   then RssScanWorker.errors st
                   else RssScanWorker.errors st ++ [insertError article message])).
Proof.
  intros Hu Hs after.
  pose proof (create_stored_answer rejects now db input Hs) as Hafter.
  fold after in Hafter.
  pose proof (columnWidths_valuesFit input) as Hfit.
  assert (Hfst : fst after = db) by now rewrite Hafter.
  split; [exact Hfst|]. rewrite Hfst.
  split; [now apply unique_stored_one|].
  split; [intros h; now apply unique_at_most_one|].
  split.
  { intros r. rewrite Hafter. cbn [snd].
    destruct (ArticleRepository.columnWidths input); [discriminate|].
    destruct (rejects db input); discriminate. }
  split.
  { intros Hv Hr. apply Hfit in Hv. now rewrite Hafter, Hv, Hr. }
  split.
  { intros Hv. rewrite Hafter. cbn [snd].
    destruct (ArticleRepository.columnWidths input) as [message|];
      [now exists message|]. exfalso. apply Hv, Hfit. reflexivity. }
  split.
  { intros message Hv Hr. apply Hfit in Hv. now rewrite Hafter, Hv, Hr. }
  intros refuses topics sourceName st article Hdb Hin st'.
  subst st'. unfold RssScanWorker.insertStep. rewrite Hdb, Hin. fold after.
  destruct after as [db' answer]. cbn [fst snd] in *. subst db'. split.
  - intros ->. rewrite <- Hdb. destruct st; reflexivity.
  - intros message ->.
    cbn [RssScanWorker.db RssScanWorker.aiQueue RssScanWorker.insertedArticles
         RssScanWorker.queued RssScanWorker.errors].
    repeat split. unfold RssScanWorker.caught, insertError.
    destruct (Js.includes message "duplicate key"); reflexivity.
Qed.

(** Inserting the sample article a second time returns no row and leaves
    one row for its hash. *)
Lemma create_on_stored_hash_is_noop_witness :
  snd (@ArticleRepository.create samplePlatform ArticleRepository.accepts 5%Z
         storedOnce (RssScanWorker.toInput sampleArticle)) = ArticleRepository.NoRow
  /\ Store.rowsWithHash "sha256:https://example.org/a" storedOnce = 1%nat.
Proof.
  destruct (@create_on_stored_hash_is_noop samplePlatform ArticleRepository.accepts
              5%Z storedOnce (RssScanWorker.toInput sampleArticle))
    as (Hfst & Hone & _ & _ & Hnorow & _).
  - unfold Store.unique_url_hash. simpl. apply NoDup_singleton.
  - reflexivity.
  - split; [|rewrite Hfst in Hone; exact Hone].
    apply Hnorow; [|reflexivity].
    apply columnWidths_valuesFit. reflexivity.
Defined.

Section MarkFacts.
Import Deduplicator.
Context `{Platform}.

Lemma fold_setex_lookup (urls : list string) (redis : Redis) (u : string) :
  u ∈ urls ->
  entries (fold_left (fun r v => setex r (cacheKey (hashUrl v)) "exists") urls redis)
    !! cacheKey (hashUrl u) = Some "exists".
Proof.
  revert redis. induction urls as [|v urls IH]; intros redis Hin; [inversion Hin|].
  cbn [fold_left]. destruct (decide (u ∈ urls)) as [Hu|Hu]; [now apply IH|].
  apply elem_of_cons in Hin. destruct Hin as [-> | Hin]; [|contradiction].
  clear IH. revert redis. induction urls as [|w urls IH]; intros redis.
  - cbn [fold_left setex entries]. apply lookup_insert_eq.
  - cbn [fold_left].
    assert (Hw : v ∉ urls) by (intros Hc; apply Hu; now right).
    assert (Hvw : v <> w) by (intros ->; apply Hu; now left).
    destruct (decide (cacheKey (hashUrl w) = cacheKey (hashUrl v))) as [Heq|Hne].
    + replace (setex (setex redis (cacheKey (hashUrl v)) "exists")
                     (cacheKey (hashUrl w)) "exists")
        with (setex redis (cacheKey (hashUrl v)) "exists").
      * apply IH. exact Hw.
      * unfold setex. cbn [up entries]. rewrite Heq. now rewrite insert_insert_eq.
    + replace (setex (setex redis (cacheKey (hashUrl v)) "exists")
                     (cacheKey (hashUrl w)) "exists")
        with (setex (setex redis (cacheKey (hashUrl w)) "exists")
                    (cacheKey (hashUrl v)) "exists").
      * apply IH. exact Hw.
      * unfold setex. cbn [up entries]. f_equal.
        apply insert_insert_ne. congruence.
Qed.

(** [markBatchAsStored] gives the terminal mark to every URL it is handed:
    the worker hands it the URL of every new article, inserted or not. *)
Lemma markBatchAsStored_marks_all (urls : list string) (redis redis' : Redis) (u : string) :
  markBatchAsStored redis urls = Some redis' ->
  u ∈ urls ->
  entries redis' !! cacheKey (hashUrl u) = Some "exists".
Proof.
  unfold markBatchAsStored. intros Hm Hin.
  destruct (Nat.eqb (length urls) 0) eqn:E.
  { apply Nat.eqb_eq in E. destruct urls; [inversion Hin | discriminate]. }
  destruct (up redis); [|discriminate].
  injection Hm as <-. now apply fold_setex_lookup.
Qed.

End MarkFacts.

(** C2, on the code.  A scan of a feed with one new item whose insert the
    database refuses: the row is not stored and the error is recorded, yet
    the cache ends with the terminal mark "exists" for its hash; the next
    scan of the same feed then counts the item as a duplicate and never
    stores it. *)
Theorem terminal_mark_written_without_insert :
  exists w1 r1 w2 r2,
    scanLongAuthor emptyWorld = Some (w1, r1)
    /\ Store.articles (RssScanWorker.w_db w1) = []
    /\ RssScanWorker.r_errors r1 =
         ["Insert error for https://example.org/budget: value too long for type character varying(255)"]
    /\ Deduplicator.entries (RssScanWorker.w_redis w1)
         !! Deduplicator.cacheKey (@hashUrl samplePlatform "https://example.org/budget")
       = Some "exists"
    /\ scanLongAuthor w1 = Some (w2, r2)
    /\ RssScanWorker.r_newArticles r2 = 0%nat
    /\ RssScanWorker.r_duplicates r2 = 1%nat
    /\ Store.articles (RssScanWorker.w_db w2) = [].
Proof.
  destruct (scanLongAuthor emptyWorld) as [[w1 r1]|] eqn:E1.
  2: { vm_compute in E1. discriminate. }
  destruct (scanLongAuthor w1) as [[w2 r2]|] eqn:E2.
  2: { vm_compute in E1. injection E1 as <- <-. vm_compute in E2. discriminate. }
  exists w1, r1, w2, r2.
  vm_compute in E1. injection E1 as <- <-.
  vm_compute in E2. injection E2 as <- <-.
  repeat split; vm_compute; reflexivity.
Qed.

(** ** Feed normaliser *)

Lemma substring_length n s :
  String.length (String.substring 0 n s) = Nat.min n (String.length s).
Proof.
  revert s. induction n as [|n IH]; intros s; destruct s as [|c s]; simpl; auto.
Qed.

(** A lede has between 30 and 500 characters. *)
Lemma firstLede_length cs l :
  Normalizer.firstLede cs = Some l -> (30 <= String.length l <= 500)%nat.
Proof.
  induction cs as [|c cs IH]; cbn [Normalizer.firstLede]; [discriminate|].
  destruct c as [s|]; [|exact IH].
  destruct (Nat.ltb 0 (String.length (Js.trim s))); [|exact IH].
  destruct (Nat.leb 30 (String.length (Normalizer.stripHtml s))) eqn:E; [|exact IH].
  intros [= <-]. unfold Js.sliceTo. rewrite substring_length.
  apply Nat.leb_le in E. lia.
Qed.

(** The rules are tried in the order link, title, URL, lede, date, and the
    first that fails gives the reason. *)
Lemma normalizeItem_first_failing_rule `{Platform} now item sourceId sourceName :
  match Normalizer.normalizeItem now item sourceId sourceName with
  | Normalizer.Skipped Normalizer.missing_link => hasLink item = false
  | Normalizer.Skipped Normalizer.missing_or_short_title =>
      hasLink item = true /\ titleTooShort item = true
  | Normalizer.Skipped Normalizer.invalid_url =>
      hasLink item = true /\ titleTooShort item = false /\ canonicalUrl item = None
  | Normalizer.Skipped Normalizer.insufficient_content =>
      hasLink item = true /\ titleTooShort item = false /\ canonicalUrl item <> None
      /\ Normalizer.extractLede item = None
  | Normalizer.Skipped Normalizer.too_old =>
      hasLink item = true /\ titleTooShort item = false /\ canonicalUrl item <> None
      /\ Normalizer.extractLede item <> None /\ stale now item = true
  | Normalizer.Article a =>
      hasLink item = true /\ titleTooShort item = false
      /\ canonicalUrl item = Some (Normalizer.url a)
      /\ Normalizer.extractLede item <> None /\ stale now item = false
      /\ Normalizer.urlHash a = hashUrl (Normalizer.url a)
      /\ Normalizer.publishedAt a = publishedOf now item
  end.
Proof.
  unfold Normalizer.normalizeItem, hasLink, titleTooShort, canonicalUrl, stale, publishedOf.
  destruct (Js.truthy (RssFetcher.link item)) eqn:El; cbn [negb]; [|reflexivity].
  destruct (RssFetcher.link item) as [l|]; [|discriminate].
  destruct (RssFetcher.title item) as [t|]; [|auto].
  destruct (negb (Js.truthy (Some t)) || Nat.ltb (String.length (Js.trim t)) 5) eqn:Et;
    [auto|].
  destruct (Normalizer.cleanUrl l) as [u|]; [|auto].
  destruct (Js.truthy (Some u)) eqn:Eu; cbn [negb]; [|auto].
  destruct (Normalizer.extractLede item) as [lede|] eqn:Elede;
    [|repeat split; auto; discriminate].
  pose proof (firstLede_length _ _ Elede) as Hlen.
  assert (Hl : (negb (Js.truthy (Some lede)) || Nat.ltb (String.length lede) 30) = false).
  { apply orb_false_iff. split.
    - apply negb_false_iff. unfold Js.truthy. apply negb_true_iff, String.eqb_neq.
      intros ->. simpl in Hlen. lia.
    - apply Nat.ltb_ge. lia. }
  rewrite Hl.
  destruct (Normalizer.parseDate now _) as [d|] eqn:Ed.
  - destruct (Normalizer.isOlderThan now d 7); repeat split; auto; discriminate.
  - repeat split; auto; discriminate.
Qed.

Lemma normalizeLoop_articles `{Platform} now items sourceId sourceName acc :
  let r := Normalizer.normalizeLoop now items sourceId sourceName acc in
  Normalizer.articles r
    = Normalizer.articles acc ++ flat_map (candidatesOf now sourceId sourceName) items
  /\ (length (Normalizer.articles r) + Normalizer.skipped r
      = length (Normalizer.articles acc) + Normalizer.skipped acc + length items)%nat.
Proof.
  revert acc. induction items as [|item items IH]; intros acc; cbn [Normalizer.normalizeLoop].
  - cbn [flat_map]. rewrite app_nil_r. cbn [length]. split; [reflexivity | lia].
  - cbv zeta. unfold candidatesOf at 1. cbn [flat_map].
    destruct (Normalizer.normalizeItem now item sourceId sourceName) as [a|reason].
    + destruct (IH {| Normalizer.articles := Normalizer.articles acc ++ [a];
                      Normalizer.skipped := Normalizer.skipped acc;
                      Normalizer.reasons := Normalizer.reasons acc |}) as [Ha Hn].
      cbn [Normalizer.articles Normalizer.skipped] in Ha, Hn.
      split.
      * rewrite Ha, <- app_assoc. reflexivity.
      * rewrite Hn, length_app. cbn [length]. lia.
    + destruct (IH {| Normalizer.articles := Normalizer.articles acc;
                      Normalizer.skipped := S (Normalizer.skipped acc);
                      Normalizer.reasons :=
                        Normalizer.countReason reason (Normalizer.reasons acc) |})
        as [Ha Hn].
      cbn [Normalizer.articles Normalizer.skipped] in Ha, Hn.
      split.
      * rewrite Ha. reflexivity.
      * rewrite Hn. cbn [length]. lia.
Qed.

(** Only the items that pass every rule go on to the deduplicator: the
    articles of [normalizeItems] are the candidates of the items, in
    order, and every other item is counted as skipped. *)
Lemma normalizeItems_keeps_accepted_items `{Platform} now items sourceId sourceName :
  let r := Normalizer.normalizeItems now items sourceId sourceName in
  Normalizer.articles r = flat_map (candidatesOf now sourceId sourceName) items
  /\ (length (Normalizer.articles r) + Normalizer.skipped r = length items)%nat.
Proof.
  destruct (normalizeLoop_articles now items sourceId sourceName
              {| Normalizer.articles := []; Normalizer.skipped := 0;
                 Normalizer.reasons := ∅ |}) as [Ha Hn].
  split; [exact Ha | exact Hn].
Qed.

(** C3, on the code.  The title rule measures the trimmed title as it
    comes, markup included, while the stored title is the stripped one: an
    item whose title is "Hi" inside a pair of tags passes every rule and
    becomes a candidate with a title of two characters. *)
Theorem short_title_inside_markup_is_accepted
    `{Platform} (now : Z) (href : string) :
  urlHref "https://example.org/a" = Some href ->
  href <> "" ->
  String.length (Normalizer.stripHtml "<b>Hi</b>") = 2%nat
  /\ exists a,
       Normalizer.normalizeItem now markupTitleItem "src-1" "Le Journal" = Normalizer.Article a
       /\ Normalizer.title a = "Hi"
       /\ Normalizer.url a = href.
Proof.
  intros Hhref Hne. split; [reflexivity|].
  unfold Normalizer.normalizeItem, Normalizer.cleanUrl.
  cbn [RssFetcher.link RssFetcher.title markupTitleItem].
  change (Js.truthy (Some "https://example.org/a")) with true.
  change (Js.trim "https://example.org/a") with "https://example.org/a".
  change (Js.startsWith "https://example.org/a" "http://") with false.
  change (Js.startsWith "https://example.org/a" "https://") with true.
  cbn [negb andb orb].
  change (Nat.ltb (String.length (Js.trim "<b>Hi</b>")) 5) with false.
  change (Js.truthy (Some "<b>Hi</b>")) with true.
  cbn [negb andb orb]. rewrite Hhref.
  assert (Ht : Js.truthy (Some href) = true).
  { unfold Js.truthy. apply negb_true_iff, String.eqb_neq. exact Hne. }
  rewrite Ht. cbn [negb].
  set (lede := Normalizer.extractLede markupTitleItem).
  vm_compute in lede. subst lede. cbv iota beta.
  match goal with
  | |- context [if ?c then Normalizer.Skipped Normalizer.insufficient_content else _] =>
      change c with false
  end.
  cbv iota.
  unfold Normalizer.parseDate. cbn [RssFetcher.pubDate RssFetcher.isoDate markupTitleItem].
  change (Js.orElse None None) with (@None string).
  cbn [Js.truthy negb]. cbv iota.
  eexists. split; [reflexivity|]. split; reflexivity.
Qed.

(** On the sample platform the item is accepted with the title "Hi". *)
Lemma short_title_inside_markup_is_accepted_witness :
  exists a,
    @Normalizer.normalizeItem samplePlatform 0%Z markupTitleItem "src-1" "Le Journal"
      = Normalizer.Article a
    /\ Normalizer.title a = "Hi".
Proof.
  destruct (@short_title_inside_markup_is_accepted samplePlatform 0%Z "https://example.org/a")
    as [_ [a [Ha [Ht _]]]].
  - reflexivity.
  - discriminate.
  - exists a. split; [exact Ha | exact Ht].
Defined.

(** ** Retry engine *)

Section RetryFacts.
Import Retry.
Context {T : Type}.
Variable opts : RetryOptions.
Variable operation : nat -> Outcome T.

(** The loop, from any turn on: it makes [c] further calls, all but the
    last failing retryably, sleeps the backoff delays between them, and
    settles as its last call did. *)
Lemma attempts_run (remaining attempt : nat) (delay : Q) (lastError : JsError)
    (made : nat) (slept : list Q) :
  (attempt + remaining = S (maxAttempts opts))%nat ->
  (1 <= remaining)%nat ->
  let r := attempts opts operation remaining attempt delay lastError made slept in
  exists c,
    (1 <= c <= remaining)%nat
    /\ calls r = (made + c)%nat
    /\ sleeps r = slept ++ backoff opts delay (c - 1)
    /\ settled r = operation (attempt + c - 1)%nat
    /\ (forall j, (j < c - 1)%nat -> failsRetryably opts operation (attempt + j))
    /\ endsRun opts operation (attempt + c - 1).
Proof.
  revert attempt delay lastError made slept.
  induction remaining as [|k IH]; intros attempt delay lastError made slept Hsum Hpos;
    [lia|].
  cbn [attempts]. unfold endsRun.
  destruct (operation attempt) as [v|e] eqn:Eop.
  - exists 1%nat. cbn [calls sleeps settled].
    replace (attempt + 1 - 1)%nat with attempt by lia. rewrite Eop.
    repeat split; try lia. simpl. now rewrite app_nil_r.
  - fold (retryable opts e).
    destruct (negb (retryable opts e) || Nat.eqb attempt (maxAttempts opts)) eqn:Estop.
    + exists 1%nat. cbn [calls sleeps settled].
      replace (attempt + 1 - 1)%nat with attempt by lia. rewrite Eop.
      repeat split; try lia.
      * simpl. now rewrite app_nil_r.
      * apply orb_true_iff in Estop. destruct Estop as [Hn|Heq].
        -- left. now apply negb_true_iff.
        -- right. now apply Nat.eqb_eq.
    + apply orb_false_iff in Estop. destruct Estop as [Hr Hne].
      apply negb_false_iff in Hr. apply Nat.eqb_neq in Hne.
      destruct (IH (S attempt)
                   (Qmin (delay * backoffMultiplier opts) (maxDelayMs opts))
                   e (S made) (slept ++ [delay]))
        as (c & Hc & Hcalls & Hsleeps & Hset & Hfail & Hend); [lia | lia |].
      cbv beta iota zeta.
      exists (S c). unfold endsRun in Hend.
      replace (attempt + S c - 1)%nat with (S attempt + c - 1)%nat by lia.
      repeat split; try lia.
      * rewrite Hsleeps, <- app_assoc. cbn [app].
        replace (S c - 1)%nat with (S (c - 1)) by lia. reflexivity.
      * exact Hset.
      * intros j Hj. destruct j as [|j].
        -- replace (attempt + 0)%nat with attempt by lia. exists e. auto.
        -- replace (attempt + S j)%nat with (S attempt + j)%nat by lia.
           apply Hfail. lia.
      * exact Hend.
Qed.

Lemma backoff_length (delay : Q) (n : nat) : length (backoff opts delay n) = n.
Proof.
  revert delay. induction n as [|k IH]; intros delay; cbn [backoff length];
    [reflexivity|]. now rewrite IH.
Qed.

Lemma backoff_backsOff (delay : Q) (n : nat) : backsOff opts (backoff opts delay n).
Proof.
  revert delay. induction n as [|k IH]; intros delay i d d'; [destruct i; discriminate|].
  cbn [backoff]. destruct i as [|i]; cbn [nth_error].
  - intros [= <-]. destruct k as [|k]; [discriminate|].
    cbn [backoff nth_error]. now intros [= <-].
  - apply IH.
Qed.

Lemma backoff_capped (delay : Q) (n : nat) :
  (delay <= maxDelayMs opts)%Q ->
  Forall (fun d => (d <= maxDelayMs opts)%Q) (backoff opts delay n).
Proof.
  revert delay. induction n as [|k IH]; intros delay Hd; cbn [backoff]; constructor.
  - exact Hd.
  - apply IH. apply Q.le_min_r.
Qed.

Lemma backoff_tail_capped (delay : Q) (n : nat) :
  Forall (fun d => (d <= maxDelayMs opts)%Q) (tl (backoff opts delay n)).
Proof.
  destruct n as [|k]; cbn [backoff tl]; [constructor|].
  apply backoff_capped, Q.le_min_r.
Qed.

End RetryFacts.

(** C4, as stated, fails on the cap: under a policy whose initial delay
    of 50 s exceeds its maximum of 30 s, an operation that keeps timing out
    is retried after 50 s, more than the maximum, and then after 30 s. *)
Lemma first_delay_exceeds_the_cap :
  Retry.sleeps (Retry.withRetry timesOut hastyPolicy) = [50000; 30000]%Q
  /\ ~ (50000 <= Retry.maxDelayMs hastyPolicy)%Q.
Proof.
  split; [vm_compute; reflexivity|].
  intros Hle. vm_compute in Hle. apply Hle. reflexivity.
Qed.

(** C4, amended.  Under a policy of at least one attempt, [withRetry]
    calls the operation at most [maxAttempts] times and settles as its
    last call did, every earlier call having failed retryably; it sleeps
    once between two calls, the first time for the initial delay as the
    policy gives it, capped or not.  Under a policy in whole milliseconds
    the delays are those of exponential backoff: the initial delay, then
    each time the previous delay times the multiplier, capped at the
    maximum, so that every delay but the first is at most the maximum.  A
    first failure that is not retryable propagates after that one call;
    when every call fails retryably the failure of call [maxAttempts]
    propagates; and when the first [maxAttempts - 1] calls fail retryably
    and the next succeeds, the result is that success, after exactly
    [maxAttempts] calls. *)
Theorem withRetry_contract {T : Type}
    (operation : nat -> Retry.Outcome T) (opts : Retry.RetryOptions) :
  (1 <= Retry.maxAttempts opts)%nat ->
  let run := Retry.withRetry operation opts in
  let m := Retry.maxAttempts opts in
  (1 <= Retry.calls run <= m)%nat
  /\ Retry.settled run = operation (Retry.calls run)
  /\ (forall k, (1 <= k < Retry.calls run)%nat -> failsRetryably opts operation k)
  /\ endsRun opts operation (Retry.calls run)
  /\ length (Retry.sleeps run) = (Retry.calls run - 1)%nat
  /\ ((2 <= Retry.calls run)%nat ->
      hd_error (Retry.sleeps run) = Some (Retry.initialDelayMs opts))
  /\ (wholeNumbers opts ->
      backsOff opts (Retry.sleeps run)
      /\ Forall (fun d => (d <= Retry.maxDelayMs opts)%Q) (tl (Retry.sleeps run)))
  /\ (forall e, operation 1%nat = Retry.Rejected e -> retryable opts e = false ->
        Retry.settled run = Retry.Rejected e /\ Retry.calls run = 1%nat)
  /\ ((forall k, (1 <= k <= m)%nat -> failsRetryably opts operation k) ->
        Retry.settled run = operation m /\ Retry.calls run = m)
  /\ (forall v, (forall k, (1 <= k < m)%nat -> failsRetryably opts operation k) ->
        operation m = Retry.Resolved v ->
        Retry.settled run = Retry.Resolved v /\ Retry.calls run = m).
Proof.
  intros Hm run m.
  destruct (attempts_run opts operation (Retry.maxAttempts opts) 1 (Retry.initialDelayMs opts)
              {| Retry.name := "Error"; Retry.message := "No attempts made" |} 0 [])
    as (c & Hc & Hcalls & Hsleeps & Hset & Hfail & Hend); [lia | exact Hm |].
  fold (Retry.withRetry operation opts) in Hcalls, Hsleeps, Hset. fold run in Hcalls, Hsleeps, Hset.
  cbn [app] in Hsleeps. cbn [Nat.add] in Hcalls.
  replace (1 + c - 1)%nat with c in Hset, Hend by lia.
  fold m in Hc.
  assert (Hfail' : forall k, (1 <= k < c)%nat -> failsRetryably opts operation k).
  { intros k Hk. replace k with (1 + (k - 1))%nat by lia. apply Hfail. lia. }
  rewrite Hcalls, Hsleeps.
  split; [lia|]. split; [exact Hset|]. split; [exact Hfail'|]. split; [exact Hend|].
  split; [apply backoff_length|].
  split.
  { intros Hc2. destruct c as [|[|c']]; [lia|lia|]. reflexivity. }
  split; [intros _; split; [apply backoff_backsOff|apply backoff_tail_capped]|].
  split; [|split].
  - intros e He Hnr.
    assert (c = 1%nat) as ->.
    { destruct (Nat.eq_dec c 1) as [|Hne]; [assumption|].
      destruct (Hfail' 1%nat) as [e' [He' Hr']]; [lia|]. congruence. }
    rewrite Hset, He. auto.
  - intros Hall.
    assert (c = m) as ->.
    { destruct (Nat.eq_dec c m) as [|Hne]; [assumption|].
      destruct (Hall c) as [e [He Hr]]; [lia|].
      unfold endsRun in Hend. rewrite He in Hend. fold m in Hend.
      destruct Hend; congruence. }
    auto.
  - intros v Hall Hv.
    assert (c = m) as ->.
    { destruct (Nat.eq_dec c m) as [|Hne]; [assumption|].
      destruct (Hall c) as [e [He Hr]]; [lia|].
      unfold endsRun in Hend. rewrite He in Hend. fold m in Hend.
      destruct Hend; congruence. }
    rewrite Hset, Hv. auto.
Qed.

(** Under the default policy, which is in whole milliseconds, an operation
    that times out twice returns its answer after three calls, the delays
    between them backing off. *)
Lemma withRetry_contract_witness :
  Retry.settled (Retry.withRetry flaky Retry.DEFAULT_RETRY_OPTIONS) = Retry.Resolved "feed"
  /\ Retry.calls (Retry.withRetry flaky Retry.DEFAULT_RETRY_OPTIONS) = 3%nat
  /\ backsOff Retry.DEFAULT_RETRY_OPTIONS
       (Retry.sleeps (Retry.withRetry flaky Retry.DEFAULT_RETRY_OPTIONS)).
Proof.
  destruct (withRetry_contract flaky Retry.DEFAULT_RETRY_OPTIONS)
    as (_ & _ & _ & _ & _ & _ & Hwhole & _ & _ & Hok).
  - simpl. lia.
  - destruct (Hok "feed") as [Hsettled Hcalls].
    + intros k Hk. simpl in Hk. exists timeoutError.
      assert (Hk' : k = 1%nat \/ k = 2%nat) by lia.
      destruct Hk' as [-> | ->]; split; reflexivity.
    + reflexivity.
    + split; [exact Hsettled|]. split; [exact Hcalls|].
      destruct Hwhole as [Hsleeps _]; [|exact Hsleeps].
      exists 1000%Z, 30000%Z, 2%Z. unfold exactInteger.
      repeat split; (reflexivity || lia).
Defined.

(** ** Circuit breaker *)

Section BreakerFacts.
Import Retry CircuitBreaker.



End BreakerFacts.




(** ** Cleanup *)

Section CleanupFacts.
Import Store Orchestrator.

Lemma kept_elem {A} (doomed : A -> bool) (l : list A) x :
  x ∈ kept doomed l <-> x ∈ l /\ doomed x = false.
Proof. unfold kept. rewrite list_elem_of_filter. tauto. Qed.

Lemma kept_rowCount {A} (doomed : A -> bool) (l : list A) :
  (length (kept doomed l) + rowCount doomed l = length l)%nat.
Proof.
  unfold kept, rowCount. induction l as [|x l IH]; [reflexivity|].
  rewrite !filter_cons. destruct (doomed x); simpl; lia.
Qed.

End CleanupFacts.

(** C7, as stated, fails on the articles: a pending article is not
    relevant, yet a cleanup run a hundred days after its creation keeps it
    and reports nothing deleted. *)
Lemma cleanup_keeps_old_pending_article :
  Store.status oldPendingArticle <> Store.relevant
  /\ (Store.created_at oldPendingArticle < 100 * DAY - 90 * DAY)%Z
  /\ Orchestrator.runCleanup (100 * DAY) oldPendingDatabase = (oldPendingDatabase, 0%nat).
Proof. repeat split. discriminate. Qed.

(** C7, amended.  A cleanup scan adds no job to the fetch queue and
    deletes exactly: the articles of status irrelevant or error created
    more than 90 days ago, the scan logs started more than 30 days ago, and
    the daily summaries dated more than 90 days before the current date;
    it reports the total number of rows deleted; articles of any other
    status, relevant ones among them, survive whatever their age. *)
Theorem cleanup_contract (addFails : Orchestrator.QueuedScan -> option string)
    (now : Z) (sourceId : option string)
    (db : Store.Database) (rssScan : list Orchestrator.QueuedScan) :
  let db' := fst (Orchestrator.runCleanup now db) in
  let deleted := snd (Orchestrator.runCleanup now db) in
  Orchestrator.processScanOrchestrator addFails now Orchestrator.cleanup sourceId db rssScan
    = Some (db', rssScan,
            {| Orchestrator.type := Orchestrator.cleanup;
               Orchestrator.sourcesProcessed := deleted;
               Orchestrator.jobsQueued := 0;
               Orchestrator.errors := [] |})
  /\ (forall r, r ∈ Store.articles db' <->
        r ∈ Store.articles db /\
        ~ ((Store.status r = Store.irrelevant \/ Store.status r = Store.error)
           /\ (Store.created_at r < now - 90 * DAY)%Z))
  /\ (forall l, l ∈ Store.scan_logs db' <->
        l ∈ Store.scan_logs db /\ ~ (Store.started_at l < now - 30 * DAY)%Z)
  /\ (forall d, d ∈ Store.daily_summaries db' <->
        d ∈ Store.daily_summaries db /\ ~ (Store.summary_date d < now / DAY - 90)%Z)
  /\ Store.sources db' = Store.sources db
  /\ (deleted + length (Store.articles db') + length (Store.scan_logs db')
      + length (Store.daily_summaries db')
      = length (Store.articles db) + length (Store.scan_logs db)
        + length (Store.daily_summaries db))%nat
  /\ (forall r, r ∈ Store.articles db ->
        Store.status r <> Store.irrelevant -> Store.status r <> Store.error ->
        r ∈ Store.articles db').
Proof.
  intros db' deleted.
  assert (Hart : forall r, r ∈ Store.articles db' <->
        r ∈ Store.articles db /\
        ~ ((Store.status r = Store.irrelevant \/ Store.status r = Store.error)
           /\ (Store.created_at r < now - 90 * DAY)%Z)).
  { intros r. subst db'. simpl. rewrite kept_elem.
    unfold Orchestrator.purgeableArticle, DAY. split.
    - intros [Hin Hd]. split; [exact Hin|]. intros [[Hs|Hs] Hlt];
        rewrite Hs in Hd; apply Z.ltb_ge in Hd; lia.
    - intros [Hin Hn]. split; [exact Hin|].
      destruct (Store.status r) eqn:Es; try reflexivity; apply Z.ltb_ge;
        destruct (Z.lt_ge_cases (Store.created_at r) (now - 90 * Orchestrator.MS_PER_DAY));
        try lia; exfalso; apply Hn; auto. }
  split; [reflexivity|]. split; [exact Hart|]. split; [|split; [|split; [|split]]].
  - intros l. subst db'. simpl. rewrite kept_elem. unfold Orchestrator.purgeableLog, DAY.
    destruct (Z.ltb_spec (Store.started_at l) (now - 30 * Orchestrator.MS_PER_DAY));
      split; intros [Hin Hc]; split; auto; try discriminate; try lia.
  - intros d. subst db'. simpl. rewrite kept_elem. unfold Orchestrator.purgeableSummary, DAY.
    destruct (Z.ltb_spec (Store.summary_date d) (now / Orchestrator.MS_PER_DAY - 90));
      split; intros [Hin Hc]; split; auto; try discriminate; try lia.
  - reflexivity.
  - subst db' deleted. simpl.
    pose proof (kept_rowCount (Orchestrator.purgeableArticle now) (Store.articles db)).
    pose proof (kept_rowCount (Orchestrator.purgeableLog now) (Store.scan_logs db)).
    pose proof (kept_rowCount (Orchestrator.purgeableSummary now) (Store.daily_summaries db)).
    lia.
  - intros r Hin Hi He. apply Hart. split; [exact Hin|]. intros [[?|?] _]; contradiction.
Qed.

(** ** Multi-topic classification *)

Section AnalyzerFacts.
Import RelevanceAnalyzer.
Variable toNumberOther : Json -> Number.











End AnalyzerFacts.




(** ** Token bucket *)

Section LimiterFacts.
Import RateLimiter.

(** A refill at the instant of the last refill adds nothing. *)
Lemma refill_same_instant (now : Q) (l : Limiter) :
  lastRefill l = now -> refillTokens now l = l.
Proof.
  intros Hl. unfold refillTokens. rewrite Hl.
  assert (Hz : ((now - now) / interval l * inject_Z (maxTokens l) == 0)%Q)
    by (unfold Qdiv, Qminus; ring).
  rewrite Hz. reflexivity.
Qed.

(** The synchronous parts of [n] rapid calls on a limiter refilled at
    [now]: as many calls as there are tokens resolve at once, each of the
    others goes to sleep for one token period and takes nothing yet. *)
Lemma beginAll_spec (now : Q) (n : nat) (l : Limiter) :
  lastRefill l = now -> (0 <= tokens l)%Z ->
  let t := Z.to_nat (tokens l) in
  beginAll now n l =
    ({| tokens := (tokens l - Z.of_nat (Nat.min n t))%Z; maxTokens := maxTokens l;
        interval := interval l; lastRefill := lastRefill l |},
     repeat resolved (Nat.min n t) ++ repeat (asleepUntil (wakeUp now l)) (n - t)).
Proof.
  revert l. induction n as [|n IH]; intros l Hl Ht t.
  - cbn [beginAll Nat.min repeat Nat.sub app]. destruct l; cbn. f_equal. f_equal. lia.
  - cbn [beginAll]. unfold waitForToken_begin. rewrite (refill_same_instant now l Hl).
    destruct (Z.ltb_spec 0 (tokens l)) as [Hpos|Hzero].
    + specialize (IH (takeToken l)). cbn [takeToken lastRefill tokens] in IH.
      rewrite IH by (try exact Hl; lia). clear IH.
      cbn [maxTokens interval lastRefill].
      replace (Z.to_nat (tokens l - 1)) with (t - 1)%nat by (subst t; lia).
      assert (Ht1 : (1 <= t)%nat) by (subst t; lia).
      replace (Nat.min (S n) t) with (S (Nat.min n (t - 1))) by lia.
      replace (S n - t)%nat with (n - (t - 1))%nat by lia.
      cbn [repeat app]. unfold wakeUp. cbn [interval maxTokens].
      f_equal. f_equal. lia.
    + assert (Ht0 : t = 0%nat) by (subst t; lia).
      specialize (IH l Hl Ht). cbv zeta in IH. fold t in IH. rewrite Ht0 in *.
      rewrite IH. rewrite !Nat.min_0_r. cbn [repeat app]. rewrite !Nat.sub_0_r.
      reflexivity.
Qed.

(** Calls that resolved at once are reported at [now]. *)
Lemma endAll_resolved (now : Q) (k : nat) (ps : list Pending) (l : Limiter) :
  endAll now (repeat resolved k ++ ps) l =
  (fst (endAll now ps l), repeat now k ++ snd (endAll now ps l)).
Proof.
  induction k as [|k IH]; cbn [repeat app endAll].
  - now destruct (endAll now ps l).
  - rewrite IH. reflexivity.
Qed.

(** Sleepers that wake at the instant of the last refill each take a
    token, whatever the count: nothing guards the decrement. *)
Lemma endAll_awake (now wake : Q) (k : nat) (l : Limiter) :
  lastRefill l = wake ->
  endAll now (repeat (asleepUntil wake) k) l =
  ({| tokens := (tokens l - Z.of_nat k)%Z; maxTokens := maxTokens l;
      interval := interval l; lastRefill := lastRefill l |}, repeat wake k).
Proof.
  revert l. induction k as [|k IH]; intros l Hl; cbn [repeat endAll].
  - destruct l; cbn. f_equal. f_equal. lia.
  - unfold waitForToken_end. rewrite (refill_same_instant wake l Hl).
    rewrite (IH (takeToken l)) by exact Hl.
    cbn [takeToken tokens maxTokens interval lastRefill]. f_equal. f_equal. lia.
Qed.

(** One token period after an empty bucket was last refilled, the refill
    adds exactly one token. *)
Lemma refill_after_one_period (now : Q) (l : Limiter) :
  lastRefill l = now -> (0 < interval l)%Q -> (1 <= maxTokens l)%Z -> tokens l = 0%Z ->
  refillTokens (wakeUp now l) l =
  {| tokens := 1; maxTokens := maxTokens l; interval := interval l;
     lastRefill := wakeUp now l |}.
Proof.
  intros Hl Hi Hc Ht. unfold refillTokens. rewrite Hl, Ht.
  assert (Hone : ((wakeUp now l - now) / interval l * inject_Z (maxTokens l) == 1)%Q).
  { unfold wakeUp. field. split.
    - intros Hz. unfold Qeq in Hz. cbn in Hz. lia.
    - intros Hz. apply Qlt_not_eq in Hi. apply Hi. symmetry. exact Hz. }
  cbv zeta. rewrite !Hone. change (Qfloor 1) with 1%Z. change (0 <? 1)%Z with true.
  cbv beta iota. f_equal. lia.
Qed.

(** More rapid calls than the capacity: the first C resolve at once, all
    the others resolve together one token period later, and the bucket
    ends with one token minus one per sleeper. *)
Lemma rapidCalls_beyond_capacity (c : Z) (i now : Q) (n : nat) :
  (1 <= c)%Z -> (0 < i)%Q -> (Z.to_nat c < n)%nat ->
  let l := new c i now in
  snd (rapidCalls now n l) =
    repeat now (Z.to_nat c) ++ repeat (wakeUp now l) (n - Z.to_nat c) /\
  tokens (fst (rapidCalls now n l)) = (1 - Z.of_nat (n - Z.to_nat c))%Z.
Proof.
  intros Hc Hi Hn l. unfold rapidCalls.
  pose proof (beginAll_spec now n l eq_refl) as Hb. cbv zeta in Hb.
  change (tokens l) with c in Hb. rewrite Hb by lia. clear Hb.
  replace (Nat.min n (Z.to_nat c)) with (Z.to_nat c) by lia.
  rewrite endAll_resolved.
  destruct (n - Z.to_nat c)%nat as [|k] eqn:Hk; [lia|].
  cbn [repeat endAll]. unfold waitForToken_end.
  set (l0 := {| tokens := (c - Z.of_nat (Z.to_nat c))%Z; maxTokens := maxTokens l;
                interval := interval l; lastRefill := lastRefill l |}).
  assert (Hw : wakeUp now l = wakeUp now l0) by reflexivity.
  rewrite Hw.
  rewrite (refill_after_one_period now l0) by (cbn; try reflexivity; try assumption; lia).
  rewrite (endAll_awake now (wakeUp now l0) k) by reflexivity.
  cbn [fst snd takeToken tokens]. split; [reflexivity | lia].
Qed.

(** With at least two calls beyond the capacity, that common instant is
    strictly before the earliest instant stated for the last call. *)
Lemma wakeUp_before_specified (c : Z) (i now : Q) (n : nat) :
  (1 <= c)%Z -> (0 < i)%Q -> (Z.to_nat c + 2 <= n)%nat ->
  (wakeUp now (new c i now) < specifiedEarliest now n (new c i now))%Q.
Proof.
  intros Hc Hi Hn. unfold wakeUp, specifiedEarliest, new. cbn [interval maxTokens].
  assert (Hc0 : ~ (inject_Z c == 0)%Q) by (intros Hz; unfold Qeq in Hz; cbn in Hz; lia).
  apply Qlt_minus_iff.
  assert (Hd : (now + (inject_Z (Z.of_nat n) - inject_Z c) / inject_Z c * i
                + - (now + i / inject_Z c * 1)
                == (inject_Z (Z.of_nat n) - inject_Z c - 1) * (i * / inject_Z c))%Q)
    by (field; exact Hc0).
  rewrite Hd. apply Qmult_lt_0_compat.
  - assert (He : (inject_Z (Z.of_nat n) - inject_Z c - 1
                  == inject_Z (Z.of_nat n - c - 1))%Q)
      by (unfold Z.sub, Qminus; rewrite !inject_Z_plus, !inject_Z_opp; reflexivity).
    rewrite He. change 0%Q with (inject_Z 0). rewrite <- Zlt_Qlt. lia.
  - apply Qmult_lt_0_compat; [exact Hi|]. apply Qinv_lt_0_compat.
    change 0%Q with (inject_Z 0). rewrite <- Zlt_Qlt. lia.
Qed.

End LimiterFacts.

(** C9, on the code.  Three calls of [waitForToken] made at instant 0 on a
    fresh limiter of capacity 1 per 1000 ms: the first takes the token, the
    other two both sleep one token period and both resolve at 1000 ms,
    where the stated bound lets the third resolve no earlier than 2000 ms;
    the bucket is left with a negative number of tokens. *)
Theorem third_rapid_call_resolves_early :
  exists after first second third,
    RateLimiter.rapidCalls 0 3 onePerSecond = (after, [first; second; third])
    /\ (first == 0)%Q /\ (second == 1000)%Q /\ (third == 1000)%Q
    /\ (RateLimiter.specifiedEarliest 0 3 onePerSecond == 2000)%Q
    /\ (third < RateLimiter.specifiedEarliest 0 3 onePerSecond)%Q
    /\ RateLimiter.tokens after = (-1)%Z.
Proof.
  destruct (RateLimiter.rapidCalls 0 3 onePerSecond) as [after times] eqn:E.
  vm_compute in E. injection E as <- <-.
  do 4 eexists. split; [reflexivity|].
  repeat split; reflexivity.
Qed.

(** Twelve rapid calls on the per-source limiter: the twelfth resolves
    after one token period, 6000 ms, where the stated bound is 12000 ms. *)
Lemma twelfth_rapid_call_resolves_early :
  exists after times,
    RateLimiter.rapidCalls 0 12 perSourceLimiter = (after, times)
    /\ (nth 11 times 0 == 6000)%Q
    /\ (RateLimiter.specifiedEarliest 0 12 perSourceLimiter == 12000)%Q
    /\ RateLimiter.tokens after = (-1)%Z.
Proof.
  destruct (RateLimiter.rapidCalls 0 12 perSourceLimiter) as [after times] eqn:E.
  vm_compute in E. injection E as <- <-.
  do 2 eexists. split; [reflexivity|].
  repeat split; reflexivity.
Qed.

(** ** Token bucket, polled *)

Section LimiterPollingFacts.
Import RateLimiter RateLimiterSync.

Lemma refill_keeps_settings (now : Q) (l : Limiter) :
  maxTokens (refillTokens now l) = maxTokens l
  /\ interval (refillTokens now l) = interval l.
Proof.
  unfold refillTokens. cbv zeta.
  destruct (0 <? _)%Z; split; reflexivity.
Qed.

Lemma refill_withinCapacity (now : Q) (l : Limiter) :
  withinCapacity l -> withinCapacity (refillTokens now l).
Proof.
  unfold withinCapacity, refillTokens. cbv zeta. intros Hl.
  destruct (0 <? _)%Z eqn:Hadd; [|exact Hl].
  apply Z.ltb_lt in Hadd. cbn [tokens maxTokens]. lia.
Qed.

Lemma tryConsume_withinCapacity (now : Q) (l : Limiter) :
  withinCapacity l ->
  withinCapacity (snd (tryConsume now l))
  /\ maxTokens (snd (tryConsume now l)) = maxTokens l
  /\ interval (snd (tryConsume now l)) = interval l.
Proof.
  intros Hl. pose proof (refill_withinCapacity now l Hl) as Hr.
  destruct (refill_keeps_settings now l) as [Hm Hi].
  unfold tryConsume. cbv zeta. unfold withinCapacity in *.
  destruct (0 <? tokens (refillTokens now l))%Z eqn:Hpos; cbn [snd].
  - apply Z.ltb_lt in Hpos. cbn [takeToken tokens maxTokens interval].
    repeat split; try assumption; lia.
  - repeat split; try assumption; lia.
Qed.

Lemma tryConsumeAt_cons (now : Q) (rest : list Q) (l : Limiter) :
  tryConsumeAt (now :: rest) l =
  (fst (tryConsume now l) :: fst (tryConsumeAt rest (snd (tryConsume now l))),
   snd (tryConsumeAt rest (snd (tryConsume now l)))).
Proof.
  cbn [tryConsumeAt]. destruct (tryConsume now l) as [ok l1]. cbn [fst snd].
  destruct (tryConsumeAt rest l1) as [oks l2]. reflexivity.
Qed.

Variable t0 : Q.

Lemma refill_credit (now : Q) (l : Limiter) :
  (credit t0 (refillTokens now l) <= credit t0 l)%Q.
Proof.
  unfold credit, refillTokens. cbv zeta.
  destruct (0 <? _)%Z eqn:Hadd; [|apply Qle_refl].
  cbn [tokens maxTokens interval lastRefill].
  set (x := ((now - lastRefill l) / interval l * inject_Z (maxTokens l))%Q) in *.
  pose proof (Qfloor_le x) as Hfl.
  assert (Hmin : (inject_Z (Z.min (maxTokens l) (tokens l + Qfloor x))
                  <= inject_Z (tokens l) + inject_Z (Qfloor x))%Q).
  { rewrite <- inject_Z_plus. rewrite <- Zle_Qle. lia. }
  assert (Hx : (x == (now - t0) / interval l * inject_Z (maxTokens l)
                    - (lastRefill l - t0) / interval l * inject_Z (maxTokens l))%Q).
  { unfold x, Qdiv. ring. }
  lra.
Qed.

Lemma refill_lastRefill (now tmax : Q) (l : Limiter) :
  (now <= tmax)%Q -> (lastRefill l <= tmax)%Q ->
  (lastRefill (refillTokens now l) <= tmax)%Q.
Proof.
  intros Hn Hl. unfold refillTokens. cbv zeta. destruct (0 <? _)%Z; assumption.
Qed.

Lemma tryConsume_credit (now : Q) (l : Limiter) :
  (inject_Z (granted [fst (tryConsume now l)]) + credit t0 (snd (tryConsume now l))
   <= credit t0 l)%Q.
Proof.
  pose proof (refill_credit now l) as Hr.
  unfold tryConsume. cbv zeta.
  destruct (0 <? tokens (refillTokens now l))%Z; cbn [fst snd].
  - unfold credit in *. cbn [takeToken tokens maxTokens interval lastRefill].
    change (inject_Z (granted [true])) with 1%Q.
    unfold Z.sub. rewrite inject_Z_plus, inject_Z_opp. change (inject_Z 1) with 1%Q. lra.
  - change (inject_Z (granted [false])) with 0%Q. lra.
Qed.

Lemma granted_cons (ok : bool) (oks : list bool) :
  granted (ok :: oks) = (granted [ok] + granted oks)%Z.
Proof.
  unfold granted. cbn [count_occ]. destruct (bool_dec ok true); lia.
Qed.

Lemma tryConsumeAt_credit (tmax : Q) (times : list Q) (l : Limiter) :
  Forall (fun t => (t <= tmax)%Q) times -> (lastRefill l <= tmax)%Q ->
  (inject_Z (granted (fst (tryConsumeAt times l))) + credit t0 (snd (tryConsumeAt times l))
   <= credit t0 l)%Q
  /\ (lastRefill (snd (tryConsumeAt times l)) <= tmax)%Q.
Proof.
  revert l. induction times as [|now rest IH]; intros l Ht Hl.
  - cbn [tryConsumeAt fst snd]. change (inject_Z (granted [])) with 0%Q. split; [lra|exact Hl].
  - rewrite tryConsumeAt_cons. cbn [fst snd].
    apply Forall_cons in Ht. destruct Ht as [Hnow Hrest].
    assert (Hl1 : (lastRefill (snd (tryConsume now l)) <= tmax)%Q).
    { unfold tryConsume. cbv zeta.
      destruct (0 <? tokens (refillTokens now l))%Z; cbn [snd takeToken lastRefill];
        apply refill_lastRefill; assumption. }
    destruct (IH _ Hrest Hl1) as [Hc Hlr]. split; [|exact Hlr].
    pose proof (tryConsume_credit now l) as H1.
    rewrite granted_cons, inject_Z_plus. lra.
Qed.

Lemma tryConsumeAt_withinCapacity (times : list Q) (l : Limiter) :
  withinCapacity l ->
  withinCapacity (snd (tryConsumeAt times l))
  /\ maxTokens (snd (tryConsumeAt times l)) = maxTokens l
  /\ interval (snd (tryConsumeAt times l)) = interval l.
Proof.
  revert l. induction times as [|now rest IH]; intros l Hl.
  - cbn. auto.
  - rewrite tryConsumeAt_cons. cbn [snd].
    destruct (tryConsume_withinCapacity now l Hl) as (H1 & Hm & Hi).
    destruct (IH _ H1) as (H2 & Hm2 & Hi2).
    repeat split; try apply H2; congruence.
Qed.

End LimiterPollingFacts.

(** X1.  However often and whenever [tryConsume] is called, the bucket
    never goes below zero tokens and never above its capacity, and its
    settings stay as they were. *)
Theorem tryConsume_never_overdraws (times : list Q) (l : RateLimiter.Limiter) :
  (0 < RateLimiter.interval l)%Q ->
  withinCapacity l ->
  let after := snd (tryConsumeAt times l) in
  withinCapacity after
  /\ RateLimiter.maxTokens after = RateLimiter.maxTokens l
  /\ RateLimiter.interval after = RateLimiter.interval l.
Proof.
  intros _ Hl. cbv zeta. apply tryConsumeAt_withinCapacity, Hl.
Qed.

(** [tryConsume_never_overdraws] on a bucket of one token per second
    polled six times over one second. *)
Lemma tryConsume_never_overdraws_witness :
  withinCapacity (snd (tryConsumeAt [0; 0; 500; 1000; 1000; 1000]%Q onePerSecond)).
Proof.
  apply (tryConsume_never_overdraws [0; 0; 500; 1000; 1000; 1000]%Q onePerSecond).
  - reflexivity.
  - unfold withinCapacity. cbn. lia.
Defined.

(** X2.  A bucket created at [t0] with capacity [c] per interval [i] and
    polled with [tryConsume] at any instants up to [tmax] grants at most
    [c + ((tmax - t0) / i) * c] tokens: the initial burst plus the refill
    rate. *)
Theorem tryConsume_grants_at_most_the_rate (c : Z) (i t0 tmax : Q) (times : list Q) :
  (0 <= c)%Z -> (0 < i)%Q ->
  Forall (fun t => (t <= tmax)%Q) times -> (t0 <= tmax)%Q ->
  (inject_Z (granted (fst (tryConsumeAt times (RateLimiter.new c i t0))))
   <= inject_Z c + (tmax - t0) / i * inject_Z c)%Q.
Proof.
  intros Hc Hi Ht H0.
  set (l := RateLimiter.new c i t0).
  destruct (tryConsumeAt_credit t0 tmax times l Ht H0) as [Hcredit Hlast].
  destruct (tryConsumeAt_withinCapacity times l) as ([Htok _] & Hm & Hint).
  { unfold withinCapacity. cbn. lia. }
  unfold credit in Hcredit. rewrite Hm, Hint in Hcredit.
  cbn [l RateLimiter.new RateLimiter.tokens RateLimiter.maxTokens RateLimiter.interval
       RateLimiter.lastRefill] in Hcredit.
  set (after := snd (tryConsumeAt times l)) in *.
  assert (Htok' : (0 <= inject_Z (RateLimiter.tokens after))%Q)
    by (change 0%Q with (inject_Z 0); rewrite <- Zle_Qle; exact Htok).
  assert (Hrate : (0 <= (tmax - RateLimiter.lastRefill after) * (/ i * inject_Z c))%Q).
  { apply Qmult_le_0_compat; [lra|].
    apply Qmult_le_0_compat.
    - apply Qlt_le_weak, Qinv_lt_0_compat, Hi.
    - change 0%Q with (inject_Z 0). rewrite <- Zle_Qle. exact Hc. }
  assert (E1 : ((t0 - t0) / i * inject_Z c == 0)%Q) by (unfold Qdiv; ring).
  assert (E2 : ((tmax - t0) / i * inject_Z c
                == (RateLimiter.lastRefill after - t0) / i * inject_Z c
                   + (tmax - RateLimiter.lastRefill after) * (/ i * inject_Z c))%Q)
    by (unfold Qdiv; ring).
  lra.
Qed.

(** [tryConsume_grants_at_most_the_rate] on eight polls of a bucket of one
    token per second over two and a half seconds. *)
Lemma tryConsume_grants_at_most_the_rate_witness :
  (inject_Z (granted (fst (tryConsumeAt [0; 0; 500; 1000; 1000; 1000; 2500; 2500]%Q
                             (RateLimiter.new 1 1000 0))))
   <= inject_Z 1 + (2500 - 0) / 1000 * inject_Z 1)%Q.
Proof.
  apply (tryConsume_grants_at_most_the_rate 1 1000 0 2500
           [0; 0; 500; 1000; 1000; 1000; 2500; 2500]%Q).
  - lia.
  - reflexivity.
  - repeat constructor; discriminate.
  - discriminate.
Defined.

Section LimiterBurstFacts.
Import RateLimiter RateLimiterSync.

Lemma tryConsumeAt_same_instant (now : Q) (n : nat) (l : Limiter) :
  lastRefill l = now -> (0 <= tokens l)%Z ->
  let t := Z.to_nat (tokens l) in
  tryConsumeAt (repeat now n) l =
    (repeat true (Nat.min n t) ++ repeat false (n - t),
     {| tokens := (tokens l - Z.of_nat (Nat.min n t))%Z; maxTokens := maxTokens l;
        interval := interval l; lastRefill := lastRefill l |}).
Proof.
  revert l. induction n as [|n IH]; intros l Hl Ht t.
  - cbn [repeat tryConsumeAt Nat.min Nat.sub app]. destruct l; cbn. f_equal. f_equal. lia.
  - cbn [repeat]. rewrite tryConsumeAt_cons. unfold tryConsume. cbv zeta.
    rewrite (refill_same_instant now l Hl).
    destruct (Z.ltb_spec 0 (tokens l)) as [Hpos|Hzero]; cbn [fst snd].
    + specialize (IH (takeToken l)). cbn [takeToken lastRefill tokens] in IH.
      rewrite IH by (try exact Hl; lia). clear IH.
      cbn [fst snd maxTokens interval lastRefill].
      replace (Z.to_nat (tokens l - 1)) with (t - 1)%nat by (subst t; lia).
      assert (Ht1 : (1 <= t)%nat) by (subst t; lia).
      replace (Nat.min (S n) t) with (S (Nat.min n (t - 1))) by lia.
      replace (S n - t)%nat with (n - (t - 1))%nat by lia.
      cbn [repeat app]. f_equal. f_equal. lia.
    + assert (Ht0 : t = 0%nat) by (subst t; lia).
      specialize (IH l Hl Ht). cbv zeta in IH. fold t in IH. rewrite Ht0 in *.
      rewrite IH. rewrite !Nat.min_0_r. cbn [repeat app fst snd]. rewrite !Nat.sub_0_r.
      reflexivity.
Qed.

Lemma refill_lastRefill_le (now : Q) (l : Limiter) :
  (lastRefill l <= now)%Q -> (lastRefill (refillTokens now l) <= now)%Q.
Proof.
  intros Hl. unfold refillTokens. cbv zeta.
  destruct (0 <? _)%Z; [apply Qle_refl | exact Hl].
Qed.

(** Once a token period has gone by since the last refill, a refill
    leaves at least one token. *)
Lemma refill_after_period (t : Q) (l : Limiter) :
  (0 < interval l)%Q -> (1 <= maxTokens l)%Z -> (0 <= tokens l)%Z ->
  (lastRefill l + interval l / inject_Z (maxTokens l) <= t)%Q ->
  (0 < tokens (refillTokens t l))%Z.
Proof.
  intros Hi Hc Htok Ht. unfold refillTokens. cbv zeta.
  set (x := ((t - lastRefill l) / interval l * inject_Z (maxTokens l))%Q).
  assert (Hc' : (0 < inject_Z (maxTokens l))%Q)
    by (change 0%Q with (inject_Z 0); rewrite <- Zlt_Qlt; lia).
  assert (Hx : (1 <= x)%Q).
  { assert (Hk : (0 <= (t - lastRefill l - interval l / inject_Z (maxTokens l))
                       * (/ interval l * inject_Z (maxTokens l)))%Q).
    { apply Qmult_le_0_compat; [lra|]. apply Qmult_le_0_compat.
      - apply Qlt_le_weak, Qinv_lt_0_compat, Hi.
      - apply Qlt_le_weak, Hc'. }
    assert (E : ((t - lastRefill l - interval l / inject_Z (maxTokens l))
                 * (/ interval l * inject_Z (maxTokens l)) == x - 1)%Q).
    { unfold x. field. split; intros Hz; rewrite Hz in *; lra. }
    lra. }
  assert (Hfl : (1 <= Qfloor x)%Z).
  { change 1%Z with (Qfloor 1). apply Qfloor_resp_le, Hx. }
  destruct (Z.ltb_spec 0 (Qfloor x)); [|lia].
  cbn [tokens]. lia.
Qed.

End LimiterBurstFacts.

(** X3.  [n] calls of [tryConsume] at the instant a bucket of capacity
    [c] is created: the first [c] get a token, every later one is
    refused. *)
Theorem tryConsume_burst (c : Z) (i now : Q) (n : nat) :
  (0 <= c)%Z -> (0 < i)%Q ->
  fst (tryConsumeAt (repeat now n) (RateLimiter.new c i now)) =
    repeat true (Nat.min n (Z.to_nat c)) ++ repeat false (n - Z.to_nat c).
Proof.
  intros Hc _.
  pose proof (tryConsumeAt_same_instant now n (RateLimiter.new c i now) eq_refl) as Hb.
  cbv zeta in Hb. cbn [RateLimiter.new RateLimiter.tokens] in Hb.
  rewrite Hb by exact Hc. reflexivity.
Qed.

(** [tryConsume_burst] on twelve calls against the per-source bucket of
    ten tokens per minute. *)
Lemma tryConsume_burst_witness :
  fst (tryConsumeAt (repeat 0%Q 12) (RateLimiter.new 10 60000 0)) =
    repeat true 10 ++ repeat false 2.
Proof.
  apply (tryConsume_burst 10 60000 0 12).
  - lia.
  - reflexivity.
Defined.

(** ** Sliding window *)

Section SlidingWindowFacts.
Import SlidingWindowRateLimiter.

Variable wakeAfter : Z -> Z -> Z.

Lemma filter_window_later (w t t' : Z) (rs : list Z) :
  (t <= t')%Z ->
  filter (fun r => (t' - w < r)%Z) (filter (fun r => (t - w < r)%Z) rs)
  = filter (fun r => (t' - w < r)%Z) rs.
Proof.
  intros Hle. induction rs as [|r rs IH]; [reflexivity|].
  rewrite !filter_cons. destruct (decide (t - w < r)%Z) as [H1|H1].
  - rewrite filter_cons. destruct (decide (t' - w < r)%Z); now rewrite IH.
  - rewrite decide_False by lia. exact IH.
Qed.

Lemma filter_length_le' (P : Z -> Prop) `{!forall x, Decision (P x)} (rs : list Z) :
  (length (filter P rs) <= length rs)%nat.
Proof.
  induction rs as [|r rs IH]; [reflexivity|].
  rewrite filter_cons. destruct (decide (P r)); cbn; lia.
Qed.

(** The loop on a limiter with room for at least one request: it ends
    within one round per request on record, at an instant [t] no earlier
    than [now], and leaves the requests still inside the window at [t]. *)
Lemma waitLoop_ends (fuel : nat) (now : Z) (l : Window) :
  neverEarly wakeAfter -> (1 <= maxRequests l)%Z ->
  (length (requests l) < fuel)%nat ->
  requests l = insideWindow now l ->
  exists t l',
    waitLoop wakeAfter fuel now l = Some (t, l')
    /\ (now <= t)%Z
    /\ requests l' = insideWindow t l
    /\ maxRequests l' = maxRequests l /\ windowMs l' = windowMs l
    /\ (Z.of_nat (length (requests l')) < maxRequests l)%Z
    /\ ((Z.of_nat (length (requests l)) < maxRequests l)%Z -> t = now).
Proof.
  intros Hwake Hmax. revert now l Hmax.
  induction fuel as [|k IH]; intros now l Hmax Hfuel Hclean; [lia|].
  cbn [waitLoop].
  destruct (Z.leb_spec (maxRequests l) (Z.of_nat (length (requests l)))) as [Hfull|Hroom].
  - destruct (requests l) as [|oldest rest] eqn:Hreq; [cbn in Hfull; lia|].
    cbv zeta.
    set (waitTime := (oldest + windowMs l - now + 100)%Z).
    set (now' := if (0 <? waitTime)%Z then wakeAfter now waitTime else now).
    assert (Hlater : (now <= now')%Z /\ (oldest + windowMs l + 100 <= now')%Z).
    { unfold now'. destruct (Z.ltb_spec 0 waitTime) as [Hpos|Hneg].
      - pose proof (Hwake now waitTime Hpos). unfold waitTime in *. lia.
      - unfold waitTime in *. lia. }
    destruct Hlater as [Hle Hgone].
    assert (Hshorter : (length (requests (cleanOldRequests now' l)) < k)%nat).
    { cbn [cleanOldRequests requests]. rewrite Hreq.
      rewrite filter_cons, decide_False by lia.
      pose proof (filter_length_le' (fun t => (now' - windowMs l < t)%Z) rest).
      cbn [length] in Hfuel. lia. }
    destruct (IH now' (cleanOldRequests now' l)) as (t & l' & Hrun & Ht & Hl' & Hm & Hw & Hlen & _).
    + exact Hmax.
    + exact Hshorter.
    + unfold insideWindow. cbn [cleanOldRequests requests windowMs].
      rewrite list_filter_filter. apply list_filter_iff. intros r. tauto.
    + exists t, l'. split; [exact Hrun|]. split; [lia|].
      split.
      { rewrite Hl'. unfold insideWindow. cbn [cleanOldRequests requests windowMs].
        rewrite Hreq. apply filter_window_later. exact Ht. }
      split; [exact Hm|]. split; [exact Hw|]. split; [exact Hlen|].
      intros Hroom. cbn [length] in Hfull. rewrite <- Hreq in Hroom.
      rewrite Hreq in Hroom. cbn [length] in Hroom. lia.
  - exists now, l. repeat split; try assumption; lia.
Qed.

Lemma waitLoop_without_capacity (fuel : nat) (now : Z) (l : Window) :
  (maxRequests l <= 0)%Z -> waitLoop wakeAfter fuel now l = None.
Proof.
  revert now l. induction fuel as [|k IH]; intros now l Hmax; cbn [waitLoop];
    destruct (Z.leb_spec (maxRequests l) (Z.of_nat (length (requests l)))); try lia;
    [reflexivity|].
  destruct (requests l); cbv zeta; apply IH; exact Hmax.
Qed.

End SlidingWindowFacts.

(** X5.  On a sliding-window limiter that allows at least one request, a
    call of [waitForSlot] made at [now] resolves, within one round of its
    loop per request on record, at an instant [t] no earlier than [now];
    it records [t] after the requests still inside the window at [t], which
    with it number at most [maxRequests]; and it resolves at once when
    fewer than [maxRequests] requests are inside the window at [now]
    (timers never fire early, one caller). *)
Theorem waitForSlot_admits_within_limit (wakeAfter : Z -> Z -> Z) (now : Z)
    (l : SlidingWindowRateLimiter.Window) :
  neverEarly wakeAfter ->
  (1 <= SlidingWindowRateLimiter.maxRequests l)%Z ->
  exists t l',
    SlidingWindowRateLimiter.waitForSlot wakeAfter
      (S (length (SlidingWindowRateLimiter.requests l))) now l = Some (t, l')
    /\ (now <= t)%Z
    /\ SlidingWindowRateLimiter.requests l' = insideWindow t l ++ [t]
    /\ (Z.of_nat (length (SlidingWindowRateLimiter.requests l'))
        <= SlidingWindowRateLimiter.maxRequests l)%Z
    /\ ((Z.of_nat (length (insideWindow now l))
         < SlidingWindowRateLimiter.maxRequests l)%Z -> t = now).
Proof.
  intros Hwake Hmax. unfold SlidingWindowRateLimiter.waitForSlot.
  set (l0 := SlidingWindowRateLimiter.cleanOldRequests now l).
  destruct (waitLoop_ends wakeAfter (S (length (SlidingWindowRateLimiter.requests l))) now l0)
    as (t & l' & Hrun & Ht & Hl' & Hm & Hw & Hlen & Hnow).
  - exact Hwake.
  - exact Hmax.
  - cbn [l0 SlidingWindowRateLimiter.cleanOldRequests SlidingWindowRateLimiter.requests].
    pose proof (filter_length_le'
                  (fun r => (now - SlidingWindowRateLimiter.windowMs l < r)%Z)
                  (SlidingWindowRateLimiter.requests l)).
    lia.
  - unfold insideWindow.
    cbn [l0 SlidingWindowRateLimiter.cleanOldRequests SlidingWindowRateLimiter.requests
         SlidingWindowRateLimiter.windowMs].
    rewrite list_filter_filter. apply list_filter_iff. intros r. tauto.
  - exists t, (SlidingWindowRateLimiter.push t l'). rewrite Hrun.
    split; [reflexivity|]. split; [exact Ht|].
    assert (Hkept : SlidingWindowRateLimiter.requests l' = insideWindow t l).
    { rewrite Hl'. unfold insideWindow.
      cbn [l0 SlidingWindowRateLimiter.cleanOldRequests SlidingWindowRateLimiter.requests
           SlidingWindowRateLimiter.windowMs].
      apply filter_window_later. exact Ht. }
    cbn [SlidingWindowRateLimiter.push SlidingWindowRateLimiter.requests].
    split; [now rewrite Hkept|]. split.
    + rewrite length_app. cbn [length].
      cbn [l0 SlidingWindowRateLimiter.cleanOldRequests SlidingWindowRateLimiter.maxRequests] in Hlen.
      lia.
    + intros Hroom. apply Hnow. exact Hroom.
Qed.

(** [waitForSlot_admits_within_limit] on a full window of two requests
    per second, with exact timers. *)
Lemma waitForSlot_admits_within_limit_witness :
  exists t l',
    SlidingWindowRateLimiter.waitForSlot exactTimer 3 500 fullWindow = Some (t, l')
    /\ (500 <= t)%Z
    /\ SlidingWindowRateLimiter.requests l' = insideWindow t fullWindow ++ [t]
    /\ (Z.of_nat (length (SlidingWindowRateLimiter.requests l')) <= 2)%Z
    /\ ((Z.of_nat (length (insideWindow 500 fullWindow)) < 2)%Z -> t = 500%Z).
Proof.
  apply (waitForSlot_admits_within_limit exactTimer 500 fullWindow).
  - intros now ms _. unfold exactTimer. lia.
  - cbn. lia.
Defined.

(** X6.  A sliding-window limiter whose [maxRequests] is zero or less
    never lets a call of [waitForSlot] through: its loop does not end,
    however many rounds it is given. *)
Theorem waitForSlot_without_capacity_never_resolves (wakeAfter : Z -> Z -> Z)
    (fuel : nat) (now : Z) (l : SlidingWindowRateLimiter.Window) :
  (SlidingWindowRateLimiter.maxRequests l <= 0)%Z ->
  SlidingWindowRateLimiter.waitForSlot wakeAfter fuel now l = None.
Proof.
  intros Hmax. unfold SlidingWindowRateLimiter.waitForSlot.
  rewrite waitLoop_without_capacity; [reflexivity|exact Hmax].
Qed.

(** [waitForSlot_without_capacity_never_resolves] on a limiter of zero
    requests per second. *)
Lemma waitForSlot_without_capacity_never_resolves_witness :
  SlidingWindowRateLimiter.waitForSlot exactTimer 50 0
    (SlidingWindowRateLimiter.new 0 1000) = None.
Proof.
  apply (waitForSlot_without_capacity_never_resolves exactTimer 50 0
           (SlidingWindowRateLimiter.new 0 1000)).
  cbn. lia.
Defined.

(** ** Deduplicator, single URLs and repeated batches *)

Section DeduplicatorSingleFacts.
Import Normalizer Store Deduplicator DeduplicatorSingle.

Lemma cacheKey_inj (h1 h2 : string) : cacheKey h1 = cacheKey h2 -> h1 = h2.
Proof.
  unfold cacheKey, REDIS_KEY_PREFIX. cbn. intros E. now injection E.
Qed.

Lemma checkCache_verdict redis (h : string) :
  checkCache redis h =
  match verdict redis h with
  | Some cached_exists => Some true
  | Some cached_new => Some false
  | None => None
  end.
Proof.
  unfold checkCache, get, verdict, classify.
  destruct (up redis); [|reflexivity].
  destruct (entries redis !! cacheKey h) as [v|]; [|reflexivity].
  destruct (String.eqb v "exists"); [reflexivity|].
  destruct (String.eqb v "new"); reflexivity.
Qed.

Lemma checkDatabase_stored db (h : string) :
  checkDatabase db h = true <-> stored db h.
Proof.
  unfold checkDatabase, stored. cbv zeta.
  induction (articles db) as [|r rs IH]; [cbn; split; discriminate|].
  rewrite filter_cons. cbn [existsb].
  destruct (hashMatches h r) eqn:E.
  - rewrite decide_True by reflexivity. cbn. tauto.
  - rewrite decide_False by discriminate. cbn [orb]. exact IH.
Qed.

Lemma verdict_cacheUrlHash redis (h h' : string) (b : bool) :
  up redis = true ->
  up (cacheUrlHash redis h b) = true
  /\ verdict (cacheUrlHash redis h b) h' =
     if decide (h' = h) then Some (if b then cached_exists else cached_new)
     else verdict redis h'.
Proof.
  intros Hup. unfold cacheUrlHash, verdict. rewrite Hup. cbn [setex up entries].
  rewrite Hup. split; [reflexivity|].
  destruct (decide (h' = h)) as [->|Hne].
  - rewrite lookup_insert_eq. destruct b; reflexivity.
  - rewrite lookup_insert_ne; [reflexivity|].
    intros E. apply Hne. symmetry. now apply cacheKey_inj.
Qed.

Lemma cacheUrlHash_down redis (h : string) (b : bool) :
  up redis = false -> cacheUrlHash redis h b = redis.
Proof. intros Hup. unfold cacheUrlHash. now rewrite Hup. Qed.

(** The cache after the second loop of [filterDuplicates]. *)
Lemma dbPass_cache (dbr : gset string) (l : list NormalizedArticle) redis fresh dups :
  up redis = true ->
  let redis' := fst (fst (fold_left (dbStep dbr) l (redis, fresh, dups))) in
  up redis' = true
  /\ forall h, verdict redis' h =
       if decide (h ∈ map urlHash l)
       then Some (if decide (h ∈ dbr) then cached_exists else cached_new)
       else verdict redis h.
Proof.
  revert redis fresh dups. induction l as [|a l IH]; intros redis fresh dups Hup.
  - cbn. split; [exact Hup|]. intros h. rewrite decide_False; [reflexivity|].
    apply not_elem_of_nil.
  - change (fold_left (dbStep dbr) (a :: l) (redis, fresh, dups))
      with (fold_left (dbStep dbr) l (dbStep dbr (redis, fresh, dups) a)).
    assert (Hs : exists fresh1 dups1,
               dbStep dbr (redis, fresh, dups) a =
               (cacheUrlHash redis (urlHash a) (bool_decide (urlHash a ∈ dbr)), fresh1, dups1)).
    { unfold dbStep. destruct (decide (urlHash a ∈ dbr)) as [Hin|Hnin].
      - rewrite bool_decide_eq_true_2 by exact Hin. eauto.
      - rewrite bool_decide_eq_false_2 by exact Hnin. eauto. }
    destruct Hs as (fresh1 & dups1 & ->).
    destruct (verdict_cacheUrlHash redis (urlHash a) (urlHash a)
                (bool_decide (urlHash a ∈ dbr)) Hup) as [Hup1 _].
    destruct (IH _ fresh1 dups1 Hup1) as [Hup' Hv]. cbv zeta. split; [exact Hup'|].
    intros h. rewrite Hv. cbn [map].
    destruct (verdict_cacheUrlHash redis (urlHash a) h
                (bool_decide (urlHash a ∈ dbr)) Hup) as [_ ->].
    destruct (decide (h ∈ map urlHash l)) as [Hin|Hnin],
             (decide (h ∈ urlHash a :: map urlHash l)) as [Hc|Hc];
      rewrite elem_of_cons in Hc; try tauto.
    + destruct (decide (h = urlHash a)) as [->|Hne]; [|tauto].
      destruct (decide (urlHash a ∈ dbr)) as [Hd|Hd].
      * now rewrite bool_decide_eq_true_2.
      * now rewrite bool_decide_eq_false_2.
    + destruct (decide (h = urlHash a)) as [->|Hne]; [tauto|reflexivity].
Qed.

Lemma dbPass_down (dbr : gset string) (l : list NormalizedArticle) redis fresh dups :
  up redis = false ->
  fst (fst (fold_left (dbStep dbr) l (redis, fresh, dups))) = redis.
Proof.
  intros Hup. revert fresh dups. induction l as [|a l IH]; intros fresh dups; [reflexivity|].
  change (fold_left (dbStep dbr) (a :: l) (redis, fresh, dups))
    with (fold_left (dbStep dbr) l (dbStep dbr (redis, fresh, dups) a)).
  unfold dbStep at 2. rewrite !(cacheUrlHash_down redis _ _ Hup).
  destruct (decide (urlHash a ∈ dbr)); apply IH.
Qed.

Lemma needsDbCheck_spec redis (arts : list NormalizedArticle) :
  needsDbCheck
    (fold_left (cacheStep (batchCheckCache redis (map urlHash arts))) arts
       {| p_new := []; p_duplicates := 0; p_cacheHits := 0; needsDbCheck := [] |})
  = filter (cachedAs redis None) arts.
Proof.
  pose proof (cachePass_spec redis (batchCheckCache redis (map urlHash arts)) arts
                {| p_new := []; p_duplicates := 0; p_cacheHits := 0; needsDbCheck := [] |})
    as Hpass.
  cbn [p_new p_duplicates p_cacheHits needsDbCheck app] in Hpass.
  apply Hpass. intros a Ha. apply batchCheckCache_lookup.
  apply list_elem_of_In, in_map, list_elem_of_In, Ha.
Qed.

(** The cache [filterDuplicates] leaves. *)
Lemma filterDuplicates_cache redis db (arts : list NormalizedArticle) :
  up redis = true ->
  let redis1 := fst (filterDuplicates redis db arts) in
  up redis1 = true
  /\ forall h, verdict redis1 h =
       match verdict redis h with
       | Some v => Some v
       | None =>
           if decide (h ∈ map urlHash arts)
           then Some (if decide (stored db h) then cached_exists else cached_new)
           else None
       end.
Proof.
  intros Hup. unfold filterDuplicates. cbv zeta.
  rewrite needsDbCheck_spec.
  set (pass := fold_left _ arts _).
  set (needs := filter (cachedAs redis None) arts).
  assert (Hneeds : forall h, h ∈ map urlHash needs <->
                             h ∈ map urlHash arts /\ verdict redis h = None).
  { intros h. unfold needs. rewrite !list_elem_of_fmap. split.
    - intros (a & -> & Ha). apply list_elem_of_filter in Ha. destruct Ha as [Hc Ha].
      split; [eauto|exact Hc].
    - intros [(a & -> & Ha) Hv]. exists a. split; [reflexivity|].
      apply list_elem_of_filter. split; [exact Hv|exact Ha]. }
  destruct (Nat.ltb 0 (length needs)) eqn:Hlen.
  - pose proof (dbPass_cache (batchCheckDatabase db (map urlHash needs)) needs
                  redis (p_new pass) (p_duplicates pass) Hup) as Hdb.
    cbv zeta in Hdb.
    destruct (fold_left _ needs _) as [[redis' fresh] dups]. cbn [fst] in *.
    destruct Hdb as [Hup' Hv]. split; [exact Hup'|].
    intros h. rewrite Hv.
    destruct (decide (h ∈ map urlHash needs)) as [Hin|Hnin].
    + apply Hneeds in Hin as Hin'. destruct Hin' as [Harts Hnone]. rewrite Hnone.
      destruct (decide (h ∈ map urlHash arts)) as [_|Hc]; [|tauto].
      destruct (decide (h ∈ batchCheckDatabase db (map urlHash needs))) as [Hd|Hd],
               (decide (stored db h)) as [Hs|Hs]; try reflexivity.
      * apply batchCheckDatabase_elem in Hd. tauto.
      * exfalso. apply Hd, batchCheckDatabase_elem. auto.
    + destruct (verdict redis h) as [v|] eqn:Ev; [reflexivity|].
      destruct (decide (h ∈ map urlHash arts)) as [Hc|_]; [|reflexivity].
      exfalso. apply Hnin, Hneeds. auto.
  - cbn [fst]. split; [exact Hup|]. intros h.
    destruct (verdict redis h) as [v|] eqn:Ev; [reflexivity|].
    destruct (decide (h ∈ map urlHash arts)) as [Harts|_]; [|reflexivity].
    exfalso. apply Nat.ltb_ge in Hlen.
    assert (Hin : h ∈ map urlHash needs) by (apply Hneeds; auto).
    destruct needs; [now apply not_elem_of_nil in Hin|cbn in Hlen; lia].
Qed.

Lemma filter_none {A} (P : A -> Prop) `{!forall x, Decision (P x)} (l : list A) :
  (forall x, x ∈ l -> ~ P x) -> filter P l = [].
Proof.
  induction l as [|a l IH]; intros Hn; [reflexivity|].
  rewrite filter_cons, decide_False by (apply Hn, elem_of_cons; now left).
  apply IH. intros x Hx. apply Hn, elem_of_cons. now right.
Qed.

Lemma filter_all {A} (P : A -> Prop) `{!forall x, Decision (P x)} (l : list A) :
  (forall x, x ∈ l -> P x) -> filter P l = l.
Proof.
  induction l as [|a l IH]; intros Hn; [reflexivity|].
  rewrite filter_cons, decide_True by (apply Hn, elem_of_cons; now left).
  f_equal. apply IH. intros x Hx. apply Hn, elem_of_cons. now right.
Qed.

Lemma filter_either {A} (P Q : A -> Prop)
    `{!forall x, Decision (P x)} `{!forall x, Decision (Q x)} (l : list A) :
  (forall x, P x -> Q x -> False) ->
  filter (fun x => P x \/ Q x) l ≡ₚ filter P l ++ filter Q l.
Proof.
  intros Hex. induction l as [|a l IH]; [reflexivity|].
  rewrite !filter_cons.
  destruct (decide (P a)) as [Hp|Hp], (decide (Q a)) as [Hq|Hq].
  - exfalso. eauto.
  - rewrite decide_True by auto. cbn. now rewrite IH.
  - rewrite decide_True by auto. rewrite IH. apply Permutation_middle.
  - rewrite decide_False by tauto. exact IH.
Qed.

End DeduplicatorSingleFacts.

(** X7.  With the cache up, [isDuplicate] answers from the cache when it
    holds a verdict for the URL's hash and from the store otherwise; either
    way the cache then holds that answer, so that asking again gives the
    same answer whatever the store has become. *)
Theorem isDuplicate_caches_its_answer `{Platform} (redis : Deduplicator.Redis)
    (db : Store.Database) (url : string) :
  Deduplicator.up redis = true ->
  let answer := DeduplicatorSingle.isDuplicate redis db url in
  match verdict redis (hashUrl url) with
  | Some Deduplicator.cached_exists => fst answer = true
  | Some Deduplicator.cached_new => fst answer = false
  | None => fst answer = true <-> stored db (hashUrl url)
  end
  /\ forall db', DeduplicatorSingle.isDuplicate (snd answer) db' url = answer.
Proof.
  intros Hup. cbv zeta. unfold DeduplicatorSingle.isDuplicate. cbv zeta.
  rewrite checkCache_verdict.
  destruct (verdict redis (hashUrl url)) as [[]|] eqn:Ev; cbn [fst snd].
  - split; [reflexivity|]. intros db'. now rewrite checkCache_verdict, Ev.
  - split; [reflexivity|]. intros db'. now rewrite checkCache_verdict, Ev.
  - split; [apply checkDatabase_stored|]. intros db'.
    rewrite checkCache_verdict.
    destruct (verdict_cacheUrlHash redis (hashUrl url) (hashUrl url)
                (DeduplicatorSingle.checkDatabase db (hashUrl url)) Hup) as [_ ->].
    rewrite decide_True by reflexivity.
    destruct (DeduplicatorSingle.checkDatabase db (hashUrl url)); reflexivity.
Qed.

(** [isDuplicate_caches_its_answer] on the empty cache and the store that
    holds the sample article: the answer, yes, survives the store being
    emptied. *)
Lemma isDuplicate_caches_its_answer_witness :
  let answer := @DeduplicatorSingle.isDuplicate samplePlatform emptyCache storedOnce
                  "https://example.org/a" in
  fst answer = true
  /\ @DeduplicatorSingle.isDuplicate samplePlatform (snd answer) emptyDatabase
       "https://example.org/a" = answer.
Proof.
  destruct (@isDuplicate_caches_its_answer samplePlatform emptyCache storedOnce
              "https://example.org/a" eq_refl) as [Hfirst Hagain].
  split.
  - apply Hfirst. reflexivity.
  - apply Hagain.
Defined.

(** X8.  With the cache up, a URL marked as stored is a duplicate from
    then on, whatever the store holds; and once its cache entry is cleared
    the store decides again. *)
Theorem markAsStored_and_clearCache `{Platform} (redis : Deduplicator.Redis)
    (db : Store.Database) (url : string) :
  Deduplicator.up redis = true ->
  fst (DeduplicatorSingle.isDuplicate (DeduplicatorSingle.markAsStored redis url) db url)
    = true
  /\ exists cleared,
       DeduplicatorSingle.clearCache redis url = Some cleared
       /\ (fst (DeduplicatorSingle.isDuplicate cleared db url) = true
           <-> stored db (hashUrl url)).
Proof.
  intros Hup. split.
  - unfold DeduplicatorSingle.isDuplicate, DeduplicatorSingle.markAsStored. cbv zeta.
    rewrite checkCache_verdict.
    destruct (verdict_cacheUrlHash redis (hashUrl url) (hashUrl url) true Hup) as [_ ->].
    now rewrite decide_True.
  - unfold DeduplicatorSingle.clearCache, DeduplicatorSingle.del. rewrite Hup.
    eexists. split; [reflexivity|].
    unfold DeduplicatorSingle.isDuplicate. cbv zeta. rewrite checkCache_verdict.
    unfold verdict. cbn [Deduplicator.up Deduplicator.entries].
    rewrite lookup_delete_eq. cbn [Deduplicator.classify fst].
    apply checkDatabase_stored.
Qed.

(** [markAsStored_and_clearCache] on the empty cache and the empty
    store. *)
Lemma markAsStored_and_clearCache_witness :
  fst (@DeduplicatorSingle.isDuplicate samplePlatform
         (@DeduplicatorSingle.markAsStored samplePlatform emptyCache "https://example.org/a")
         emptyDatabase "https://example.org/a") = true.
Proof.
  apply (@markAsStored_and_clearCache samplePlatform emptyCache emptyDatabase
           "https://example.org/a" eq_refl).
Defined.

(** X9.  With the cache down, [filterDuplicates] falls back on the store
    for every article: the new articles are those no row carries the hash
    of, in the order of the batch; nothing counts as a cache hit, every
    article as a store check; the cache is left as it was. *)
Theorem filterDuplicates_without_cache (redis : Deduplicator.Redis)
    (db : Store.Database) (arts : list Normalizer.NormalizedArticle) :
  Deduplicator.up redis = false ->
  let out := Deduplicator.filterDuplicates redis db arts in
  fst out = redis
  /\ Deduplicator.newArticles (snd out)
     = filter (fun a => ~ stored db (Normalizer.urlHash a)) arts
  /\ Deduplicator.duplicates (snd out)
     = length (filter (fun a => stored db (Normalizer.urlHash a)) arts)
  /\ Deduplicator.cacheHits (snd out) = 0%nat
  /\ Deduplicator.dbChecks (snd out) = length arts.
Proof.
  intros Hdown. cbv zeta.
  assert (Hv : forall h, verdict redis h = None)
    by (intros h; unfold verdict; now rewrite Hdown).
  destruct (filterDuplicates_spec redis db arts) as (Hnew & Hdup & Hhit & Hdb).
  rewrite Hnew, Hdup, Hhit, Hdb.
  rewrite !(filter_none (cachedAs redis (Some _)))
    by (intros a _; unfold cachedAs; now rewrite Hv).
  rewrite (filter_all (cachedAs redis None)) by (intros a _; apply Hv).
  cbn [app length Nat.add]. split; [|repeat split].
  - unfold Deduplicator.filterDuplicates. cbv zeta.
    destruct (Nat.ltb 0 _); [|reflexivity].
    match goal with
    | |- context [fold_left (Deduplicator.dbStep ?dbr) ?l (redis, ?f, ?d)] =>
        pose proof (dbPass_down dbr l redis f d Hdown) as Hsame;
        destruct (fold_left (Deduplicator.dbStep dbr) l (redis, f, d)) as [[r1 f1] d1]
    end.
    exact Hsame.
  - apply list_filter_iff. intros a. unfold storeNew, cachedAs. rewrite Hv. tauto.
  - f_equal. apply list_filter_iff. intros a. unfold storeDuplicate, cachedAs.
    rewrite Hv. tauto.
Qed.

(** [filterDuplicates_without_cache] on a batch of two articles, none of
    them stored. *)
Lemma filterDuplicates_without_cache_witness :
  Deduplicator.dbChecks
    (snd (Deduplicator.filterDuplicates cacheDown emptyDatabase [articleA; articleB]))
  = 2%nat.
Proof.
  apply (filterDuplicates_without_cache cacheDown emptyDatabase [articleA; articleB] eq_refl).
Defined.

(** X10.  With the cache up, [filterDuplicates] leaves a verdict in the
    cache for every article of the batch.  Run again on the same batch
    with that cache, it asks the store nothing, whatever the store has
    become, counts every article as a cache hit, and returns the same new
    articles, up to their order, and the same number of duplicates. *)
Theorem filterDuplicates_again_needs_no_store (redis : Deduplicator.Redis)
    (db db' : Store.Database) (arts : list Normalizer.NormalizedArticle) :
  Deduplicator.up redis = true ->
  let first := Deduplicator.filterDuplicates redis db arts in
  let again := Deduplicator.filterDuplicates (fst first) db' arts in
  Deduplicator.dbChecks (snd again) = 0%nat
  /\ Deduplicator.cacheHits (snd again) = length arts
  /\ Deduplicator.newArticles (snd again) ≡ₚ Deduplicator.newArticles (snd first)
  /\ Deduplicator.duplicates (snd again) = Deduplicator.duplicates (snd first).
Proof.
  intros Hup. cbv zeta.
  destruct (filterDuplicates_cache redis db arts Hup) as [Hup1 Hv]. cbv zeta in Hup1, Hv.
  set (redis1 := fst (Deduplicator.filterDuplicates redis db arts)) in *.
  destruct (filterDuplicates_spec redis db arts) as (Hnew & Hdup & _ & _).
  destruct (filterDuplicates_spec redis1 db' arts) as (Hnew' & Hdup' & Hhit' & Hdb').
  assert (Hsome : forall a, a ∈ arts -> ~ cachedAs redis1 None a).
  { intros a Ha. unfold cachedAs. rewrite Hv.
    destruct (verdict redis (Normalizer.urlHash a)); [discriminate|].
    rewrite decide_True; [discriminate|].
    apply list_elem_of_fmap. eauto. }
  assert (Hnone : filter (cachedAs redis1 None) arts = []) by (apply filter_none, Hsome).
  assert (Hnone1 : filter (storeNew redis1 db') arts = []).
  { apply filter_none. intros a Ha [Hc _]. exact (Hsome a Ha Hc). }
  assert (Hnone2 : filter (storeDuplicate redis1 db') arts = []).
  { apply filter_none. intros a Ha [Hc _]. exact (Hsome a Ha Hc). }
  assert (Hcase : forall a v, a ∈ arts ->
            cachedAs redis1 (Some v) a <->
            cachedAs redis (Some v) a
            \/ (cachedAs redis None a
                /\ v = if decide (stored db (Normalizer.urlHash a))
                       then Deduplicator.cached_exists else Deduplicator.cached_new)).
  { intros a v Ha. unfold cachedAs. rewrite Hv.
    destruct (verdict redis (Normalizer.urlHash a)) as [w|].
    - split; [auto|]. intros [E|[E _]]; [exact E|discriminate].
    - rewrite decide_True by (apply list_elem_of_fmap; eauto).
      split.
      + intros E. right. split; [reflexivity|]. now injection E.
      + intros [E|[_ ->]]; [discriminate|reflexivity]. }
  rewrite Hdb', Hhit', Hnew', Hdup', Hnew, Hdup, Hnone, Hnone1, Hnone2.
  cbn [length]. rewrite app_nil_r, Nat.add_0_r.
  pose proof (verdict_partition_length redis1 arts) as Hpart. rewrite Hnone in Hpart.
  cbn [length] in Hpart.
  split; [reflexivity|]. split; [lia|]. split.
  - rewrite <- (filter_either (cachedAs redis (Some Deduplicator.cached_new))
                              (storeNew redis db) arts).
    + apply Permutation_refl'. apply filter_ext_elem. intros a Ha.
      rewrite (Hcase a _ Ha). unfold storeNew.
      destruct (decide (stored db (Normalizer.urlHash a))); intuition congruence.
    + unfold storeNew, cachedAs. intros a E [E' _]. congruence.
  - rewrite <- length_app.
    rewrite <- (filter_either (cachedAs redis (Some Deduplicator.cached_exists))
                              (storeDuplicate redis db) arts).
    + f_equal. apply filter_ext_elem. intros a Ha.
      rewrite (Hcase a _ Ha). unfold storeDuplicate.
      destruct (decide (stored db (Normalizer.urlHash a))); intuition congruence.
    + unfold storeDuplicate, cachedAs. intros a E [E' _]. congruence.
Qed.

(** [filterDuplicates_again_needs_no_store] on a batch of two unknown
    articles, the store emptied or not. *)
Lemma filterDuplicates_again_needs_no_store_witness :
  Deduplicator.dbChecks
    (snd (Deduplicator.filterDuplicates
            (fst (Deduplicator.filterDuplicates emptyCache emptyDatabase [articleA; articleB]))
            storedOnce [articleA; articleB]))
  = 0%nat.
Proof.
  apply (filterDuplicates_again_needs_no_store emptyCache emptyDatabase storedOnce
           [articleA; articleB] eq_refl).
Defined.

(** X11.  [filterDuplicates] does not look for duplicates inside the
    batch: of a content hash that the cache does not give as existing and,
    where the cache has no verdict, no row carries, every article of the
    batch is returned as new, however many there are. *)
Theorem filterDuplicates_keeps_repeats (redis : Deduplicator.Redis)
    (db : Store.Database) (arts : list Normalizer.NormalizedArticle) (h : string) :
  verdict redis h <> Some Deduplicator.cached_exists ->
  (verdict redis h = None -> ~ stored db h) ->
  withHash h (Deduplicator.newArticles (snd (Deduplicator.filterDuplicates redis db arts)))
  ≡ₚ withHash h arts.
Proof.
  intros Hnot Hstore.
  destruct (filterDuplicates_spec redis db arts) as (Hnew & _).
  rewrite Hnew. unfold withHash. rewrite filter_app, !list_filter_filter.
  rewrite <- (filter_either
                (fun a => Normalizer.urlHash a = h /\ cachedAs redis (Some Deduplicator.cached_new) a)
                (fun a => Normalizer.urlHash a = h /\ storeNew redis db a) arts).
  - apply Permutation_refl'. apply list_filter_iff. intros a. split; [tauto|].
    intros <-. unfold storeNew, cachedAs.
    destruct (verdict redis (Normalizer.urlHash a)) as [[]|] eqn:Ev.
    + congruence.
    + auto.
    + right. auto.
  - unfold storeNew, cachedAs. intros a [_ E] [_ [E' _]]. congruence.
Qed.

(** [filterDuplicates_keeps_repeats] on a batch that holds the same
    unknown article twice. *)
Lemma filterDuplicates_keeps_repeats_witness :
  withHash "hash-a"
    (Deduplicator.newArticles
       (snd (Deduplicator.filterDuplicates emptyCache emptyDatabase [articleA; articleA])))
  ≡ₚ [articleA; articleA].
Proof.
  apply (filterDuplicates_keeps_repeats emptyCache emptyDatabase [articleA; articleA] "hash-a").
  - discriminate.
  - intros _. vm_compute. discriminate.
Defined.

(** ** Cleaned text *)

Section CleanTextFacts.

Lemma collapseFrom_loose (inRun : bool) (s : string) :
  looseFrom inRun (Js.collapseFrom inRun s) = true.
Proof.
  revert inRun. induction s as [|c r IH]; intros inRun; [reflexivity|].
  cbn [Js.collapseFrom]. destruct (Js.isSpace c) eqn:Ec.
  - destruct inRun; [apply IH|].
    cbn [looseFrom]. change (Js.isSpace " ") with true. cbn. apply IH.
  - cbn [looseFrom]. rewrite Ec. apply IH.
Qed.

Lemma looseFrom_weaken (prev : bool) (s : string) :
  looseFrom prev s = true -> looseFrom false s = true.
Proof.
  destruct s as [|c r]; [reflexivity|]. cbn [looseFrom].
  destruct (Js.isSpace c); [|auto].
  destruct prev; [|auto]. rewrite andb_false_r. discriminate.
Qed.

Lemma trimStart_loose (prev : bool) (s : string) :
  looseFrom prev s = true -> looseFrom true (Js.trimStart s) = true.
Proof.
  revert prev. induction s as [|c r IH]; intros prev; [reflexivity|].
  cbn [Js.trimStart looseFrom]. destruct (Js.isSpace c) eqn:Ec.
  - intros Hs. apply andb_true_iff in Hs. destruct Hs as [_ Hr]. apply (IH true Hr).
  - intros Hs. cbn [looseFrom]. now rewrite Ec.
Qed.

Lemma trimEnd_spaced (prev : bool) (s : string) :
  looseFrom prev s = true ->
  Js.trimEnd s = EmptyString \/ spacedFrom prev (Js.trimEnd s) = true.
Proof.
  revert prev. induction s as [|c r IH]; intros prev Hs; [now left|].
  cbn [looseFrom] in Hs. cbn [Js.trimEnd].
  destruct (Js.isSpace c) eqn:Ec.
  - apply andb_true_iff in Hs. destruct Hs as [Hc Hr].
    destruct (IH true Hr) as [He|Hsp].
    + rewrite He. now left.
    + right. destruct (Js.trimEnd r) as [|d r'] eqn:Er; [discriminate|].
      cbn [spacedFrom]. rewrite Ec, Hc. exact Hsp.
  - right. destruct (IH false Hs) as [He|Hsp].
    + rewrite He. cbn [spacedFrom]. now rewrite Ec.
    + destruct (Js.trimEnd r) as [|d r'] eqn:Er.
      * cbn [spacedFrom]. now rewrite Ec.
      * cbn [spacedFrom]. rewrite Ec. exact Hsp.
Qed.

(** Collapsing white space and trimming gives tidy text. *)
Lemma trim_collapse_tidy (s : string) :
  tidy (Js.trim (Js.collapseSpaces s)) = true.
Proof.
  unfold Js.trim, Js.collapseSpaces.
  pose proof (collapseFrom_loose false s) as H0.
  pose proof (trimStart_loose false _ H0) as H1.
  destruct (trimEnd_spaced true _ H1) as [He|Hsp].
  - now rewrite He.
  - unfold tidy. destruct (Js.trimEnd _); [reflexivity|exact Hsp].
Qed.

Lemma append_length (a b : string) :
  String.length (a +:+ b) = (String.length a + String.length b)%nat.
Proof. induction a as [|c a IH]; simpl; [reflexivity|f_equal; exact IH]. Qed.

Lemma prefix_length (p s : string) :
  String.prefix p s = true -> (String.length p <= String.length s)%nat.
Proof.
  revert s. induction p as [|c p IH]; intros s; [cbn; lia|].
  destruct s as [|d s]; cbn [String.prefix String.length]; [discriminate|].
  destruct (Ascii.ascii_dec c d); [|discriminate].
  intros Hp. apply IH in Hp. lia.
Qed.

Lemma replaceAllFrom_length (pat rep : string) (skip : nat) (s : string) :
  (String.length rep <= String.length pat)%nat -> (1 <= String.length pat)%nat ->
  (String.length (Js.replaceAllFrom pat rep skip s) + Nat.min skip (String.length s)
   <= String.length s)%nat.
Proof.
  intros Hrep Hpat. revert skip. induction s as [|c r IH]; intros skip; [cbn; lia|].
  cbn [Js.replaceAllFrom]. destruct skip as [|k].
  - destruct (String.prefix pat (String c r)) eqn:Ep.
    + apply prefix_length in Ep. cbn [String.length] in *.
      rewrite append_length. specialize (IH (String.length pat - 1)%nat). lia.
    + cbn [String.length]. specialize (IH 0%nat). lia.
  - cbn [String.length]. specialize (IH k). lia.
Qed.

Lemma replaceAll_length (pat rep s : string) :
  (String.length rep <= String.length pat)%nat -> (1 <= String.length pat)%nat ->
  (String.length (Js.replaceAll pat rep s) <= String.length s)%nat.
Proof.
  intros Hrep Hpat. pose proof (replaceAllFrom_length pat rep 0 s Hrep Hpat).
  unfold Js.replaceAll. lia.
Qed.

Lemma collapseFrom_length (inRun : bool) (s : string) :
  (String.length (Js.collapseFrom inRun s) <= String.length s)%nat.
Proof.
  revert inRun. induction s as [|c r IH]; intros inRun; [reflexivity|].
  cbn [Js.collapseFrom]. destruct (Js.isSpace c); [destruct inRun|];
    cbn [String.length]; pose proof (IH true); pose proof (IH false); lia.
Qed.

Lemma trimStart_length (s : string) :
  (String.length (Js.trimStart s) <= String.length s)%nat.
Proof.
  induction s as [|c r IH]; [reflexivity|].
  cbn [Js.trimStart]. destruct (Js.isSpace c); cbn [String.length]; lia.
Qed.

Lemma trimEnd_length (s : string) :
  (String.length (Js.trimEnd s) <= String.length s)%nat.
Proof.
  induction s as [|c r IH]; [reflexivity|].
  cbn [Js.trimEnd]. destruct (Js.trimEnd r) as [|d r'].
  - destruct (Js.isSpace c); cbn [String.length] in *; lia.
  - cbn [String.length] in *. lia.
Qed.

Lemma trim_length (s : string) :
  (String.length (Js.trim s) <= String.length s)%nat.
Proof.
  unfold Js.trim. pose proof (trimEnd_length (Js.trimStart s)).
  pose proof (trimStart_length s). lia.
Qed.

Lemma replaceTagsFrom_length (skip : nat) (s : string) :
  (String.length (Js.replaceTagsFrom skip s) <= String.length s)%nat.
Proof.
  revert skip. induction s as [|c r IH]; intros skip; [reflexivity|].
  cbn [Js.replaceTagsFrom]. destruct skip as [|k].
  - destruct (Ascii.eqb c "<").
    + destruct (Js.indexOfGt r) as [[|i]|]; cbn [String.length];
        pose proof (IH 0%nat); try pose proof (IH (S (S i))); lia.
    + cbn [String.length]. specialize (IH 0%nat). lia.
  - cbn [String.length]. specialize (IH k). lia.
Qed.

Lemma removeElementFrom_length (tag : string) (skip : nat) (s : string) :
  (String.length (Js.removeElementFrom tag skip s) <= String.length s)%nat.
Proof.
  revert skip. induction s as [|c r IH]; intros skip; [reflexivity|].
  cbn [Js.removeElementFrom]. destruct skip as [|k].
  - cbv zeta.
    destruct (_ && _).
    + destruct (Js.indexOfCI _ _) as [i|]; cbn [String.length].
      * match goal with |- context [Js.removeElementFrom tag ?n r] => specialize (IH n) end.
        lia.
      * specialize (IH 0%nat). lia.
    + cbn [String.length]. specialize (IH 0%nat). lia.
  - cbn [String.length]. specialize (IH k). lia.
Qed.

Lemma stripHtml_length (s : string) :
  (String.length (Normalizer.stripHtml s) <= String.length s)%nat.
Proof.
  unfold Normalizer.stripHtml. cbv zeta.
  repeat match goal with
  | |- (String.length (Js.trim ?x) <= _)%nat =>
      etransitivity; [apply trim_length|]
  | |- (String.length (Js.collapseSpaces ?x) <= _)%nat =>
      etransitivity; [apply collapseFrom_length|]
  | |- (String.length (Js.replaceAll ?p ?r ?x) <= _)%nat =>
      etransitivity; [apply replaceAll_length; cbn; lia|]
  | |- (String.length (Js.replaceTags ?x) <= _)%nat =>
      etransitivity; [apply replaceTagsFrom_length|]
  | |- (String.length (Js.removeElement ?t ?x) <= _)%nat =>
      etransitivity; [apply removeElementFrom_length|]
  end.
  reflexivity.
Qed.

Lemma cleanText_length (s : string) :
  (String.length (Normalizer.cleanText s) <= String.length s)%nat.
Proof.
  unfold Normalizer.cleanText.
  etransitivity; [apply trim_length|].
  etransitivity; [apply collapseFrom_length|]. apply stripHtml_length.
Qed.

Lemma cleanText_is_tidy_aux (text : string) : tidy (Normalizer.cleanText text) = true.
Proof. unfold Normalizer.cleanText. apply trim_collapse_tidy. Qed.

End CleanTextFacts.

(** X12.  Whatever the input, the text [cleanText] and [stripHtml] return
    is tidy: it neither starts nor ends with white space, and the only
    white space in it is single plain spaces. *)
Theorem cleanText_is_tidy (text : string) :
  tidy (Normalizer.cleanText text) = true
  /\ tidy (Normalizer.stripHtml text) = true.
Proof.
  split.
  - unfold Normalizer.cleanText. apply trim_collapse_tidy.
  - unfold Normalizer.stripHtml. cbv zeta. apply trim_collapse_tidy.
Qed.

(** X13.  Stripping markup never makes a text longer: every replacement
    of [stripHtml] puts in no more characters than it takes out, and so
    does [cleanText]. *)
Theorem stripHtml_never_lengthens (text : string) :
  (String.length (Normalizer.stripHtml text) <= String.length text)%nat
  /\ (String.length (Normalizer.cleanText text) <= String.length text)%nat.
Proof.
  split; [apply stripHtml_length | apply cleanText_length].
Qed.

(** X14.  What an accepted item becomes: the article carries the source
    it was fetched for, a non-empty external identifier, a tidy title no
    longer than the item's, a tidy lede of at most 500 characters, and a
    publication date, if any, that lies within the last seven days and not
    in the future. *)
Theorem normalizeItem_article_bounds `{Platform} (now : Z) (item : RssFetcher.RSSItem)
    (sourceId sourceName : string) (a : Normalizer.NormalizedArticle) :
  Normalizer.normalizeItem now item sourceId sourceName = Normalizer.Article a ->
  Normalizer.sourceId a = sourceId
  /\ Js.truthy (Normalizer.externalId a) = true
  /\ (exists t, RssFetcher.title item = Some t
                /\ Normalizer.title a = Normalizer.cleanText t
                /\ (String.length (Normalizer.title a) <= String.length t)%nat)
  /\ tidy (Normalizer.title a) = true
  /\ (exists l, Normalizer.lede a = Some l
                /\ tidy l = true /\ (String.length l <= 500)%nat)
  /\ (forall d, Normalizer.publishedAt a = Some d ->
                (now - 7 * Normalizer.MS_PER_DAY <= d <= now)%Z).
Proof.
  unfold Normalizer.normalizeItem.
  destruct (Js.truthy (RssFetcher.link item)); cbn [negb]; [|discriminate].
  destruct (RssFetcher.link item) as [l|]; [|discriminate].
  destruct (RssFetcher.title item) as [t|]; [|discriminate].
  destruct (negb (Js.truthy (Some t)) || Nat.ltb (String.length (Js.trim t)) 5);
    [discriminate|].
  destruct (Normalizer.cleanUrl l) as [u|]; [|discriminate].
  destruct (Js.truthy (Some u)) eqn:Eu; cbn [negb]; [|discriminate].
  destruct (Normalizer.extractLede item) as [lede0|] eqn:Elede; [|discriminate].
  pose proof (firstLede_length _ _ Elede) as Hlen.
  destruct (negb (Js.truthy (Some lede0)) || Nat.ltb (String.length lede0) 30);
    [discriminate|].
  cbv zeta.
  destruct (Normalizer.parseDate now _) as [d|] eqn:Ed.
  - destruct (Normalizer.isOlderThan now d 7) eqn:Eold; [discriminate|].
    intros [= <-]. cbn.
    split; [reflexivity|]. split.
    { unfold Js.orElse. destruct (Js.truthy (RssFetcher.guid item)) eqn:Eg; assumption. }
    split; [exists t; repeat split; apply cleanText_length|].
    split; [apply cleanText_is_tidy_aux|].
    split.
    { eexists. split; [reflexivity|]. split; [apply cleanText_is_tidy_aux|].
      pose proof (cleanText_length lede0). lia. }
    intros d' [= <-]. unfold Normalizer.isOlderThan in Eold. apply Z.ltb_ge in Eold.
    split; [exact Eold|].
    unfold Normalizer.parseDate in Ed.
    destruct (negb (Js.truthy _)); [discriminate|].
    destruct (Js.orElse _ _) as [s|]; [|discriminate].
    destruct (dateParse s) as [date|]; [|discriminate].
    destruct (Z.ltb_spec now date); injection Ed as <-; lia.
  - intros [= <-]. cbn.
    split; [reflexivity|]. split.
    { unfold Js.orElse. destruct (Js.truthy (RssFetcher.guid item)) eqn:Eg; assumption. }
    split; [exists t; repeat split; apply cleanText_length|].
    split; [apply cleanText_is_tidy_aux|].
    split.
    { eexists. split; [reflexivity|]. split; [apply cleanText_is_tidy_aux|].
      pose proof (cleanText_length lede0). lia. }
    discriminate.
Qed.

(** [normalizeItem_article_bounds] on the sample item with markup in its
    title. *)
Lemma normalizeItem_article_bounds_witness :
  exists a,
    @Normalizer.normalizeItem samplePlatform 0 markupTitleItem "src-1" "Example"
      = Normalizer.Article a
    /\ Normalizer.sourceId a = "src-1"
    /\ tidy (Normalizer.title a) = true.
Proof.
  eexists. split; [vm_compute; reflexivity|].
  pose proof (@normalizeItem_article_bounds samplePlatform 0 markupTitleItem "src-1" "Example"
                _ eq_refl) as (Hs & _ & _ & Ht & _).
  split; [exact Hs | exact Ht].
Defined.

(** ** Skipped items *)

Section ReasonFacts.
Import Normalizer.

Lemma totalCount_swap (j1 j2 : string) (z1 z2 y : nat) :
  (z1 + (z2 + y) = z2 + (z1 + y))%nat.
Proof. lia. Qed.

Lemma totalCount_countReason (r : Reason) (m : gmap string nat) :
  totalCount (countReason r m) = S (totalCount m).
Proof.
  unfold totalCount, countReason.
  destruct (m !! reasonName r) as [n|] eqn:E; cbn [default].
  - rewrite <- (insert_delete_eq m).
    rewrite map_fold_insert_L;
      [|intros; apply totalCount_swap; assumption|apply lookup_delete_eq].
    rewrite (map_fold_delete_L _ _ (reasonName r) n m);
      [|intros; apply totalCount_swap; assumption|exact E].
    unfold Datatypes.id. lia.
  - rewrite map_fold_insert_L;
      [|intros; apply totalCount_swap; assumption|exact E].
    lia.
Qed.

Lemma normalizeLoop_reasons `{Platform} now items sourceId0 sourceName acc :
  let r := normalizeLoop now items sourceId0 sourceName acc in
  (totalCount (reasons r) + skipped acc = totalCount (reasons acc) + skipped r)%nat.
Proof.
  revert acc. induction items as [|item items IH]; intros acc; cbn [normalizeLoop];
    [reflexivity|].
  cbv zeta.
  destruct (normalizeItem now item sourceId0 sourceName) as [a|reason].
  - specialize (IH {| articles := articles acc ++ [a]; skipped := skipped acc;
                      reasons := reasons acc |}).
    cbv zeta in IH. cbn [skipped reasons] in IH. exact IH.
  - specialize (IH {| articles := articles acc; skipped := S (skipped acc);
                      reasons := countReason reason (reasons acc) |}).
    cbv zeta in IH. cbn [skipped reasons] in IH.
    rewrite totalCount_countReason in IH. lia.
Qed.

End ReasonFacts.

(** X15.  [normalizeItems] accounts for every item: each one either
    becomes an article or is counted as skipped, and the counts kept per
    reason add up to the number of skipped items. *)
Theorem normalizeItems_accounts_for_every_item `{Platform} (now : Z)
    (items : list RssFetcher.RSSItem) (sourceId sourceName : string) :
  let r := Normalizer.normalizeItems now items sourceId sourceName in
  (length (Normalizer.articles r) + Normalizer.skipped r = length items)%nat
  /\ totalCount (Normalizer.reasons r) = Normalizer.skipped r.
Proof.
  cbv zeta. unfold Normalizer.normalizeItems. split.
  - destruct (normalizeLoop_articles now items sourceId sourceName
                {| Normalizer.articles := []; Normalizer.skipped := 0;
                   Normalizer.reasons := ∅ |}) as [_ Hn].
    cbn [Normalizer.articles Normalizer.skipped length] in Hn. lia.
  - pose proof (normalizeLoop_reasons now items sourceId sourceName
                  {| Normalizer.articles := []; Normalizer.skipped := 0;
                     Normalizer.reasons := ∅ |}) as Hr.
    cbv zeta in Hr. cbn [Normalizer.skipped Normalizer.reasons] in Hr.
    unfold totalCount at 2 in Hr. rewrite map_fold_empty in Hr. lia.
Qed.

(** ** Topic matcher, edge cases *)

Lemma includes_empty (s : string) : Js.includes s "" = true.
Proof. destruct s; reflexivity. Qed.

(** X16.  A topic with an empty keyword matches every article, a topic
    without keywords matches none, and the identifiers returned follow the
    order of the topics. *)
Theorem checkAgainstTopics_edge_cases (a : Normalizer.NormalizedArticle)
    (topics : list Normalizer.TopicKeywords) :
  (forall topic, In topic topics -> In "" (Normalizer.keywords topic) ->
                 In (Normalizer.id topic) (Normalizer.checkAgainstTopics a topics))
  /\ ((forall topic, In topic topics -> Normalizer.keywords topic = []) ->
      Normalizer.checkAgainstTopics a topics = [])
  /\ sublist (Normalizer.checkAgainstTopics a topics) (map Normalizer.id topics).
Proof.
  split; [|split].
  - intros topic Hin Hk. apply checkAgainstTopics_In. exists topic.
    split; [exact Hin|]. split; [reflexivity|].
    apply quickRelevanceCheck_spec. exists "". split; [exact Hk|].
    unfold matchesKeyword. apply includes_substring, includes_empty.
  - induction topics as [|t rest IH]; intros Hk; [reflexivity|].
    cbn [Normalizer.checkAgainstTopics]. rewrite (Hk t) by now left.
    cbn. apply IH. intros topic Hin. apply Hk. now right.
  - induction topics as [|t rest IH]; [constructor|].
    cbn [Normalizer.checkAgainstTopics map].
    destruct (Normalizer.quickRelevanceCheck a (Normalizer.keywords t)).
    + now apply sublist_skip.
    + now apply sublist_cons.
Qed.

(** ** String utilities of the shared package *)

Section TextUtilsFacts.
Import TextUtils.

Lemma sliceTo_length (n : nat) (s : string) :
  String.length (Js.sliceTo n s) = Nat.min n (String.length s).
Proof. apply substring_length. Qed.

Lemma sliceTo_prefix (n : nat) (s : string) :
  String.prefix (Js.sliceTo n s) s = true.
Proof.
  unfold Js.sliceTo. revert s. induction n as [|n IH]; intros s.
  - destruct s; reflexivity.
  - destruct s as [|c s]; [reflexivity|]. cbn [String.substring String.prefix].
    destruct (Ascii.ascii_dec c c); [apply IH|congruence].
Qed.

Lemma sliceToZ_prefix (e : Z) (s : string) :
  String.prefix (sliceToZ e s) s = true.
Proof. unfold sliceToZ. destruct (e <? 0)%Z; apply sliceTo_prefix. Qed.

Lemma sliceToZ_length (e : Z) (s : string) :
  Z.of_nat (String.length (sliceToZ e s)) =
  if (e <? 0)%Z then Z.max (Z.of_nat (String.length s) + e) 0
  else Z.min e (Z.of_nat (String.length s)).
Proof.
  unfold sliceToZ. destruct (Z.ltb_spec e 0); rewrite sliceTo_length; lia.
Qed.

(** A prefix of loosely tidy text is loosely tidy. *)
Lemma looseFrom_prefix (prev : bool) (p s : string) :
  String.prefix p s = true -> looseFrom prev s = true -> looseFrom prev p = true.
Proof.
  revert prev s. induction p as [|c p IH]; intros prev s Hp Hs; [reflexivity|].
  destruct s as [|d s]; [discriminate|]. cbn [String.prefix] in Hp.
  destruct (Ascii.ascii_dec c d) as [->|]; [|discriminate].
  cbn [looseFrom] in *. destruct (Js.isSpace d).
  - apply andb_true_iff in Hs. destruct Hs as [Hd Hs].
    apply andb_true_iff. split; [exact Hd|exact (IH _ _ Hp Hs)].
  - exact (IH _ _ Hp Hs).
Qed.

Lemma spacedFrom_loose (prev : bool) (s : string) :
  spacedFrom prev s = true -> looseFrom prev s = true.
Proof.
  revert prev. induction s as [|c r IH]; intros prev; [reflexivity|].
  cbn [spacedFrom looseFrom]. destruct (Js.isSpace c); [|apply IH].
  intros Hs. apply andb_true_iff in Hs. destruct Hs as [Hc Hr].
  apply andb_true_iff. split; [exact Hc|apply IH, Hr].
Qed.

(** Loosely tidy text followed by an ellipsis is tidy. *)
Lemma looseFrom_ellipsis (prev : bool) (s : string) :
  looseFrom prev s = true -> spacedFrom prev (s +:+ "...") = true.
Proof.
  revert prev. induction s as [|c r IH]; intros prev Hs; [reflexivity|].
  cbn [looseFrom] in Hs.
  change (String c r +:+ "...") with (String c (r +:+ "...")). cbn [spacedFrom].
  destruct (Js.isSpace c).
  - apply andb_true_iff in Hs. destruct Hs as [Hc Hr].
    apply andb_true_iff. split; [exact Hc|apply IH, Hr].
  - apply IH, Hs.
Qed.

Lemma tidy_truncate (s : string) (m : Z) :
  tidy s = true -> tidy (truncate s m) = true.
Proof.
  intros Hs. unfold truncate. destruct (_ <=? m)%Z; [exact Hs|].
  assert (Hl : looseFrom true s = true).
  { destruct s; [reflexivity|]. apply spacedFrom_loose, Hs. }
  pose proof (looseFrom_prefix true _ _ (sliceToZ_prefix (m - 3) s) Hl) as Hp.
  apply looseFrom_ellipsis in Hp. unfold tidy.
  destruct (sliceToZ (m - 3) s +:+ "..."); [reflexivity|exact Hp].
Qed.

Lemma truncate_length_le (s : string) (m : Z) :
  (3 <= m)%Z -> (Z.of_nat (String.length (truncate s m)) <= m)%Z.
Proof.
  intros Hm. unfold truncate. destruct (Z.leb_spec (Z.of_nat (String.length s)) m); [lia|].
  rewrite append_length, Nat2Z.inj_add, sliceToZ_length.
  destruct (Z.ltb_spec (m - 3) 0); cbn [String.length]; lia.
Qed.

End TextUtilsFacts.

(** X17.  [truncate] leaves a text that fits as it is and cuts a longer
    one down to a prefix followed by three dots; from [maxLength] 3 on the
    result is never longer than [maxLength] and a cut text is exactly that
    long; below 3 a cut text comes out longer than [maxLength]. *)
Theorem truncate_fits_from_three (text : string) (maxLength : Z) :
  let len := Z.of_nat (String.length text) in
  let out := TextUtils.truncate text maxLength in
  ((len <= maxLength)%Z -> out = text)
  /\ ((maxLength < len)%Z ->
      exists kept, out = kept +:+ "..." /\ String.prefix kept text = true)
  /\ ((3 <= maxLength)%Z -> (Z.of_nat (String.length out) <= maxLength)%Z)
  /\ ((3 <= maxLength < len)%Z -> Z.of_nat (String.length out) = maxLength)
  /\ ((maxLength < 3)%Z -> (maxLength < len)%Z ->
      (maxLength < Z.of_nat (String.length out))%Z).
Proof.
  cbv zeta. unfold TextUtils.truncate.
  destruct (Z.leb_spec (Z.of_nat (String.length text)) maxLength) as [Hfit|Hcut].
  - split; [reflexivity|]. split; [lia|]. split; [lia|]. split; lia.
  - split; [lia|]. split.
    { intros _. exists (TextUtils.sliceToZ (maxLength - 3) text).
      split; [reflexivity|apply sliceToZ_prefix]. }
    rewrite append_length, Nat2Z.inj_add, sliceToZ_length. cbn [String.length].
    destruct (Z.ltb_spec (maxLength - 3) 0); repeat split; lia.
Qed.

(** X18.  The lede the shared [extractLede] returns is tidy, truncated or
    not, and from a [maxLength] of 3 on, the default 500 included, it is
    never longer than [maxLength]. *)
Theorem shared_extractLede_is_tidy_and_bounded (html : string) (maxLength : option Z) :
  let m := match maxLength with Some m => m | None => 500%Z end in
  tidy (TextUtils.extractLede html maxLength) = true
  /\ ((3 <= m)%Z ->
      (Z.of_nat (String.length (TextUtils.extractLede html maxLength)) <= m)%Z).
Proof.
  cbv zeta. unfold TextUtils.extractLede. cbv zeta. split.
  - apply tidy_truncate, trim_collapse_tidy.
  - apply truncate_length_le.
Qed.

Section SlugFacts.
Import TextUtils.

Lemma dash_not_slugChar (c : ascii) : isDash c = true -> isSlugChar c = false.
Proof. unfold isDash. intros Hc. apply Ascii.eqb_eq in Hc. now subst c. Qed.

Lemma dashRunsFrom_loose (inRun : bool) (s : string) :
  looseDashedFrom inRun (dashRunsFrom inRun s) = true.
Proof.
  revert inRun. induction s as [|c r IH]; intros inRun; [reflexivity|].
  cbn [dashRunsFrom]. destruct (isSlugChar c) eqn:Ec.
  - cbn [looseDashedFrom]. rewrite Ec. apply IH.
  - destruct inRun; [apply IH|].
    cbn [looseDashedFrom]. change (isSlugChar "-") with false.
    change (isDash "-") with true. cbn [andb negb]. apply IH.
Qed.

Lemma dropLeadingDashes_loose (prev : bool) (s : string) :
  looseDashedFrom prev s = true -> looseDashedFrom true (dropLeadingDashes s) = true.
Proof.
  revert prev. induction s as [|c r IH]; intros prev; [reflexivity|].
  cbn [dropLeadingDashes looseDashedFrom]. destruct (isDash c) eqn:Ed.
  - rewrite (dash_not_slugChar c Ed). intros Hs.
    apply andb_true_iff in Hs. destruct Hs as [_ Hr]. apply (IH true Hr).
  - destruct (isSlugChar c) eqn:Ec; [|discriminate].
    intros Hs. cbn [looseDashedFrom]. now rewrite Ec.
Qed.

Lemma dropTrailingDashes_dashed (prev : bool) (s : string) :
  looseDashedFrom prev s = true ->
  dropTrailingDashes s = EmptyString \/ dashedFrom prev (dropTrailingDashes s) = true.
Proof.
  revert prev. induction s as [|c r IH]; intros prev Hs; [now left|].
  cbn [looseDashedFrom] in Hs. cbn [dropTrailingDashes].
  destruct (isSlugChar c) eqn:Ec.
  - right. assert (Hd : isDash c = false).
    { destruct (isDash c) eqn:Ed; [|reflexivity].
      rewrite (dash_not_slugChar c Ed) in Ec. discriminate. }
    destruct (IH false Hs) as [He|Hsp].
    + rewrite He, Hd. cbn [dashedFrom]. now rewrite Ec.
    + destruct (dropTrailingDashes r) as [|d r'] eqn:Er.
      * rewrite Hd. cbn [dashedFrom]. now rewrite Ec.
      * cbn [dashedFrom]. rewrite Ec. exact Hsp.
  - apply andb_true_iff in Hs. destruct Hs as [Hc Hr].
    apply andb_true_iff in Hc. destruct Hc as [Hdash Hprev].
    destruct (IH true Hr) as [He|Hsp].
    + rewrite He, Hdash. now left.
    + right. destruct (dropTrailingDashes r) as [|d r'] eqn:Er; [discriminate|].
      cbn [dashedFrom]. rewrite Ec, Hdash, Hprev. exact Hsp.
Qed.

Lemma slugify_isSlug (text : string) : isSlug (slugify text) = true.
Proof.
  unfold slugify, stripDashes, dashRuns.
  pose proof (dashRunsFrom_loose false (unaccent (Js.toLowerCase text))) as H0.
  pose proof (dropLeadingDashes_loose false _ H0) as H1.
  destruct (dropTrailingDashes_dashed true _ H1) as [He|Hsp].
  - now rewrite He.
  - unfold isSlug. destruct (dropTrailingDashes _); [reflexivity|exact Hsp].
Qed.

Lemma slugChar_fixed (c : ascii) :
  isSlugChar c || isDash c = true -> Js.lowerChar c = c /\ unaccentChar c = c.
Proof.
  destruct c as [[] [] [] [] [] [] [] []]; intros Hc; try discriminate Hc;
    split; reflexivity.
Qed.

Lemma dashedFrom_chars (prev : bool) (s : string) :
  dashedFrom prev s = true -> Js.toLowerCase s = s /\ unaccent s = s.
Proof.
  revert prev. induction s as [|c r IH]; intros prev Hs; [split; reflexivity|].
  cbn [dashedFrom] in Hs. cbn [Js.toLowerCase unaccent].
  assert (Hc : isSlugChar c || isDash c = true).
  { destruct (isSlugChar c); [reflexivity|].
    apply andb_true_iff in Hs. destruct Hs as [Hs _].
    apply andb_true_iff in Hs. destruct Hs as [Hs _]. exact Hs. }
  destruct (slugChar_fixed c Hc) as [-> ->].
  assert (Hr : exists b, dashedFrom b r = true).
  { destruct (isSlugChar c); [eauto|].
    apply andb_true_iff in Hs. destruct Hs as [_ Hs]. eauto. }
  destruct Hr as [b Hr]. destruct (IH b Hr) as [-> ->]. split; reflexivity.
Qed.

Lemma dashedFrom_dashRuns (prev b : bool) (s : string) :
  dashedFrom prev s = true -> (prev = false -> b = false) ->
  dashRunsFrom b s = s.
Proof.
  revert prev b. induction s as [|c r IH]; intros prev b Hs Hb; [reflexivity|].
  cbn [dashedFrom] in Hs. cbn [dashRunsFrom]. destruct (isSlugChar c).
  - f_equal. apply (IH false false Hs). reflexivity.
  - apply andb_true_iff in Hs. destruct Hs as [Hc Hr].
    apply andb_true_iff in Hc. destruct Hc as [Hdash Hprev].
    apply negb_true_iff in Hprev. rewrite (Hb Hprev).
    unfold isDash in Hdash. apply Ascii.eqb_eq in Hdash. subst c.
    f_equal. apply (IH true true Hr). discriminate.
Qed.

Lemma dashedFrom_dropTrailing (prev : bool) (s : string) :
  dashedFrom prev s = true -> dropTrailingDashes s = s.
Proof.
  revert prev. induction s as [|c r IH]; intros prev Hs; [reflexivity|].
  cbn [dashedFrom] in Hs. cbn [dropTrailingDashes].
  destruct (isSlugChar c) eqn:Ec.
  - rewrite (IH false Hs). destruct r as [|d r']; [|reflexivity].
    destruct (isDash c) eqn:Ed; [|reflexivity].
    rewrite (dash_not_slugChar c Ed) in Ec. discriminate.
  - apply andb_true_iff in Hs. destruct Hs as [_ Hr].
    rewrite (IH true Hr). destruct r as [|d r']; [discriminate|reflexivity].
Qed.

Lemma isSlug_slugify_fixed (s : string) : isSlug s = true -> slugify s = s.
Proof.
  destruct s as [|c r]; [reflexivity|]. unfold isSlug. intros Hs.
  unfold slugify, stripDashes, dashRuns.
  destruct (dashedFrom_chars true _ Hs) as [-> ->].
  rewrite (dashedFrom_dashRuns true false _ Hs) by discriminate.
  assert (Hlead : dropLeadingDashes (String c r) = String c r).
  { cbn [dropLeadingDashes]. cbn [dashedFrom] in Hs.
    destruct (isDash c) eqn:Ed; [|reflexivity].
    rewrite (dash_not_slugChar c Ed) in Hs. cbn in Hs. discriminate. }
  rewrite Hlead. apply (dashedFrom_dropTrailing true _ Hs).
Qed.

End SlugFacts.

(** X19.  Whatever the text, [slugify] returns a slug: only the
    characters a to z, 0 to 9 and dash, no dash at either end and no two
    dashes in a row; and a slug is left as it is, so that [slugify] applied
    twice is [slugify]. *)
Theorem slugify_gives_a_slug (text : string) :
  isSlug (TextUtils.slugify text) = true
  /\ TextUtils.slugify (TextUtils.slugify text) = TextUtils.slugify text.
Proof.
  pose proof (slugify_isSlug text) as Hs. split; [exact Hs|].
  apply isSlug_slugify_fixed, Hs.
Qed.

Section HashtagFacts.
Import TextUtils.

Lemma tagRun_idem (s : string) : tagRun (tagRun s) = tagRun s.
Proof.
  induction s as [|c r IH]; [reflexivity|]. cbn [tagRun].
  destruct (isTagChar c) eqn:Ec; [|reflexivity]. cbn [tagRun]. now rewrite Ec, IH.
Qed.

Lemma tagRun_prefix (s : string) : String.prefix (tagRun s) s = true.
Proof.
  induction s as [|c r IH]; [reflexivity|]. cbn [tagRun].
  destruct (isTagChar c); [|reflexivity]. cbn [String.prefix].
  destruct (Ascii.ascii_dec c c); [exact IH|congruence].
Qed.

Lemma includes_cons (c : ascii) (r k : string) :
  Js.includes r k = true -> Js.includes (String c r) k = true.
Proof.
  intros Hr. change (Js.includes (String c r) k)
    with (String.prefix k (String c r) || Js.includes r k).
  rewrite Hr. apply orb_true_r.
Qed.

Lemma includes_prefix (s k : string) :
  String.prefix k s = true -> Js.includes s k = true.
Proof.
  intros Hp. destruct s as [|c r].
  - change (Js.includes "" k) with (String.prefix k "" || false). now rewrite Hp.
  - change (Js.includes (String c r) k)
      with (String.prefix k (String c r) || Js.includes r k). now rewrite Hp.
Qed.

Lemma hashtagsFrom_shape (skip : nat) (s t : string) :
  In t (hashtagsFrom skip s) -> isHashtag t = true /\ Js.includes s t = true.
Proof.
  revert skip. induction s as [|c r IH]; intros skip; [intros []|].
  cbn [hashtagsFrom]. destruct skip as [|k].
  - destruct (Ascii.eqb c "#" && Nat.ltb 0 (String.length (tagRun r))) eqn:Em.
    + intros [<-|Hin].
      * apply andb_true_iff in Em. destruct Em as [Hc Hlen]. split.
        -- unfold isHashtag. rewrite Hc, Hlen, tagRun_idem, String.eqb_refl. reflexivity.
        -- apply includes_prefix. cbn [String.prefix].
           destruct (Ascii.ascii_dec c c); [apply tagRun_prefix|congruence].
      * destruct (IH _ Hin) as [Ht Hi]. split; [exact Ht|apply includes_cons, Hi].
    + intros Hin. destruct (IH _ Hin) as [Ht Hi]. split; [exact Ht|apply includes_cons, Hi].
  - intros Hin. destruct (IH _ Hin) as [Ht Hi]. split; [exact Ht|apply includes_cons, Hi].
Qed.

Lemma existsb_eqb_In (x : string) (l : list string) :
  existsb (String.eqb x) l = true <-> In x l.
Proof.
  rewrite existsb_exists. split.
  - intros (y & Hy & Hxy). apply String.eqb_eq in Hxy. now subst y.
  - intros Hx. exists x. split; [exact Hx|apply String.eqb_refl].
Qed.

Lemma uniqueFrom_spec (seen l : list string) :
  List.NoDup (uniqueFrom seen l)
  /\ forall x, In x (uniqueFrom seen l) <-> In x l /\ ~ In x seen.
Proof.
  revert seen. induction l as [|a l IH]; intros seen.
  - cbn. split; [constructor|]. tauto.
  - cbn [uniqueFrom]. destruct (existsb (String.eqb a) seen) eqn:Ea.
    + apply existsb_eqb_In in Ea. destruct (IH seen) as [Hnd Hin].
      split; [exact Hnd|]. intros x. rewrite Hin. cbn [In].
      split; [tauto|]. intros [[<-|Hx] Hs]; tauto.
    + assert (Hna : ~ In a seen).
      { intros Hin. apply existsb_eqb_In in Hin. congruence. }
      destruct (IH (a :: seen)) as [Hnd Hin]. split.
      * constructor; [|exact Hnd]. rewrite Hin. cbn [In]. tauto.
      * intros x. cbn [In]. rewrite Hin. cbn [In].
        destruct (String.string_dec a x) as [->|Hne]; tauto.
Qed.

Lemma tagRun_maximal (s : string) :
  headNotTag (dropChars (String.length (tagRun s)) s) = true.
Proof.
  induction s as [|c r IH]; [reflexivity|]. cbn [tagRun].
  destruct (isTagChar c) eqn:Ec.
  - cbn [String.length dropChars]. exact IH.
  - cbn [String.length dropChars headNotTag]. now rewrite Ec.
Qed.

Lemma hashFree_weaken (prev : bool) (s : string) :
  hashFree true s = true -> hashFree prev s = true.
Proof.
  destruct s as [|c r]; [reflexivity|]. cbn [hashFree].
  destruct prev; [auto|]. intros Hs. apply andb_true_iff in Hs. destruct Hs as [_ Hr].
  exact Hr.
Qed.

Lemma hashFree_true (s : string) :
  hashFree false s = true -> headNotTag s = true -> hashFree true s = true.
Proof.
  destruct s as [|c r]; [reflexivity|]. cbn [hashFree headNotTag andb].
  intros Hr Hc. rewrite Hc. exact Hr.
Qed.

Lemma dropHashtagsFrom_hashFree (skip : nat) (prev : bool) (s : string) :
  (prev = true \/ (0 < skip)%nat -> headNotTag (dropChars skip s) = true) ->
  hashFree prev (dropHashtagsFrom skip s) = true.
Proof.
  revert skip prev. induction s as [|c r IH]; intros skip prev Hpre; [reflexivity|].
  cbn [dropHashtagsFrom]. destruct skip as [|k].
  - destruct (Ascii.eqb c "#" && Nat.ltb 0 (String.length (tagRun r))) eqn:Em.
    + apply hashFree_weaken. apply IH. intros _. apply tagRun_maximal.
    + cbn [hashFree]. apply andb_true_iff. split.
      * destruct prev; [|reflexivity]. cbn [andb].
        specialize (Hpre (or_introl eq_refl)). exact Hpre.
      * apply IH. intros [Hc|Hk]; [|lia].
        rewrite Hc in Em. cbn [andb] in Em. apply Nat.ltb_ge in Em.
        cbn [dropChars]. destruct r as [|d r']; [reflexivity|].
        cbn [headNotTag]. cbn [tagRun] in Em.
        destruct (isTagChar d); [cbn in Em; lia|reflexivity].
  - apply hashFree_weaken. apply IH. intros _.
    specialize (Hpre (or_intror (Nat.lt_0_succ k))). cbn [dropChars] in Hpre.
    destruct k; exact Hpre.
Qed.

Lemma space_not_tagChar (c : ascii) : Js.isSpace c = true -> isTagChar c = false.
Proof.
  destruct c as [[] [] [] [] [] [] [] []]; intros Hc; try discriminate Hc; reflexivity.
Qed.

Lemma hash_not_space (c : ascii) : Ascii.eqb c "#" = true -> Js.isSpace c = false.
Proof. intros Hc. apply Ascii.eqb_eq in Hc. now subst c. Qed.

Lemma collapseFrom_hashFree (inRun prev : bool) (s : string) :
  (inRun = true -> prev = false) ->
  hashFree prev s = true -> hashFree prev (Js.collapseFrom inRun s) = true.
Proof.
  revert inRun prev. induction s as [|c r IH]; intros inRun prev Hrun Hs; [reflexivity|].
  cbn [hashFree] in Hs. apply andb_true_iff in Hs. destruct Hs as [Hc Hr].
  cbn [Js.collapseFrom]. destruct (Js.isSpace c) eqn:Esp.
  - assert (Eh : Ascii.eqb c "#" = false).
    { destruct (Ascii.eqb c "#") eqn:E; [|reflexivity].
      rewrite (hash_not_space c E) in Esp. discriminate. }
    rewrite Eh in Hr. destruct inRun.
    + rewrite (Hrun eq_refl). apply IH; [reflexivity|exact Hr].
    + cbn [hashFree]. change (isTagChar " ") with false. rewrite andb_false_r.
      cbn [negb andb]. change (Ascii.eqb " " "#") with false.
      apply IH; [reflexivity|exact Hr].
  - cbn [hashFree]. rewrite Hc. cbn [andb]. apply IH; [discriminate|exact Hr].
Qed.

Lemma trimStart_hashFree (s : string) :
  hashFree false s = true -> hashFree false (Js.trimStart s) = true.
Proof.
  induction s as [|c r IH]; intros Hs; [reflexivity|].
  cbn [Js.trimStart]. destruct (Js.isSpace c) eqn:Esp; [|exact Hs].
  cbn [hashFree andb negb] in Hs.
  destruct (Ascii.eqb c "#") eqn:E.
  - rewrite (hash_not_space c E) in Esp. discriminate.
  - apply IH, Hs.
Qed.

Lemma trimEnd_hashFree (prev : bool) (s : string) :
  hashFree prev s = true -> hashFree prev (Js.trimEnd s) = true.
Proof.
  revert prev. induction s as [|c r IH]; intros prev Hs; [reflexivity|].
  cbn [hashFree] in Hs. apply andb_true_iff in Hs. destruct Hs as [Hc Hr].
  cbn [Js.trimEnd]. specialize (IH _ Hr).
  destruct (Js.trimEnd r) as [|d r'].
  - destruct (Js.isSpace c); [reflexivity|]. cbn [hashFree]. now rewrite Hc.
  - cbn [hashFree] in *. now rewrite Hc, IH.
Qed.

Lemma hashFree_no_hashtags (skip : nat) (prev : bool) (s : string) :
  hashFree prev s = true -> hashtagsFrom skip s = [].
Proof.
  revert skip prev. induction s as [|c r IH]; intros skip prev Hs; [reflexivity|].
  cbn [hashFree] in Hs. apply andb_true_iff in Hs. destruct Hs as [_ Hr].
  cbn [hashtagsFrom]. destruct skip as [|k]; [|apply (IH _ _ Hr)].
  destruct (Ascii.eqb c "#") eqn:Ec; cbn [andb]; [|apply (IH _ _ Hr)].
  destruct r as [|d r']; [reflexivity|].
  cbn [hashFree andb] in Hr. apply andb_true_iff in Hr. destruct Hr as [Hd Hr'].
  apply negb_true_iff in Hd. cbn [tagRun]. rewrite Hd. cbn [String.length Nat.ltb Nat.leb].
  apply (IH 0%nat true). cbn [hashFree andb]. rewrite Hd. exact Hr'.
Qed.

End HashtagFacts.

Section HashtagOccurrences.
Import TextUtils.

Lemma isTagChar_tagCharacter (c : ascii) : isTagChar c = true <-> tagCharacter c.
Proof.
  unfold isTagChar, tagCharacter, Js.isWordChar, Js.codeUnit. cbv zeta.
  rewrite !orb_true_iff, !andb_true_iff, !Nat.leb_le, Nat.eqb_eq. tauto.
Qed.

Lemma hash_not_tagCharacter : ~ tagCharacter "#".
Proof.
  unfold tagCharacter. cbv zeta. change (nat_of_ascii "#") with 35%nat. lia.
Qed.

(** A run of tag characters followed by none is the run [tagRun] reads. *)
Lemma tagRun_unique (run after : string) :
  (forall c, In c (list_ascii_of_string run) -> tagCharacter c) ->
  match after with EmptyString => True | String c _ => ~ tagCharacter c end ->
  tagRun (run +:+ after) = run.
Proof.
  intros Hrun Hafter. induction run as [|c run IH].
  - change ("" +:+ after) with after.
    destruct after as [|d after]; [reflexivity|]. cbn [tagRun].
    destruct (isTagChar d) eqn:Ed; [|reflexivity].
    apply isTagChar_tagCharacter in Ed. contradiction.
  - change (String c run +:+ after) with (String c (run +:+ after)). cbn [tagRun].
    assert (Hc : isTagChar c = true).
    { apply isTagChar_tagCharacter, Hrun. now left. }
    rewrite Hc. f_equal. apply IH. intros d Hd. apply Hrun. now right.
Qed.

Lemma tagRun_split (s : string) :
  exists after, s = tagRun s +:+ after
    /\ (forall c, In c (list_ascii_of_string (tagRun s)) -> tagCharacter c)
    /\ match after with EmptyString => True | String c _ => ~ tagCharacter c end.
Proof.
  induction s as [|c r (after & Hs & Hrun & Hafter)].
  - exists "". cbn. repeat split. intros c [].
  - cbn [tagRun]. destruct (isTagChar c) eqn:Ec.
    + exists after. split; [|split].
      * change (String c (tagRun r) +:+ after) with (String c (tagRun r +:+ after)).
        now rewrite <- Hs.
      * intros d [<-|Hd]; [now apply isTagChar_tagCharacter|now apply Hrun].
      * exact Hafter.
    + exists (String c r). split; [reflexivity|]. split; [intros d []|].
      intros Hc. apply isTagChar_tagCharacter in Hc. congruence.
Qed.

(** A hashtag of [String c r] starts at [c] or is a hashtag of [r]. *)
Lemma hashtagOf_cons (c : ascii) (r t : string) :
  hashtagOf (String c r) t <->
  (c = "#"%char /\ t = String "#" (tagRun r) /\ tagRun r <> "") \/ hashtagOf r t.
Proof.
  split.
  - intros (before & run & after & Htext & Ht & Hne & Hrun & Hafter).
    destruct before as [|b before].
    + left. change ("" +:+ "#" +:+ run +:+ after) with (String "#" (run +:+ after)) in Htext.
      injection Htext as -> ->.
      rewrite (tagRun_unique _ _ Hrun Hafter). auto.
    + right.
      change (String b before +:+ "#" +:+ run +:+ after)
        with (String b (before +:+ "#" +:+ run +:+ after)) in Htext.
      injection Htext as _ ->.
      exists before, run, after. auto.
  - intros [(Hc & Ht & Hne) | (before & run & after & Htext & Hrest)].
    + destruct (tagRun_split r) as (after & Hr & Hrun & Hafter).
      exists "", (tagRun r), after. subst c.
      change ("" +:+ "#" +:+ tagRun r +:+ after) with (String "#" (tagRun r +:+ after)).
      rewrite <- Hr. auto.
    + exists (String c before), run, after. split; [|exact Hrest].
      change (String c before +:+ "#" +:+ run +:+ after)
        with (String c (before +:+ "#" +:+ run +:+ after)).
      now rewrite Htext.
Qed.

Lemma tagRun_startsWithTags (s : string) : startsWithTags (String.length (tagRun s)) s.
Proof.
  induction s as [|c r IH]; [exact I|]. cbn [tagRun].
  destruct (isTagChar c) eqn:Ec; [|exact I].
  cbn [String.length startsWithTags]. split; [now apply isTagChar_tagCharacter|exact IH].
Qed.

Lemma tagRun_nonempty (s : string) :
  Nat.ltb 0 (String.length (tagRun s)) = true <-> tagRun s <> "".
Proof.
  destruct (tagRun s); cbn; split; intros; congruence || discriminate.
Qed.

Lemma hashtagsFrom_hashtagOf (skip : nat) (s t : string) :
  startsWithTags skip s ->
  In t (hashtagsFrom skip s) <-> hashtagOf s t.
Proof.
  revert skip. induction s as [|c r IH]; intros skip Hskip.
  - cbn. split; [intros []|].
    intros (before & run & after & Htext & _). destruct before; discriminate.
  - rewrite hashtagOf_cons. cbn [hashtagsFrom]. destruct skip as [|k].
    + destruct (Ascii.eqb c "#") eqn:Ec; cbn [andb].
      * apply Ascii.eqb_eq in Ec. subst c.
        destruct (Nat.ltb 0 (String.length (tagRun r))) eqn:El.
        -- cbn [In]. rewrite (IH _ (tagRun_startsWithTags r)).
           apply tagRun_nonempty in El. split.
           ++ intros [<-|Hr]; [left|right]; auto.
           ++ intros [(_ & -> & _)|Hr]; [left|right]; auto.
        -- rewrite (IH 0%nat I). split; [now right|].
           intros [(_ & _ & Hne)|Hr]; [|exact Hr].
           apply tagRun_nonempty in Hne. congruence.
      * rewrite (IH 0%nat I). split; [now right|].
        intros [(Hc & _)|Hr]; [|exact Hr].
        subst c. discriminate.
    + destruct Hskip as [Hc Hk]. rewrite (IH _ Hk). split; [now right|].
      intros [(Hc' & _)|Hr]; [|exact Hr].
      subst c. exfalso. exact (hash_not_tagCharacter Hc).
Qed.

End HashtagOccurrences.

(** X20.  [extractHashtags] returns the hashtags of the text, each exactly
    once: no element is repeated, and a string is an element exactly when
    the text holds a [#] followed by one tag character or more of which
    the string is that [#] and all the tag characters that follow it. *)
Theorem extractHashtags_lists_each_once (text : string) :
  List.NoDup (TextUtils.extractHashtags text)
  /\ (forall t, In t (TextUtils.extractHashtags text) <-> hashtagOf text t).
Proof.
  unfold TextUtils.extractHashtags.
  destruct (uniqueFrom_spec [] (TextUtils.hashtagsFrom 0 text)) as [Hnd Hin].
  split; [exact Hnd|].
  intros t. rewrite Hin, (hashtagsFrom_hashtagOf 0 text t I). cbn [In]. tauto.
Qed.

(** X21.  What [removeHashtags] returns holds no hashtag any more:
    [extractHashtags] finds nothing in it. *)
Theorem removeHashtags_leaves_no_hashtag (text : string) :
  TextUtils.extractHashtags (TextUtils.removeHashtags text) = [].
Proof.
  unfold TextUtils.extractHashtags, TextUtils.removeHashtags, Js.trim, Js.collapseSpaces.
  rewrite (hashFree_no_hashtags 0 false); [reflexivity|].
  apply trimEnd_hashFree, trimStart_hashFree, collapseFrom_hashFree; [discriminate|].
  apply dropHashtagsFrom_hashFree. intros [H|H]; [discriminate|lia].
Qed.

(** ** Generated posts *)

Section PostFacts.
Import RelevanceAnalyzer PostGenerator.

Variable toNumberOther : Json -> Number.
Variable arrayToString : list Json -> string.

Lemma fit_string (limit keep : nat) (s : string) (c : Json) :
  (keep + 3 = limit)%nat ->
  fit toNumberOther arrayToString limit keep (JStr s) = Some c ->
  cutToFit limit s c.
Proof.
  intros Hk. unfold cutToFit. cbn [fit].
  destruct (Nat.ltb_spec limit (String.length s)) as [Hlong|Hfits]; intros [= <-].
  - eexists. split; [reflexivity|]. rewrite append_length, sliceTo_length.
    cbn [String.length]. replace (limit - 3)%nat with keep by lia.
    repeat split; try lia; try reflexivity.
  - exists s. repeat split; try lia; try reflexivity.
Qed.

Lemma withHashSign_starts (tag : string) : Js.startsWith (withHashSign tag) "#" = true.
Proof.
  unfold withHashSign. destruct (Js.startsWith tag "#") eqn:E; [exact E|].
  unfold Js.startsWith. change ("#" +:+ tag) with (String "#" tag).
  cbn [String.prefix]. destruct (Ascii.ascii_dec "#" "#"); [|congruence].
  destruct tag; reflexivity.
Qed.

Lemma mapTags_starts (tags : list Json) (mapped : list string) :
  mapTags tags = Some mapped -> Forall (fun t => Js.startsWith t "#" = true) mapped.
Proof.
  revert mapped. induction tags as [|t rest IH]; intros mapped.
  - intros [= <-]. constructor.
  - cbn [mapTags]. destruct t; try discriminate.
    destruct (mapTags rest) as [m|]; [|discriminate].
    intros [= <-]. constructor; [apply withHashSign_starts|]. now apply IH.
Qed.

Lemma cleanHashtags_clean (tags : option Json) (out : list string) :
  cleanHashtags tags = Some out ->
  (length out <= 5)%nat /\ Forall cleanTag out.
Proof.
  unfold cleanHashtags.
  destruct tags as [[]|]; try (intros [= <-]; split; [cbn; lia|constructor]).
  destruct (mapTags items) as [mapped|] eqn:Em; [|discriminate].
  intros [= <-]. split.
  - rewrite length_firstn. lia.
  - apply mapTags_starts in Em.
    apply Forall_forall. intros t Ht. apply list_elem_of_In in Ht.
    assert (Ht' : In t (firstn 5 (List.filter
                     (fun tag => Nat.ltb 1 (String.length tag)
                                 && Nat.leb (String.length tag) 30) mapped)
                   ++ skipn 5 (List.filter
                     (fun tag => Nat.ltb 1 (String.length tag)
                                 && Nat.leb (String.length tag) 30) mapped)))
      by (apply in_or_app; now left).
    rewrite firstn_skipn in Ht'. clear Ht. rename Ht' into Ht.
    apply filter_In in Ht. destruct Ht as [Hin Hlen].
    apply andb_true_iff in Hlen. destruct Hlen as [H1 H30].
    apply Nat.ltb_lt in H1. apply Nat.leb_le in H30.
    rewrite Forall_forall in Em. split; [apply Em, list_elem_of_In, Hin|lia].
Qed.

Lemma clamp_bounds (x : Number) (q : Q) :
  clamp x = Some q -> (0 <= q <= 1)%Q.
Proof.
  destruct x as [y|]; [|discriminate]. cbn [clamp]. intros [= <-]. split.
  - apply Q.le_max_l.
  - apply Q.max_lub; [discriminate|apply Q.le_min_l].
Qed.

End PostFacts.

(** X22.  Whenever [normalizePostResult] returns, each content the
    answer gave as a string comes out as a string cut to fit its platform
    (280, 500 and 300 characters): unchanged when it fits, else its first
    characters and three dots, never longer than the limit; each list of
    hashtags has at most five tags, every one starting with [#] and from
    2 to 30 characters long; and a quality score that is a number lies
    between 0 and 1. *)
Theorem normalizePostResult_fits_the_platforms
    (toNumberOther : RelevanceAnalyzer.Json -> RelevanceAnalyzer.Number)
    (arrayToString : list RelevanceAnalyzer.Json -> string)
    (raw : RelevanceAnalyzer.Json) (articleUrl : string)
    (r : PostGenerator.GeneratePostsResult) :
  PostGenerator.normalizePostResult toNumberOther arrayToString raw articleUrl = Some r ->
  (forall s, answeredContent raw "twitter" = RelevanceAnalyzer.JStr s ->
     cutToFit 280 s (PostGenerator.content (PostGenerator.twitter r)))
  /\ (forall s, answeredContent raw "mastodon" = RelevanceAnalyzer.JStr s ->
        cutToFit 500 s (PostGenerator.content (PostGenerator.mastodon r)))
  /\ (forall s, answeredContent raw "bluesky" = RelevanceAnalyzer.JStr s ->
        cutToFit 300 s (PostGenerator.bluesky r))
  /\ (length (PostGenerator.hashtags (PostGenerator.twitter r)) <= 5)%nat
  /\ Forall cleanTag (PostGenerator.hashtags (PostGenerator.twitter r))
  /\ (length (PostGenerator.hashtags (PostGenerator.mastodon r)) <= 5)%nat
  /\ Forall cleanTag (PostGenerator.hashtags (PostGenerator.mastodon r))
  /\ (forall q, PostGenerator.qualityScore r = Some q -> (0 <= q <= 1)%Q).
Proof.
  unfold PostGenerator.normalizePostResult, answeredContent.
  destruct (RelevanceAnalyzer.getProperty raw "twitter") as [tw|]; [|discriminate].
  destruct (RelevanceAnalyzer.getProperty raw "mastodon") as [ma|]; [|discriminate].
  destruct (RelevanceAnalyzer.getProperty raw "bluesky") as [bl|]; [|discriminate].
  destruct (RelevanceAnalyzer.getProperty raw "tone") as [to|]; [|discriminate].
  destruct (RelevanceAnalyzer.getProperty raw "quality_score") as [qs|]; [|discriminate].
  cbv zeta.
  destruct (PostGenerator.fit toNumberOther arrayToString 280 277 _)
    as [twContent|] eqn:Eftw; [|discriminate].
  destruct (PostGenerator.fit toNumberOther arrayToString 500 497 _)
    as [maContent|] eqn:Efma; [|discriminate].
  destruct (PostGenerator.fit toNumberOther arrayToString 300 297 _)
    as [blContent|] eqn:Efbl; [|discriminate].
  destruct (PostGenerator.cleanHashtags (PostGenerator.optionalProperty tw "hashtags"))
    as [twTags|] eqn:Etw; [|discriminate].
  destruct (PostGenerator.cleanHashtags (PostGenerator.optionalProperty ma "hashtags"))
    as [maTags|] eqn:Ema; [|discriminate].
  intros [= <-].
  cbn [PostGenerator.twitter PostGenerator.mastodon PostGenerator.bluesky
       PostGenerator.content PostGenerator.hashtags PostGenerator.qualityScore].
  destruct (cleanHashtags_clean _ _ Etw) as [Htw5 Htw].
  destruct (cleanHashtags_clean _ _ Ema) as [Hma5 Hma].
  split; [intros s Hs; rewrite Hs in Eftw;
          exact (fit_string toNumberOther arrayToString 280 277 s _ eq_refl Eftw)|].
  split; [intros s Hs; rewrite Hs in Efma;
          exact (fit_string toNumberOther arrayToString 500 497 s _ eq_refl Efma)|].
  split; [intros s Hs; rewrite Hs in Efbl;
          exact (fit_string toNumberOther arrayToString 300 297 s _ eq_refl Efbl)|].
  repeat (split; [assumption|]).
  intros q Hq. exact (clamp_bounds _ _ Hq).
Qed.

(** [normalizePostResult_fits_the_platforms] on the sample answer: the
    post of 300 characters is cut to 280, the hashtags get their sign,
    the empty one is dropped. *)
Lemma normalizePostResult_fits_the_platforms_witness :
  exists r,
    PostGenerator.normalizePostResult nanOnOther noArrayToString longPostAnswer
      "https://example.org/a" = Some r
    /\ cutToFit 280 (Js.repeatChar "a" 300) (PostGenerator.content (PostGenerator.twitter r))
    /\ PostGenerator.hashtags (PostGenerator.twitter r) = ["#impots"; "#cerfa"].
Proof.
  eexists. split; [vm_compute; reflexivity|]. split.
  - apply (normalizePostResult_fits_the_platforms nanOnOther noArrayToString longPostAnswer
             "https://example.org/a" _ eq_refl).
    reflexivity.
  - reflexivity.
Defined.

(** ** Single-topic classification *)

Section SingleTopicFacts.
Import RelevanceAnalyzer RelevanceAnalyzerSingle.

Variable toNumberOther : Json -> Number.

Lemma arrayPrefix_length (n : nat) (v : option Json) :
  (length (arrayPrefix n v) <= n)%nat.
Proof.
  unfold arrayPrefix. destruct v as [[]|]; cbn [length]; try lia.
  rewrite length_firstn. lia.
Qed.

Lemma normalizeResult_bounds (raw : Json) (r : RelevanceResult) :
  normalizeResult toNumberOther raw = Some r ->
  (forall q, relevanceScore r = Some q -> (0 <= q <= 1)%Q)
  /\ (length (keywords r) <= 10)%nat /\ (length (categories r) <= 5)%nat.
Proof.
  unfold normalizeResult.
  destruct (getProperty raw "relevance_score") as [score|]; [|discriminate].
  destruct (getProperty raw "reasoning") as [why|]; [|discriminate].
  destruct (getProperty raw "keywords") as [kws|]; [|discriminate].
  destruct (getProperty raw "categories") as [cats|]; [|discriminate].
  destruct (getProperty raw "potential_angle") as [angle|]; [|discriminate].
  intros [= <-]. cbn [relevanceScore keywords categories].
  split; [intros q; apply clamp_bounds|]. split; apply arrayPrefix_length.
Qed.

Lemma analyzeArticle_spec (st : Counters) (article : ArticleForAnalysis)
    (chat : option Json) :
  let out := analyzeArticle toNumberOther st article chat in
  analysisCount (fst out) = S (analysisCount st)
  /\ relevantCount (fst out)
     = (relevantCount st + if atLeast (relevanceScore (snd out)) (1 # 2) then 1 else 0)%nat
  /\ (forall q, relevanceScore (snd out) = Some q -> (0 <= q <= 1)%Q)
  /\ (length (keywords (snd out)) <= 10)%nat
  /\ (length (categories (snd out)) <= 5)%nat.
Proof.
  cbv zeta. unfold analyzeArticle. cbv zeta.
  assert (Hfixed : forall r, r = insufficientLede \/ r = analysisError ->
            atLeast (relevanceScore r) (1 # 2) = false
            /\ (forall q, relevanceScore r = Some q -> (0 <= q <= 1)%Q)
            /\ (length (keywords r) <= 10)%nat /\ (length (categories r) <= 5)%nat).
  { intros r [->| ->]; (split; [reflexivity|]);
      (split; [intros q [= <-]; split; discriminate|]); cbn; lia. }
  destruct (String.eqb (lede article) "" || Nat.ltb (String.length (lede article)) 50).
  { cbn [fst snd analysisCount relevantCount].
    destruct (Hfixed insufficientLede (or_introl eq_refl)) as (-> & Hq & Hk & Hc).
    repeat split; try apply Hq; try assumption; lia. }
  destruct chat as [result|].
  - destruct (normalizeResult toNumberOther result) as [r|] eqn:Er.
    + destruct (normalizeResult_bounds _ _ Er) as (Hq & Hk & Hc).
      destruct (atLeast (relevanceScore r) (1 # 2)) eqn:Ea;
        cbn [fst snd analysisCount relevantCount]; rewrite Ea;
        repeat split; try apply Hq; try assumption; lia.
    + cbn [fst snd analysisCount relevantCount].
      destruct (Hfixed analysisError (or_intror eq_refl)) as (-> & Hq & Hk & Hc).
      repeat split; try apply Hq; try assumption; lia.
  - cbn [fst snd analysisCount relevantCount].
    destruct (Hfixed analysisError (or_intror eq_refl)) as (-> & Hq & Hk & Hc).
    repeat split; try apply Hq; try assumption; lia.
Qed.

Lemma analyzeBatchFrom_spec (i : nat) (st : Counters) (articles : list ArticleForAnalysis)
    (chats : nat -> option Json) (results : gmap string RelevanceResult) :
  let out := analyzeBatchFrom toNumberOther i st articles chats results in
  analysisCount (fst out) = (analysisCount st + length articles)%nat
  /\ (relevantCount st <= relevantCount (fst out) <= relevantCount st + length articles)%nat
  /\ (forall k, is_Some (snd out !! k) <->
                is_Some (results !! k) \/ k ∈ map a_id articles).
Proof.
  revert i st results. induction articles as [|article rest IH]; intros i st results.
  - cbn. split; [lia|]. split; [lia|]. intros k. rewrite elem_of_nil. tauto.
  - cbv zeta. cbn [analyzeBatchFrom].
    pose proof (analyzeArticle_spec st article (chats i)) as Hone. cbv zeta in Hone.
    destruct (analyzeArticle toNumberOther st article (chats i)) as [st1 r1].
    cbn [fst snd] in Hone. destruct Hone as (Ha & Hr & _).
    specialize (IH (S i) st1 (<[a_id article := r1]> results)). cbv zeta in IH.
    destruct IH as (Ha' & Hr' & Hk').
    split; [cbn [length]; lia|]. split.
    + cbn [length]. destruct (atLeast (relevanceScore r1) (1 # 2)); lia.
    + intros k. rewrite Hk'. cbn [map]. rewrite elem_of_cons.
      destruct (decide (k = a_id article)) as [->|Hne].
      * rewrite lookup_insert_eq. split; [auto|]. intros _. left. eauto.
      * rewrite lookup_insert_ne by congruence. tauto.
Qed.

End SingleTopicFacts.


(** X24.  [analyzeBatch] gives a verdict for every article of the batch
    and for nothing else, adds the size of the batch to the count of
    analyses and at most as much to the count of relevant ones: the
    relevant count never overtakes the analysis count. *)
Theorem analyzeBatch_covers_the_batch
    (toNumberOther : RelevanceAnalyzer.Json -> RelevanceAnalyzer.Number)
    (st : RelevanceAnalyzerSingle.Counters)
    (articles : list RelevanceAnalyzer.ArticleForAnalysis)
    (chats : nat -> option RelevanceAnalyzer.Json) :
  let out := RelevanceAnalyzerSingle.analyzeBatch toNumberOther st articles chats in
  (forall k, is_Some (snd out !! k) <-> k ∈ map RelevanceAnalyzer.a_id articles)
  /\ RelevanceAnalyzerSingle.analysisCount (fst out)
     = (RelevanceAnalyzerSingle.analysisCount st + length articles)%nat
  /\ (RelevanceAnalyzerSingle.relevantCount st
      <= RelevanceAnalyzerSingle.relevantCount (fst out)
      <= RelevanceAnalyzerSingle.relevantCount st + length articles)%nat
  /\ ((RelevanceAnalyzerSingle.relevantCount st
       <= RelevanceAnalyzerSingle.analysisCount st)%nat ->
      (RelevanceAnalyzerSingle.relevantCount (fst out)
       <= RelevanceAnalyzerSingle.analysisCount (fst out))%nat).
Proof.
  cbv zeta. unfold RelevanceAnalyzerSingle.analyzeBatch.
  destruct (analyzeBatchFrom_spec toNumberOther 0 st articles chats ∅) as (Ha & Hr & Hk).
  split.
  - intros k. rewrite Hk, lookup_empty. split; [|auto].
    intros [[x Hx]|Hin]; [discriminate|exact Hin].
  - split; [exact Ha|]. split; [exact Hr|]. lia.
Qed.

(** ** Classification worker *)

Section WorkerFacts.
Import RelevanceAnalyzer AiAnalysisWorker.

Lemma greater_spec (x y : Q) : greater (Some x) (Some y) = true <-> (y < x)%Q.
Proof.
  cbn [greater]. rewrite negb_true_iff. split.
  - intros Hn. apply Qnot_le_lt. intros Hle. apply Qle_bool_iff in Hle. congruence.
  - intros Hlt. destruct (Qle_bool x y) eqn:E; [|reflexivity].
    apply Qle_bool_iff in E. exfalso. exact (Qlt_not_le _ _ Hlt E).
Qed.

Lemma scoresBelow_atMost (r b : TopicRelevanceResult) :
  scoresBelow r b -> scoresAtMost r b.
Proof.
  intros (x & y & Hx & Hy & Hlt). exists x, y. repeat split; try assumption.
  apply Qlt_le_weak, Hlt.
Qed.

Lemma scoresAtMost_below_trans (a b c : TopicRelevanceResult) :
  scoresAtMost a b -> scoresBelow b c -> scoresBelow a c.
Proof.
  intros (x & y & Hx & Hy & Hle) (y' & z & Hy' & Hz & Hlt).
  rewrite Hy in Hy'. injection Hy' as <-.
  exists x, z. repeat split; try assumption. eapply Qle_lt_trans; eassumption.
Qed.

(** The fold of [bestResult] over results with numeric scores, from a
    first candidate [b0]: it keeps [b0] when no result beats it, and
    otherwise stops at the first result that nothing later beats. *)
Lemma keepBest_fold (l : list TopicRelevanceResult) (b0 : TopicRelevanceResult) :
  scored b0 -> Forall scored l ->
  (fold_left keepBest l b0 = b0 /\ forall r, In r l -> scoresAtMost r b0)
  \/ (exists pre post, l = pre ++ fold_left keepBest l b0 :: post
        /\ scoresBelow b0 (fold_left keepBest l b0)
        /\ (forall r, In r pre -> scoresBelow r (fold_left keepBest l b0))
        /\ (forall r, In r post -> scoresAtMost r (fold_left keepBest l b0))).
Proof.
  intros Hb0 Hl. revert b0 Hb0. induction Hl as [|c l Hc Hl IH]; intros b0 Hb0.
  - left. split; [reflexivity|intros r []].
  - change (fold_left keepBest (c :: l) b0) with (fold_left keepBest l (keepBest b0 c)).
    unfold scored in Hc, Hb0.
    destruct (relevanceScore c) as [x|] eqn:Ex; [|congruence].
    destruct (relevanceScore b0) as [y|] eqn:Ey; [|congruence].
    destruct (greater (Some x) (Some y)) eqn:Eg.
    + assert (Hk : keepBest b0 c = c) by (unfold keepBest; now rewrite Ex, Ey, Eg).
      rewrite Hk. apply greater_spec in Eg.
      assert (Hbc : scoresBelow b0 c) by (exists y, x; auto).
      destruct (IH c) as [[Hb Hall]|(pre & post & Heq & Hbelow & Hpre & Hpost)].
      { unfold scored. congruence. }
      * right. exists [], l. rewrite Hb. cbn [app].
        repeat split; try assumption. intros r [].
      * right. exists (c :: pre), post. cbn [app]. split; [now f_equal|].
        split; [|split; [|exact Hpost]].
        -- eapply scoresAtMost_below_trans; [apply scoresBelow_atMost|]; eassumption.
        -- intros r [<-|Hr]; [exact Hbelow|apply Hpre, Hr].
    + assert (Hk : keepBest b0 c = b0) by (unfold keepBest; now rewrite Ex, Ey, Eg).
      rewrite Hk.
      assert (Hcb : scoresAtMost c b0).
      { exists x, y. repeat split; try assumption.
        destruct (Qlt_le_dec y x) as [Hlt|Hle]; [|exact Hle].
        apply greater_spec in Hlt. congruence. }
      destruct (IH b0) as [[Hb Hall]|(pre & post & Heq & Hbelow & Hpre & Hpost)].
      { unfold scored. congruence. }
      * left. split; [exact Hb|]. intros r [<-|Hr]; [exact Hcb|apply Hall, Hr].
      * right. exists (c :: pre), post. cbn [app]. split; [now f_equal|].
        split; [exact Hbelow|]. split; [|exact Hpost].
        intros r [<-|Hr]; [|apply Hpre, Hr].
        eapply scoresAtMost_below_trans; eassumption.
Qed.

Lemma bestResult_fold (first : TopicRelevanceResult) (rest : list TopicRelevanceResult) :
  bestResult (first :: rest) = Some (fold_left keepBest (first :: rest) first).
Proof. reflexivity. Qed.

Lemma scoresAtMost_refl (r : TopicRelevanceResult) : scored r -> scoresAtMost r r.
Proof.
  unfold scored. intros Hr. destruct (relevanceScore r) as [x|] eqn:Ex; [|congruence].
  exists x, x. repeat split; try assumption. apply Qle_refl.
Qed.

(** The best of results with numeric scores: a result of the list that
    none beats, and the first such. *)
Lemma bestResult_spec (results : list TopicRelevanceResult) :
  Forall scored results -> results <> [] ->
  exists b pre post,
    bestResult results = Some b
    /\ results = pre ++ b :: post
    /\ (forall r, In r pre -> scoresBelow r b)
    /\ (forall r, In r post -> scoresAtMost r b).
Proof.
  intros Hall Hne. destruct results as [|first rest]; [congruence|].
  rewrite bestResult_fold.
  pose proof (Forall_inv Hall) as Hfirst.
  destruct (keepBest_fold (first :: rest) first Hfirst Hall)
    as [[Hb Hle]|(pre & post & Heq & Hbelow & Hpre & Hpost)].
  - exists first, [], rest. rewrite Hb. cbn [app]. repeat split.
    + intros r [].
    + intros r Hr. apply Hle. now right.
  - eexists _, pre, post. repeat split; eassumption.
Qed.



End WorkerFacts.

(** X25.  The result the worker records as best, when every score is a
    number: there is none for an empty list; otherwise it is a result of
    the list that no result beats, and the first such, every result before
    it scoring strictly less. *)
Theorem bestResult_is_the_first_maximum
    (results : list RelevanceAnalyzer.TopicRelevanceResult) :
  Forall scored results ->
  (results = [] -> AiAnalysisWorker.bestResult results = None)
  /\ (results <> [] ->
      exists b pre post,
        AiAnalysisWorker.bestResult results = Some b
        /\ results = pre ++ b :: post
        /\ (forall r, In r pre -> scoresBelow r b)
        /\ (forall r, In r results -> scoresAtMost r b)).
Proof.
  intros Hall. split; [intros ->; reflexivity|]. intros Hne.
  destruct (bestResult_spec results Hall Hne) as (b & pre & post & Hb & Heq & Hpre & Hpost).
  exists b, pre, post. repeat split; try assumption.
  intros r Hr. rewrite Heq in Hr. apply in_app_or in Hr.
  destruct Hr as [Hr|[<-|Hr]].
  - apply scoresBelow_atMost, Hpre, Hr.
  - apply scoresAtMost_refl. rewrite Forall_forall in Hall. apply Hall.
    apply list_elem_of_In. rewrite Heq. apply in_or_app. right. now left.
  - apply Hpost, Hr.
Qed.

(** [bestResult_is_the_first_maximum] on two results scored 0.4 and
    0.7. *)
Lemma bestResult_is_the_first_maximum_witness :
  exists b pre post,
    AiAnalysisWorker.bestResult twoScores = Some b
    /\ twoScores = pre ++ b :: post
    /\ (forall r, In r pre -> scoresBelow r b)
    /\ (forall r, In r twoScores -> scoresAtMost r b).
Proof.
  apply (bestResult_is_the_first_maximum twoScores).
  - repeat constructor; discriminate.
  - discriminate.
Defined.






(** ** Incremental scan *)

Section OrderFacts.
Context {A : Type} (le : A -> A -> bool).
Hypothesis le_total : forall a b, le a b = true \/ le b a = true.
Hypothesis le_trans : forall a b c, le a b = true -> le b c = true -> le a c = true.

Lemma insertBy_perm (x : A) (l : list A) :
  Permutation (Orchestrator.insertBy le x l) (x :: l).
Proof.
  induction l as [|y r IH]; [reflexivity|]. cbn [Orchestrator.insertBy].
  destruct (le x y); [reflexivity|].
  rewrite IH. apply perm_swap.
Qed.

Lemma orderBy_perm (l : list A) : Permutation (Orchestrator.orderBy le l) l.
Proof.
  unfold Orchestrator.orderBy. induction l as [|x l IH]; [reflexivity|].
  cbn [fold_right]. rewrite insertBy_perm. now constructor.
Qed.

Lemma insertBy_sorted (x : A) (l : list A) :
  StronglySorted (fun a b => le a b = true) l ->
  StronglySorted (fun a b => le a b = true) (Orchestrator.insertBy le x l).
Proof.
  induction l as [|y r IH]; intros Hs.
  - repeat constructor.
  - cbn [Orchestrator.insertBy]. apply StronglySorted_inv in Hs. destruct Hs as [Hr Hy].
    destruct (le x y) eqn:Exy.
    + constructor; [constructor; assumption|].
      constructor; [exact Exy|].
      rewrite Forall_forall in Hy |- *. intros z Hz. eapply le_trans; eauto.
    + constructor; [apply IH, Hr|].
      assert (Hyx : le y x = true) by (destruct (le_total x y); congruence).
      rewrite Forall_forall in Hy |- *. intros z Hz.
      apply list_elem_of_In in Hz.
      apply (Permutation_in _ (insertBy_perm x r)) in Hz.
      destruct Hz as [<-|Hz]; [exact Hyx|apply Hy, list_elem_of_In, Hz].
Qed.

Lemma orderBy_sorted (l : list A) :
  StronglySorted (fun a b => le a b = true) (Orchestrator.orderBy le l).
Proof.
  unfold Orchestrator.orderBy. induction l as [|x l IH]; [constructor|].
  cbn [fold_right]. apply insertBy_sorted, IH.
Qed.

Lemma sorted_firstn_skipn (n : nat) (l : list A) :
  StronglySorted (fun a b => le a b = true) l ->
  StronglySorted (fun a b => le a b = true) (firstn n l)
  /\ forall q s, In q (firstn n l) -> In s (skipn n l) -> le q s = true.
Proof.
  revert l. induction n as [|n IH]; intros l Hs.
  - cbn. split; [constructor|intros q s []].
  - destruct l as [|x l]; [cbn; split; [constructor|intros q s []]|].
    apply StronglySorted_inv in Hs. destruct Hs as [Hl Hx].
    destruct (IH l Hl) as [Hfirst Hcross]. cbn [firstn skipn]. split.
    + constructor; [exact Hfirst|].
      rewrite Forall_forall in Hx |- *. intros z Hz. apply Hx.
      apply list_elem_of_In. apply list_elem_of_In in Hz.
      rewrite <- (firstn_skipn n l). apply in_or_app. now left.
    + intros q s [<-|Hq] Hs'.
      * rewrite Forall_forall in Hx. apply Hx, list_elem_of_In.
        rewrite <- (firstn_skipn n l). apply in_or_app. now right.
      * now apply Hcross.
Qed.

End OrderFacts.

Lemma fetchedBefore_total (a b : Store.SourceRow) :
  Orchestrator.fetchedBefore a b = true \/ Orchestrator.fetchedBefore b a = true.
Proof.
  unfold Orchestrator.fetchedBefore.
  destruct (Store.last_fetched_at a) as [x|], (Store.last_fetched_at b) as [y|]; auto.
  destruct (Z.leb_spec x y); [now left|]. right. apply Z.leb_le. lia.
Qed.

Lemma fetchedBefore_trans (a b c : Store.SourceRow) :
  Orchestrator.fetchedBefore a b = true -> Orchestrator.fetchedBefore b c = true ->
  Orchestrator.fetchedBefore a c = true.
Proof.
  unfold Orchestrator.fetchedBefore.
  destruct (Store.last_fetched_at a) as [x|], (Store.last_fetched_at b) as [y|],
           (Store.last_fetched_at c) as [z|]; try discriminate; auto.
  rewrite !Z.leb_le. lia.
Qed.

Lemma fetchedBefore_waitedLonger (a b : Store.SourceRow) :
  Orchestrator.fetchedBefore a b = true <-> waitedLonger a b.
Proof.
  unfold Orchestrator.fetchedBefore, waitedLonger.
  destruct (Store.last_fetched_at a) as [x|], (Store.last_fetched_at b) as [y|];
    try tauto.
  - apply Z.leb_le.
  - split; [discriminate|tauto].
Qed.

(** The WHERE clause of the incremental scan selects the sources that are
    due. *)
Lemma selected_dueNow (now : Z) (s : Store.SourceRow) :
  Orchestrator.isRss s && Store.is_active s && Orchestrator.isDue now s = true
  <-> dueNow now s.
Proof.
  unfold dueNow, Orchestrator.isRss, Orchestrator.isDue.
  rewrite !andb_true_iff. split.
  - intros [[Hr Ha] Hd]. split; [|split].
    + destruct (Store.src_type s); (reflexivity || discriminate).
    + exact Ha.
    + intros t Ht. rewrite Ht in Hd. apply Z.ltb_lt in Hd. lia.
  - intros (Hr & Ha & Hd). rewrite Hr. split; [split; [reflexivity|exact Ha]|].
    destruct (Store.last_fetched_at s) as [t|]; [|reflexivity].
    apply Z.ltb_lt. specialize (Hd t eq_refl). lia.
Qed.

Lemma scanJob_scheduledJob (s : Store.SourceRow) :
  Orchestrator.scanJob true s = scheduledJob s.
Proof.
  unfold Orchestrator.scanJob, scheduledJob.
  destruct (Store.category s); reflexivity.
Qed.

Lemma sorted_by_weaker {A} (R R' : A -> A -> Prop) (l : list A) :
  (forall a b, R a b -> R' a b) -> StronglySorted R l -> StronglySorted R' l.
Proof.
  intros Hw. induction 1 as [|x l Hl IH Hx]; constructor; [exact IH|].
  rewrite Forall_forall in Hx |- *. auto.
Qed.

(** The loop that queues the selected sources: the jobs the queue takes
    are added in order and counted, an error is recorded for each job it
    refuses. *)
Lemma queueStep_fold (addFails : Orchestrator.QueuedScan -> option string)
    (srcs : list Store.SourceRow) (q : list Orchestrator.QueuedScan) (n : nat)
    (errs : list string) :
  fold_left (Orchestrator.queueStep addFails) srcs (q, n, errs)
  = (q ++ map scheduledJob (taken addFails srcs),
     (n + length (taken addFails srcs))%nat,
     errs ++ queueErrors addFails srcs).
Proof.
  revert q n errs. induction srcs as [|s srcs IH]; intros q n errs.
  - cbn. now rewrite !app_nil_r, Nat.add_0_r.
  - cbn [fold_left]. unfold Orchestrator.queueStep at 2.
    unfold taken, queueErrors. rewrite filter_cons. cbn [omap list_omap].
    rewrite scanJob_scheduledJob.
    destruct (addFails (scheduledJob s)) as [message|] eqn:E.
    + rewrite IH. rewrite decide_False by discriminate.
      unfold taken, queueErrors. now rewrite <- app_assoc.
    + rewrite IH. rewrite decide_True by reflexivity.
      unfold taken, queueErrors. cbn [map length app].
      rewrite <- app_assoc. cbn [app Nat.add]. rewrite Nat.add_succ_r. reflexivity.
Qed.

(** X28.  An incremental scan without a given source selects the sources
    that are due, the longest-waiting first and never more than 20: the
    selected sources and those left for a later run are together the
    active feeds never fetched or last fetched more than their fetch
    interval ago; the selected ones are in the order of their last fetch,
    sources never fetched first; none is left out unless 20 are selected;
    and every source left out was last fetched no earlier than every
    selected one.  A job is handed to the fetch queue for each selected
    source, in that order: the jobs the queue takes are added behind the
    jobs already there and counted, and an error is recorded for each job
    it refuses. *)
Theorem runIncrementalScan_takes_the_longest_waiting
    (addFails : Orchestrator.QueuedScan -> option string) (now : Z)
    (db : Store.Database) (rssScan : list Orchestrator.QueuedScan) :
  exists selected left,
    Permutation (selected ++ left) (filter (dueNow now) (Store.sources db))
    /\ (length selected <= 20)%nat
    /\ (left <> [] -> length selected = 20%nat)
    /\ StronglySorted waitedLonger selected
    /\ (forall q s, In q selected -> In s left -> waitedLonger q s)
    /\ Orchestrator.runIncrementalScan addFails now None db rssScan
       = Some (rssScan ++ map scheduledJob (taken addFails selected),
               (length selected, length (taken addFails selected),
                queueErrors addFails selected)).
Proof.
  set (due := filter (dueNow now) (Store.sources db)).
  set (sorted := Orchestrator.orderBy Orchestrator.fetchedBefore due).
  exists (firstn 20 sorted), (skipn 20 sorted).
  destruct (sorted_firstn_skipn Orchestrator.fetchedBefore 20 sorted)
    as [Hfirst Hcross].
  { apply orderBy_sorted; [apply fetchedBefore_total|apply fetchedBefore_trans]. }
  split; [rewrite firstn_skipn; apply orderBy_perm|].
  split; [rewrite length_firstn; lia|]. split.
  { intros Hleft. rewrite length_firstn.
    destruct (Nat.le_gt_cases (length sorted) 20) as [Hshort|Hlong]; [|lia].
    exfalso. apply Hleft. now apply skipn_all2. }
  split.
  { apply (sorted_by_weaker _ _ _ (fun a b => proj1 (fetchedBefore_waitedLonger a b))).
    exact Hfirst. }
  split.
  { intros q s Hq Hs. apply fetchedBefore_waitedLonger. now apply Hcross. }
  unfold Orchestrator.runIncrementalScan. cbn [Js.truthy].
  rewrite (list_filter_iff _ (dueNow now)) by (intros s; apply selected_dueNow).
  fold due. fold sorted. unfold Orchestrator.queueAll.
  rewrite queueStep_fold. cbn [app Nat.add]. reflexivity.
Qed.

(** ** Feed fetcher *)

Section FetcherFacts.
Import RssFetcherService.

Lemma fetch_run (parseURL : nat -> Retry.Outcome RSSFeed) :
  let r := Retry.withRetry parseURL fetchOptions in
  (1 <= Retry.calls r <= 3)%nat
  /\ Retry.sleeps r = firstn (Retry.calls r - 1) [2000%Q; 4000%Q]
  /\ Retry.settled r = parseURL (Retry.calls r)
  /\ (forall k, (1 <= k < Retry.calls r)%nat -> failsRetryably fetchOptions parseURL k).
Proof.
  intros r.
  destruct (attempts_run fetchOptions parseURL 3 1 2000
              {| Retry.name := "Error"; Retry.message := "No attempts made" |} 0 [])
    as (c & Hc & Hcalls & Hsleeps & Hset & Hfail & _); [reflexivity | lia |].
  change (Retry.attempts fetchOptions parseURL 3 1 2000
            {| Retry.name := "Error"; Retry.message := "No attempts made" |} 0 [])
    with r in Hcalls, Hsleeps, Hset.
  cbn [Nat.add app] in Hcalls, Hsleeps.
  replace (1 + c - 1)%nat with c in Hset by lia.
  rewrite Hcalls. split; [lia|]. split; [|split; [exact Hset|]].
  - rewrite Hsleeps.
    assert (Hc3 : c = 1%nat \/ c = 2%nat \/ c = 3%nat) by lia.
    destruct Hc3 as [-> | [-> | ->]]; vm_compute; reflexivity.
  - intros k Hk. replace k with (1 + (k - 1))%nat by lia. apply Hfail. lia.
Qed.

Variable firesAt : Q -> Q.

Lemma limited_counts (now : Q) (sourceSlug : option string) (st : Service) :
  fetchCount (fst (limited firesAt now sourceSlug st)) = fetchCount st
  /\ errorCount (fst (limited firesAt now sourceSlug st)) = errorCount st.
Proof.
  unfold limited.
  destruct sourceSlug as [slug|]; [destruct (Js.truthy (Some slug))|]; auto.
  unfold waitForRateLimit, getRateLimiter.
  destruct (rateLimiters st !! slug) as [l|];
    destruct (waitForToken firesAt now _) as [l1 t]; auto.
Qed.

Lemma fetchFeed_limited (now finished : Q) (parseURL : nat -> Retry.Outcome RSSFeed)
    (sourceSlug : option string) (st : Service) :
  let out := fetchFeed firesAt now finished parseURL sourceSlug st in
  let st1 := fst (limited firesAt now sourceSlug (counted st)) in
  let r := Retry.withRetry parseURL fetchOptions in
  rateLimiters (fst (fst out)) = rateLimiters st1
  /\ fetchingFrom (snd out) = snd (limited firesAt now sourceSlug (counted st))
  /\ run (snd out) = r
  /\ fetchCount (fst (fst out)) = S (fetchCount st)
  /\ match Retry.settled r with
     | Retry.Resolved parsed =>
         snd (fst out)
         = {| success := true;
              feed := Some {| title := title parsed;
                              description := description parsed;
                              link := link parsed;
                              lastBuildDate := lastBuildDate parsed;
                              items := map normalizeItem (items parsed) |};
              itemCount := length (items parsed);
              error := None;
              duration := finished - now |}
         /\ errorCount (fst (fst out)) = errorCount st
     | Retry.Rejected e =>
         snd (fst out)
         = {| success := false; feed := None; itemCount := 0;
              error := Some (Retry.message e); duration := finished - now |}
         /\ errorCount (fst (fst out)) = S (errorCount st)
     end.
Proof.
  destruct (limited_counts now sourceSlug (counted st)) as [Hfc Hec].
  cbn [counted fetchCount errorCount] in Hfc, Hec.
  unfold fetchFeed. cbv zeta.
  fold (counted st). fold (limited firesAt now sourceSlug (counted st)).
  destruct (limited firesAt now sourceSlug (counted st)) as [st1 t]. cbn [fst snd] in *.
  destruct (Retry.settled (Retry.withRetry parseURL fetchOptions)) as [parsed|e];
    cbn [fst snd rateLimiters fetchCount errorCount fetchingFrom run];
    repeat split; congruence.
Qed.

Hypothesis timers : firesNoEarlier firesAt.

Lemma waitForToken_single (now : Q) (l : RateLimiter.Limiter) :
  perSource now l ->
  let out := waitForToken firesAt now l in
  perSource (snd out) (fst out)
  /\ (now <= snd out)%Q
  /\ ((0 < RateLimiter.tokens (RateLimiter.refillTokens now l))%Z -> snd out = now)
  /\ ((RateLimiter.tokens (RateLimiter.refillTokens now l) <= 0)%Z ->
      afterOneWait firesAt now (snd out)).
Proof.
  intros (Hm & Hi & Hl & Hlast).
  pose proof (refill_withinCapacity now l Hl) as Hr.
  pose proof (refill_lastRefill_le now l Hlast) as Hrl.
  destruct (refill_keeps_settings now l) as [Hm1 Hi1].
  unfold waitForToken, RateLimiter.waitForToken_begin. cbv zeta.
  set (l1 := RateLimiter.refillTokens now l) in *.
  rewrite Hm in Hm1. rewrite Hi in Hi1.
  destruct (Z.ltb_spec 0 (RateLimiter.tokens l1)) as [Hpos|Hzero]; cbn [fst snd].
  - split; [|split; [lra|split; [reflexivity|lia]]].
    unfold perSource, withinCapacity in *.
    cbn [RateLimiter.takeToken RateLimiter.tokens RateLimiter.maxTokens
         RateLimiter.interval RateLimiter.lastRefill].
    repeat split; try assumption; lia.
  - rewrite Hm1, Hi1.
    set (due := (now + 60000 / inject_Z 10 * 1)%Q).
    assert (Hdue : (due == now + 6000)%Q) by (unfold due; field).
    pose proof (timers due) as Hfires.
    set (t := firesAt due) in *.
    assert (Hgot : (0 < RateLimiter.tokens (RateLimiter.refillTokens t l1))%Z).
    { apply refill_after_period.
      - rewrite Hi1. reflexivity.
      - rewrite Hm1. lia.
      - apply Hr.
      - rewrite Hi1, Hm1. fold due. unfold due in Hdue, Hfires |- *. lra. }
    pose proof (refill_withinCapacity t l1 Hr) as Hr2.
    destruct (refill_keeps_settings t l1) as [Hm2 Hi2].
    assert (Hrl2 : (RateLimiter.lastRefill (RateLimiter.refillTokens t l1) <= t)%Q)
      by (apply refill_lastRefill_le; lra).
    split; [|split; [lra|split; [lia|intros _; now exists due]]].
    unfold RateLimiter.waitForToken_end, perSource, withinCapacity in *.
    cbn [RateLimiter.takeToken RateLimiter.tokens RateLimiter.maxTokens
         RateLimiter.interval RateLimiter.lastRefill].
    rewrite Hm2, Hi2, Hm1, Hi1. repeat split; try assumption; try lia.
Qed.

(** Less than 6000 ms after its last refill a per-source bucket gains no
    token. *)
Lemma refill_before_period (now : Q) (l : RateLimiter.Limiter) :
  perSource now l -> (now - RateLimiter.lastRefill l < 6000)%Q ->
  RateLimiter.refillTokens now l = l.
Proof.
  intros (Hm & Hi & _ & _) Hrecent. unfold RateLimiter.refillTokens. cbv zeta.
  rewrite Hm, Hi.
  set (x := ((now - RateLimiter.lastRefill l) / 60000 * inject_Z 10)%Q).
  assert (Hx : (x < 1)%Q).
  { assert (E : (x == (now - RateLimiter.lastRefill l) / 6000)%Q) by (unfold x; field).
    rewrite E. apply Qlt_shift_div_r; [reflexivity|]. lra. }
  assert (Hfloor : (Qfloor x < 1)%Z).
  { rewrite Zlt_Qlt. change (inject_Z 1) with 1%Q.
    eapply Qle_lt_trans; [apply Qfloor_le|exact Hx]. }
  destruct (Z.ltb_spec 0 (Qfloor x)); [lia|reflexivity].
Qed.

Lemma perSource_later (t t' : Q) (l : RateLimiter.Limiter) :
  (t <= t')%Q -> perSource t l -> perSource t' l.
Proof.
  intros Ht (Hm & Hi & Hl & Hlast). repeat split; try assumption; try apply Hl. lra.
Qed.

Lemma new_perSource (now : Q) : perSource now (RateLimiter.new 10 60000 now).
Proof.
  unfold perSource, withinCapacity. cbn. repeat split; try lia. apply Qle_refl.
Qed.

Lemma waitForRateLimit_spec (now : Q) (slug : string) (st : Service) :
  limitersInOrder now st ->
  let out := waitForRateLimit firesAt now slug st in
  (now <= snd out)%Q
  /\ (snd out = now \/ afterOneWait firesAt now (snd out))
  /\ (drained now slug st -> afterOneWait firesAt now (snd out))
  /\ limitersInOrder (snd out) (fst out)
  /\ is_Some (rateLimiters (fst out) !! slug)
  /\ (forall other, other <> slug ->
        rateLimiters (fst out) !! other = rateLimiters st !! other).
Proof.
  intros Hst. unfold waitForRateLimit, getRateLimiter.
  assert (Hl0 : perSource now (bucketOf now slug st)).
  { unfold bucketOf. destruct (rateLimiters st !! slug) as [l|] eqn:E;
      [exact (Hst slug l E)|apply new_perSource]. }
  destruct (waitForToken_single now _ Hl0) as (Hper & Ht & Hnow & Hwait).
  assert (Hcases : snd (waitForToken firesAt now (bucketOf now slug st)) = now
                   \/ afterOneWait firesAt now (snd (waitForToken firesAt now (bucketOf now slug st)))).
  { destruct (Z.ltb_spec 0 (RateLimiter.tokens
                (RateLimiter.refillTokens now (bucketOf now slug st)))); auto. }
  assert (Hdrained : drained now slug st ->
            afterOneWait firesAt now (snd (waitForToken firesAt now (bucketOf now slug st)))).
  { intros (l & El & Hl & Hrecent). apply Hwait. unfold bucketOf. rewrite El.
    rewrite (refill_before_period now l (Hst slug l El) Hrecent). lia. }
  assert (Hgoal :
    forall st1, (forall other, other <> slug ->
                   rateLimiters st1 !! other = rateLimiters st !! other) ->
    let out := (let '(limiter1, resumed) := waitForToken firesAt now (bucketOf now slug st) in
                ({| rateLimiters := <[slug := limiter1]> (rateLimiters st1);
                    fetchCount := fetchCount st1; errorCount := errorCount st1 |},
                 resumed)) in
    (now <= snd out)%Q
    /\ (snd out = now \/ afterOneWait firesAt now (snd out))
    /\ (drained now slug st -> afterOneWait firesAt now (snd out))
    /\ limitersInOrder (snd out) (fst out)
    /\ is_Some (rateLimiters (fst out) !! slug)
    /\ (forall other, other <> slug ->
          rateLimiters (fst out) !! other = rateLimiters st !! other)).
  { intros st1 Hother.
    destruct (waitForToken firesAt now (bucketOf now slug st)) as [l1 t].
    cbn [fst snd] in *.
    split; [exact Ht|]. split; [exact Hcases|]. split; [exact Hdrained|].
    split; [|split].
    - intros s l. cbn [rateLimiters].
      destruct (decide (s = slug)) as [->|Hne].
      + rewrite lookup_insert_eq. intros [= <-]. exact Hper.
      + rewrite lookup_insert_ne by congruence. rewrite Hother by exact Hne.
        intros E. apply (perSource_later now t); [apply Ht|exact (Hst s l E)].
    - cbn [rateLimiters]. rewrite lookup_insert_eq. eauto.
    - intros other Hne. cbn [rateLimiters].
      rewrite lookup_insert_ne by congruence. now apply Hother. }
  unfold bucketOf in Hgoal.
  destruct (rateLimiters st !! slug) as [l|] eqn:E.
  - apply (Hgoal st). reflexivity.
  - apply (Hgoal {| rateLimiters := <[slug := RateLimiter.new 10 60000 now]> (rateLimiters st);
                    fetchCount := fetchCount st; errorCount := errorCount st |}).
    intros other Hne. cbn [rateLimiters]. now rewrite lookup_insert_ne by congruence.
Qed.

End FetcherFacts.

(** X29.  [fetchFeed] never throws and reports what the last call of the
    parser did.  The parser is called at most three times, 2000 ms and
    then 4000 ms apart, every call but the last having failed with one of
    the errors listed for a retry.  When the last call succeeds the result
    is a success carrying the feed with every item normalised and the
    number of items; otherwise it is a failure carrying the message of
    that call's error, no feed and a count of 0.  The call adds one to
    the count of fetches, and one to the count of errors exactly on a
    failure. *)
Theorem fetchFeed_reports_the_last_attempt (firesAt : Q -> Q) (now finished : Q)
    (parseURL : nat -> Retry.Outcome RssFetcherService.RSSFeed)
    (sourceSlug : option string) (st : RssFetcherService.Service) :
  let out := RssFetcherService.fetchFeed firesAt now finished parseURL sourceSlug st in
  let st' := fst (fst out) in
  let result := snd (fst out) in
  let r := RssFetcherService.run (snd out) in
  (1 <= Retry.calls r <= 3)%nat
  /\ Retry.sleeps r = firstn (Retry.calls r - 1) [2000%Q; 4000%Q]
  /\ (forall k, (1 <= k < Retry.calls r)%nat ->
        failsRetryably RssFetcherService.fetchOptions parseURL k)
  /\ RssFetcherService.fetchCount st' = S (RssFetcherService.fetchCount st)
  /\ RssFetcherService.duration result = (finished - now)%Q
  /\ match parseURL (Retry.calls r) with
     | Retry.Resolved parsed =>
         RssFetcherService.success result = true
         /\ (exists f, RssFetcherService.feed result = Some f
               /\ RssFetcherService.items f
                  = map RssFetcherService.normalizeItem (RssFetcherService.items parsed)
               /\ RssFetcherService.title f = RssFetcherService.title parsed)
         /\ RssFetcherService.itemCount result
            = length (RssFetcherService.items parsed)
         /\ RssFetcherService.error result = None
         /\ RssFetcherService.errorCount st' = RssFetcherService.errorCount st
     | Retry.Rejected e =>
         RssFetcherService.success result = false
         /\ RssFetcherService.feed result = None
         /\ RssFetcherService.itemCount result = 0%nat
         /\ RssFetcherService.error result = Some (Retry.message e)
         /\ RssFetcherService.errorCount st' = S (RssFetcherService.errorCount st)
     end.
Proof.
  intros out st' result r.
  destruct (fetchFeed_limited firesAt now finished parseURL sourceSlug st)
    as (_ & _ & Hrun & Hfc & Hres).
  fold out in Hrun, Hfc, Hres. fold st' in Hfc, Hres. fold result in Hres. fold r in Hrun.
  destruct (fetch_run parseURL) as (Hcalls & Hsleeps & Hset & Hfail).
  rewrite <- Hrun in Hcalls, Hsleeps, Hset, Hfail, Hres.
  split; [exact Hcalls|]. split; [exact Hsleeps|]. split; [exact Hfail|].
  split; [exact Hfc|].
  rewrite <- Hset.
  destruct (Retry.settled r) as [parsed|e]; destruct Hres as [-> Hec];
    cbn [RssFetcherService.success RssFetcherService.feed RssFetcherService.itemCount
         RssFetcherService.error RssFetcherService.duration];
    repeat split; try assumption.
  eexists; repeat split.
Qed.

(** X30.  With one fetch of a source in flight at a time and timers that
    never fire early, [fetchFeed] waits for its token through one timer of
    six seconds at most: when every per-source bucket is in good order at
    the time of the call (ten tokens per minute, between none and ten in
    hand), the fetch begins at once, or when a timer fires that was set
    for 6000 ms after the call, and every bucket is in good order again
    then.  It does wait when the bucket of the source is drained.  Only
    the bucket of the given source is touched, and it exists afterwards;
    without a source slug, or with an empty one, no bucket is touched and
    the fetch begins at once. *)
Theorem fetchFeed_waits_for_one_timer_at_most (firesAt : Q -> Q) (now finished : Q)
    (parseURL : nat -> Retry.Outcome RssFetcherService.RSSFeed)
    (sourceSlug : option string) (st : RssFetcherService.Service) :
  firesNoEarlier firesAt ->
  limitersInOrder now st ->
  let out := RssFetcherService.fetchFeed firesAt now finished parseURL sourceSlug st in
  let st' := fst (fst out) in
  let t := RssFetcherService.fetchingFrom (snd out) in
  (now <= t)%Q
  /\ (t = now \/ afterOneWait firesAt now t)
  /\ limitersInOrder t st'
  /\ (forall other, sourceSlug <> Some other ->
        RssFetcherService.rateLimiters st' !! other
        = RssFetcherService.rateLimiters st !! other)
  /\ (Js.truthy sourceSlug = false ->
        RssFetcherService.rateLimiters st' = RssFetcherService.rateLimiters st /\ t = now)
  /\ (Js.truthy sourceSlug = true ->
        exists slug, sourceSlug = Some slug
                     /\ is_Some (RssFetcherService.rateLimiters st' !! slug)
                     /\ (drained now slug st -> afterOneWait firesAt now t)).
Proof.
  intros Htimers Hst out st' t.
  destruct (fetchFeed_limited firesAt now finished parseURL sourceSlug st)
    as (Hrl & Hfrom & _).
  fold out in Hrl, Hfrom. fold st' in Hrl. fold t in Hfrom.
  unfold limitersInOrder. rewrite Hrl, Hfrom. clear Hrl Hfrom.
  assert (Hst0 : limitersInOrder now (counted st)) by exact Hst.
  unfold limited.
  destruct sourceSlug as [slug|]; [destruct (Js.truthy (Some slug)) eqn:Etruthy|].
  - destruct (waitForRateLimit_spec firesAt Htimers now slug (counted st) Hst0)
      as (Ht & Hcases & Hdrained & Hord & Hsome & Hother).
    split; [exact Ht|]. split; [exact Hcases|]. split; [exact Hord|]. split; [|split].
    + intros other Hne. apply Hother. congruence.
    + discriminate.
    + intros _. exists slug. split; [reflexivity|]. split; [exact Hsome|exact Hdrained].
  - cbn [fst snd counted RssFetcherService.rateLimiters].
    split; [lra|]. split; [now left|]. split; [exact Hst|]. split; [reflexivity|]. split.
    + intros _. split; reflexivity.
    + discriminate.
  - cbn [fst snd counted RssFetcherService.rateLimiters].
    split; [lra|]. split; [now left|]. split; [exact Hst|]. split; [reflexivity|]. split.
    + intros _. split; reflexivity.
    + discriminate.
Qed.

(** A fetch of a source whose bucket is drained, with a timer that fires
    four milliseconds late: it begins 6004 ms after the call and leaves
    the buckets in good order. *)
Lemma fetchFeed_waits_for_one_timer_at_most_witness :
  firesNoEarlier lateTimer
  /\ limitersInOrder 0 drainedService
  /\ (RssFetcherService.fetchingFrom
        (snd (RssFetcherService.fetchFeed lateTimer 0 9000 busyOnce (Some "lemonde")
                drainedService)) == 6004)%Q
  /\ limitersInOrder
       (RssFetcherService.fetchingFrom
          (snd (RssFetcherService.fetchFeed lateTimer 0 9000 busyOnce (Some "lemonde")
                  drainedService)))
       (fst (fst (RssFetcherService.fetchFeed lateTimer 0 9000 busyOnce (Some "lemonde")
                    drainedService))).
Proof.
  assert (Htimer : firesNoEarlier lateTimer).
  { intros due. unfold lateTimer. lra. }
  assert (Hdrained : limitersInOrder 0 drainedService).
  { intros slug l E. cbn in E. apply lookup_singleton_Some in E as [_ <-].
    unfold perSource, withinCapacity. cbn. repeat split; try lia. apply Qle_refl. }
  split; [exact Htimer|]. split; [exact Hdrained|]. split; [vm_compute; reflexivity|].
  apply (fetchFeed_waits_for_one_timer_at_most lateTimer 0 9000 busyOnce (Some "lemonde")
           drainedService Htimer Hdrained).
Defined.
